(** * The computed-role selector engine of playwright-getbycomputedrole

    A shallow embedding of the selector script (visibility, role and
    accessible-name computation, the traversal generator, [query] and
    [queryAll]), of the init script that fills the two tracker maps, and of
    [getByComputedRole], which serialises the query payload.

    Conventions of the embedding.
    - A DOM node is an object identity ([node], a natural number); what the
      script reads from a node is the record [NodeData] the document gives for
      it.  [instanceof Element] and [nodeType === 1] are the same test.
    - JavaScript strings are sequences of code units below 256.
    - [getComputedStyle] returns a live declaration object: it is modelled by
      the element it describes, and reading [display] or [visibility] from it
      looks the element up in the current document.
    - Loops and recursion that the script leaves unbounded take a [fuel]
      argument that bounds their depth; [OutOfFuel] is the only result that
      does not correspond to a result of the script. *)

From Stdlib Require Import Ascii String List Arith Lia.
From stdpp Require Import gmap strings.

(** ** Strings *)

Module JsString.

(** The characters matched by [\s] and removed by [trim], below 256. *)
Definition isWhiteSpace (a : ascii) : bool :=
  let n := nat_of_ascii a in
  ((9 <=? n) && (n <=? 13)) || (n =? 32) || (n =? 160).

(** A string is truthy when it is not empty. *)
Definition truthy (s : string) : bool := negb (String.eqb s "").

Fixpoint trimStart (s : string) : string :=
  match s with
  | String a s' => if isWhiteSpace a then trimStart s' else s
  | EmptyString => EmptyString
  end.

Definition trimEnd (s : string) : string :=
  String.rev (trimStart (String.rev s)).

Definition trim (s : string) : string := trimEnd (trimStart s).

(** [s.replace(/\s+/g, " ")]: [inRun] tells that the previous character
    was white space, already replaced. *)
Fixpoint replaceRuns (inRun : bool) (s : string) : string :=
  match s with
  | EmptyString => EmptyString
  | String a s' =>
      if isWhiteSpace a
      then (if inRun then replaceRuns true s'
            else String " " (replaceRuns true s'))
      else String a (replaceRuns false s')
  end.

Definition collapseWhiteSpace (s : string) : string := replaceRuns false s.

(** [s.split(/\s+/)]; [cur] is the current piece, reversed. *)
Fixpoint split_go (cur : string) (inRun : bool) (s : string) : list string :=
  match s with
  | EmptyString => [String.rev cur]
  | String a s' =>
      if isWhiteSpace a
      then (if inRun then split_go "" true s'
            else String.rev cur :: split_go "" true s')
      else split_go (String a cur) false s'
  end.

Definition splitWhiteSpace (s : string) : list string := split_go "" false s.

Definition toLowerCaseChar (a : ascii) : ascii :=
  let n := nat_of_ascii a in
  if ((65 <=? n) && (n <=? 90))
     || ((192 <=? n) && (n <=? 222) && negb (n =? 215))
  then ascii_of_nat (n + 32)
  else a.

Fixpoint toLowerCase (s : string) : string :=
  match s with
  | EmptyString => EmptyString
  | String a s' => String (toLowerCaseChar a) (toLowerCase s')
  end.

(** [s.includes(sub)] *)
Fixpoint includes (s sub : string) : bool :=
  String.prefix sub s
  || match s with
     | EmptyString => false
     | String _ s' => includes s' sub
     end.

End JsString.

Import JsString.

(** [normalize(...strings)] *)
Definition normalize (strings : list string) : string :=
  String.concat " "
    (List.filter truthy (map (fun s => collapseWhiteSpace (trim s)) strings)).

(** ** The document *)

Definition node := nat.

Definition ELEMENT_NODE : nat := 1.
Definition TEXT_NODE : nat := 3.
Definition DOCUMENT_NODE : nat := 9.
Definition DOCUMENT_FRAGMENT_NODE : nat := 11.

(** What the script reads from one node.  [assignedNodes] and
    [assignedElements] are the results of the calls with [{ flatten: true }];
    [style_display] and [style_visibility] are the resolved values the node's
    computed style shows. *)
Record NodeData : Type := {
  nodeType : nat;
  parentElement : option node;
  childNodes : list node;
  ownerDocument : option node;
  nodeValue : option string;
  tagName : string;
  attributes : list (string * string);
  isHTMLElement : bool;
  inert : bool;
  title : string;
  id : string;
  isHTMLSlotElement : bool;
  assignedNodes : list node;
  assignedElements : list node;
  style_display : string;
  style_visibility : string;
  type : string;
  value : string;
  alt : string;
  multiple : bool;
  labels : option (list node);
}.

(** A document: the data of every node, and the two lookups the script asks
    of a document object, [doc.getElementById(id)] and
    [doc.querySelectorAll(`label[for="${CSS.escape(id)}"]`)]. *)
Record Dom : Type := {
  node_data :> node -> NodeData;
  getElementById : node -> string -> option node;
  querySelectorAll_labelFor : node -> string -> list node;
}.

Fixpoint assoc (name : string) (attrs : list (string * string)) : option string :=
  match attrs with
  | [] => None
  | (k, v) :: rest => if String.eqb k name then Some v else assoc name rest
  end.

Definition getAttribute (d : Dom) (n : node) (name : string) : option string :=
  assoc name (attributes (d n)).

Definition hasAttribute (d : Dom) (n : node) (name : string) : bool :=
  match getAttribute d n name with Some _ => true | None => false end.

Definition instanceofElement (d : Dom) (n : node) : bool :=
  nodeType (d n) =? ELEMENT_NODE.

(** ** The tracker (init script) *)

Record ElementInternals : Type := {
  role : option string;
  ariaLabel : option string;
  ariaLabelledByElements : option (list node);
}.

Record WeakMaps : Type := {
  internalsMap : gmap node ElementInternals;
  shadowdomMap : gmap node node;
}.

(** The state the init script starts from: two empty maps. *)
Definition scriptForInit : WeakMaps :=
  {| internalsMap := ∅; shadowdomMap := ∅ |}.

(** The patched [attachInternals]: records the internals object. *)
Definition attachInternals (this : node) (internals : ElementInternals)
    (w : WeakMaps) : WeakMaps :=
  {| internalsMap := <[this := internals]> (internalsMap w);
     shadowdomMap := shadowdomMap w |}.

(** The patched [attachShadow]: records the shadow root. *)
Definition attachShadow (this : node) (shadowRoot : node)
    (w : WeakMaps) : WeakMaps :=
  {| internalsMap := internalsMap w;
     shadowdomMap := <[this := shadowRoot]> (shadowdomMap w) |}.


(** ** Results and the state of one engine *)

Inductive result (A : Type) : Type :=
| Ok (a : A)
| Thrown
| OutOfFuel.
Arguments Ok {A} a.
Arguments Thrown {A}.
Arguments OutOfFuel {A}.

(** [computedStyleCache], created once per engine: element to the style
    declaration object cached for it. *)
Abbreviation StyleCache := (gmap node node).

(** A computation of the selector script: it reads and extends the style
    cache of its engine. *)
Definition M (A : Type) : Type := StyleCache -> result (A * StyleCache).

Definition ret {A} (a : A) : M A := fun c => Ok (a, c).

Definition bind {A B} (m : M A) (k : A -> M B) : M B :=
  fun c =>
    match m c with
    | Ok (a, c') => k a c'
    | Thrown => Thrown
    | OutOfFuel => OutOfFuel
    end.

Definition outOfFuel {A} : M A := fun _ => OutOfFuel.
Definition throw {A} : M A := fun _ => Thrown.

Notation "'let*' x ':=' m 'in' k" := (bind m (fun x => k))
  (at level 10, x binder, k at level 200).

Fixpoint mapM {A B} (f : A -> M B) (l : list A) : M (list B) :=
  match l with
  | [] => ret []
  | x :: l' => let* y := f x in let* ys := mapM f l' in ret (y :: ys)
  end.

(** The outcome of one round of a [for ... of] body: go on with the next
    element, or leave the enclosing function with a value. *)
Inductive Loop (S R : Type) : Type :=
| Continue (s : S)
| Return (r : R).
Arguments Continue {S R} s.
Arguments Return {S R} r.

Fixpoint forEach {S R} (f : node -> S -> M (Loop S R)) (l : list node) (s : S)
    : M (Loop S R) :=
  match l with
  | [] => ret (Continue s)
  | x :: l' =>
      let* r := f x s in
      match r with
      | Continue s' => forEach f l' s'
      | Return v => ret (Return v)
      end
  end.

(** The parsed query payload and the options of [getByComputedRole]. *)
Module ParsedOptions.
Record t : Type := {
  role : option string;
  name : option string;
  description : option string;
  exact : option bool;
}.
End ParsedOptions.

Module Options.
Record t : Type := {
  name : option string;
  description : option string;
  exact : option bool;
}.
End Options.

Abbreviation NameState := (gmap node string * gset node)%type.

Record ComputeAccessibleNamesOptions : Type := {
  knownRole : option string;
  cache : option (gmap node string);
  visited : option (gset node);
  allowNameFromContent : option bool;
}.

Definition truthyOpt (o : option string) : bool :=
  match o with Some s => truthy s | None => false end.

Definition rolesAllowingNameFromContent : list string :=
  [ "button"; "link"; "menuitem"; "menuitemcheckbox"; "menuitemradio";
    "option"; "tab"; "switch"; "checkbox"; "radio"; "treeitem"; "heading";
    "term"; "definition"; "toolbar"; "group"; "region" ].

Definition has (set : list string) (s : string) : bool :=
  existsb (String.eqb s) set.

(** The [case] labels of [computeElementRole] that return a constant. *)
Definition tagRoles : list (string * string) :=
  [ ("ARTICLE", "article"); ("ASIDE", "complementary"); ("BUTTON", "button");
    ("FOOTER", "contentinfo"); ("FORM", "form"); ("H1", "heading");
    ("H2", "heading"); ("H3", "heading"); ("H4", "heading");
    ("H5", "heading"); ("H6", "heading"); ("HEADER", "banner");
    ("IMG", "img"); ("LABEL", "label"); ("LI", "listitem"); ("MAIN", "main");
    ("METER", "progressbar"); ("NAV", "navigation"); ("TABLE", "table");
    ("TEXTAREA", "textbox"); ("OL", "list"); ("UL", "list") ].

Section Engine.

Variable d : Dom.
Variable w : WeakMaps.
(** The first statement of [query] and [queryAll],
    [const { role, name, exact } = parse(selector)], for payloads whose
    three properties have the declared types: the properties read, or [None]
    when [JSON.parse] or the destructuring throws. *)
Variable parse : string -> option ParsedOptions.t.
(** The global [document]. *)
Variable document : node.

(** The cached style object of [n], fetched and cached when missing. *)
Definition computedStyleOf (n : node) : M node :=
  fun c =>
    match c !! n with
    | Some computedStyle => Ok (computedStyle, c)
    | None => let computedStyle := n in
              Ok (computedStyle, <[n := computedStyle]> c)
    end.

Definition display (computedStyle : node) : string :=
  style_display (d computedStyle).

Definition visibility (computedStyle : node) : string :=
  style_visibility (d computedStyle).

(** The loop of [isElementHidden], from [node] upwards. *)
Fixpoint isElementHidden_from (fuel : nat) (node : option node) : M bool :=
  match node with
  | None => ret false
  | Some n =>
      match fuel with
      | 0 => outOfFuel
      | S fuel' =>
          if instanceofElement d n then
            if hasAttribute d n "hidden" then ret true
            else if bool_decide (getAttribute d n "aria-hidden" = Some "true")
            then ret true
            else
              let* computedStyle := computedStyleOf n in
              if String.eqb (display computedStyle) "none"
                 || String.eqb (visibility computedStyle) "hidden"
              then ret true
              else if isHTMLElement (d n) && inert (d n) then ret true
              else isElementHidden_from fuel' (parentElement (d n))
          else isElementHidden_from fuel' (parentElement (d n))
      end
  end.

Definition isElementHidden (fuel : nat) (target : node) : M bool :=
  isElementHidden_from fuel (Some target).

Definition computeInputElementRole (el : node) : option string :=
  let t := type (d el) in
  if has ["button"; "submit"; "reset"; "image"] t then Some "button"
  else if has ["checkbox"; "radio"] t then Some t
  else Some "textbox".

Definition isElement (n : node) : bool := nodeType (d n) =? ELEMENT_NODE.

Fixpoint asText (fuel : nat) (n : node) : M string :=
  match fuel with
  | 0 => outOfFuel
  | S fuel' =>
      if nodeType (d n) =? TEXT_NODE then ret (default "" (nodeValue (d n)))
      else if negb (isElement n) then ret ""
      else
        let* hidden := isElementHidden fuel' n in
        if hidden then ret ""
        else if String.eqb (tagName (d n)) "IMG" then ret (alt (d n))
        else if String.eqb (tagName (d n)) "INPUT" then
          if has ["button"; "submit"; "reset"] (type (d n))
          then ret (value (d n))
          else if String.eqb (type (d n)) "image" then ret (alt (d n))
          else ret ""
        else if isHTMLSlotElement (d n)
                && (0 <? length (assignedNodes (d n)))
        then let* texts := mapM (asText fuel') (assignedNodes (d n)) in
             ret (normalize texts)
        else
          match shadowdomMap w !! n with
          | Some shadowRoot =>
              let* texts := mapM (asText fuel') (childNodes (d shadowRoot)) in
              ret (normalize texts)
          | None =>
              let* texts := mapM (asText fuel') (childNodes (d n)) in
              ret (normalize texts)
          end
  end.

Definition associatedLabelText (fuel : nat) (el : node) : M (option string) :=
  match ownerDocument (d el) with
  | None => ret None
  | Some doc =>
      let fromLabels : M (option string) :=
        match labels (d el) with
        | Some ls =>
            let* texts := mapM (asText fuel) ls in
            let text := normalize texts in
            if truthy text then ret (Some text) else ret None
        | None => ret None
        end in
      if truthy (id (d el)) then
        let* texts :=
          mapM (asText fuel) (querySelectorAll_labelFor d doc (id (d el))) in
        let text := normalize texts in
        if truthy text then ret (Some text) else fromLabels
      else fromLabels
  end.

Definition resolveIdRefs (doc : node) (ids : string) : list node :=
  omap (getElementById d doc)
    (List.filter truthy (splitWhiteSpace (trim ids))).

Definition getLabelledByElementsByAttribute (el : node) : list node :=
  match getAttribute d el "aria-labelledby", ownerDocument (d el) with
  | Some labelledByAttr, Some doc =>
      if truthy labelledByAttr then resolveIdRefs doc labelledByAttr else []
  | _, _ => []
  end.

(** The element list of step 1: the internals' elements, else the
    attribute's. *)
Definition labelledByElementsOf (el : node) : list node :=
  match internalsMap w !! el ≫= ariaLabelledByElements with
  | Some els => els
  | None => getLabelledByElementsByAttribute el
  end.

Definition cacheAndReturn (cache : gmap node string) (visited : gset node)
    (el : node) (text : string) : M (string * NameState) :=
  ret (text, (<[el := text]> cache, visited)).

(** [Array.from(refs, f)] where every call of [f] works on the one cache
    and visited set it shares with the others. *)
Fixpoint mapRefs (f : node -> NameState -> M (string * NameState))
    (refs : list node) (st : NameState) : M (list string * NameState) :=
  match refs with
  | [] => ret ([], st)
  | ref :: refs' =>
      let* '(text, st') := f ref st in
      let* '(texts, st'') := mapRefs f refs' st' in
      ret (text :: texts, st'')
  end.

(** [computeElementRole], over the name computation it calls for a
    [SECTION]. *)
Definition computeElementRole_with
    (computeName : node -> ComputeAccessibleNamesOptions -> M (string * NameState))
    (el : node) : M (option string) :=
  let explicit := getAttribute d el "role" in
  if truthyOpt explicit then ret explicit
  else
    let tag := tagName (d el) in
    match assoc tag tagRoles with
    | Some r => ret (Some r)
    | None =>
        if String.eqb tag "INPUT" then ret (computeInputElementRole el)
        else if String.eqb tag "SECTION" then
          let* '(name, _) :=
            computeName el {| knownRole := Some "region"; cache := None;
                              visited := None;
                              allowNameFromContent := Some false |} in
          ret (Some (if truthy name then "region" else "generic"))
        else if String.eqb tag "SELECT" then
          ret (Some (if multiple (d el) then "listbox" else "combobox"))
        else if String.eqb tag "A" then
          ret (if hasAttribute d el "href" then Some "link" else None)
        else
          match internalsMap w !! el ≫= role with
          | Some r => if truthy r then ret (Some r) else ret None
          | None => ret None
          end
    end.

Fixpoint computeAccessibleName (fuel : nat) (el : node)
    (opts : ComputeAccessibleNamesOptions) : M (string * NameState) :=
  match fuel with
  | 0 => outOfFuel
  | S fuel' =>
      let cache0 := default ∅ (cache opts) in
      let visited0 := default ∅ (visited opts) in
      match cache0 !! el with
      | Some cached =>
          ret (if truthy cached then cached else "", (cache0, visited0))
      | None =>
      if bool_decide (el ∈ visited0) then ret ("", (cache0, visited0))
      else
        let visited1 := {[el]} ∪ visited0 in
        let internals := internalsMap w !! el in
        let labelledByElements := labelledByElementsOf el in
        let* '(texts, (cache1, visited2)) :=
          mapRefs
            (fun ref st =>
               computeAccessibleName fuel' ref
                 {| knownRole := knownRole opts; cache := Some (fst st);
                    visited := Some (snd st);
                    allowNameFromContent := Some true |})
            labelledByElements (cache0, visited1) in
        let text := normalize texts in
        if (0 <? length labelledByElements) && truthy text
        then cacheAndReturn cache1 visited2 el text
        else
        let ariaLabelText :=
          match getAttribute d el "aria-label" with
          | Some a => a
          | None => default "" (internals ≫= ariaLabel)
          end in
        if truthy (trim ariaLabelText)
        then cacheAndReturn cache1 visited2 el (normalize [ariaLabelText])
        else
        let* assoc := associatedLabelText fuel' el in
        if truthyOpt assoc
        then cacheAndReturn cache1 visited2 el (default "" assoc)
        else if String.eqb (tagName (d el)) "IMG" && truthy (alt (d el))
        then cacheAndReturn cache1 visited2 el (normalize [alt (d el)])
        else if String.eqb (tagName (d el)) "INPUT"
                && String.eqb (type (d el)) "image" && truthy (alt (d el))
        then cacheAndReturn cache1 visited2 el (normalize [alt (d el)])
        else if String.eqb (tagName (d el)) "INPUT"
                && has ["button"; "submit"; "reset"] (type (d el))
                && negb (String.eqb (type (d el)) "image")
                && truthy (value (d el))
        then cacheAndReturn cache1 visited2 el (normalize [value (d el)])
        else if isHTMLElement (d el) && truthy (title (d el))
        then cacheAndReturn cache1 visited2 el (normalize [title (d el)])
        else
        let* role :=
          match knownRole opts with
          | Some r => ret (Some r)
          | None =>
              computeElementRole_with (computeAccessibleName fuel') el
          end in
        let fallback : M (string * NameState) :=
          let* text := asText fuel' el in
          cacheAndReturn cache1 visited2 el (if truthy text then text else "") in
        if negb (bool_decide (allowNameFromContent opts = Some false))
           && truthyOpt role
           && has rolesAllowingNameFromContent (default "" role)
        then
          let* text := asText fuel' el in
          if truthy text then cacheAndReturn cache1 visited2 el text
          else fallback
        else fallback
      end
  end.

Definition computeElementRole (fuel : nat) (el : node) : M (option string) :=
  computeElementRole_with (computeAccessibleName fuel) el.

Definition matchesNameFilter (fuel : nat) (element : node)
    (nameFilter : option string) (exact : option bool) : M bool :=
  if truthyOpt nameFilter then
    let* accessibleRole := computeElementRole fuel element in
    let* '(accessibleName, _) :=
      computeAccessibleName fuel element
        {| knownRole := accessibleRole; cache := None; visited := None;
           allowNameFromContent := None |} in
    if truthy accessibleName then
      if bool_decide (exact = Some true)
      then ret (bool_decide (accessibleName = default "" nameFilter))
      else ret (includes (toLowerCase accessibleName)
                         (toLowerCase (default "" nameFilter)))
    else ret false
  else ret false.

Definition isSelectorRoot (n : node) : bool :=
  (nodeType (d n) =? 1) || (nodeType (d n) =? 9) || (nodeType (d n) =? 11).

Definition getOwnerDocument (root : node) : node :=
  if nodeType (d root) =? DOCUMENT_NODE then root
  else default document (ownerDocument (d root)).

(** The generator [getElements], run by a [for ... of] loop: [yield] is the
    body of that loop, [A] what the body carries from one round to the
    next, [R] what it returns with.  The visited set is the one object all
    the nested generators share. *)
Fixpoint getElements {A R} (fuel : nat) (yield : node -> A -> M (Loop A R))
    (n : node) (doc : node) (st : gset node * A)
    : M (Loop (gset node * A) R) :=
  match fuel with
  | 0 => outOfFuel
  | S fuel' =>
      let '(visited0, acc) := st in
      if bool_decide (n ∈ visited0) then ret (Continue st)
      else
        let visited1 := {[n]} ∪ visited0 in
        let isElement := instanceofElement d n in
        let* isHidden :=
          if isElement then isElementHidden fuel' n else ret false in
        let children (st1 : gset node * A) : M (Loop (gset node * A) R) :=
          if isSelectorRoot n && (negb isElement || negb isHidden)
          then forEach (fun child => getElements fuel' yield child doc)
                       (childNodes (d n)) st1
          else ret (Continue st1) in
        if isElement && negb isHidden then
          let* r := yield n acc in
          match r with
          | Return v => ret (Return v)
          | Continue acc1 =>
              if isHTMLSlotElement (d n)
                 && (0 <? length (assignedElements (d n)))
              then forEach
                     (fun assigned => getElements fuel' yield assigned doc)
                     (assignedElements (d n)) (visited1, acc1)
              else
                match shadowdomMap w !! n with
                | Some shadowRoot =>
                    getElements fuel' yield shadowRoot doc (visited1, acc1)
                | None => children (visited1, acc1)
                end
          end
        else children (visited1, acc)
  end.

(** The test the loops of [query] and [queryAll] apply to a yielded element,
    the same statements in both: [false] where the script says [continue],
    [true] where it goes on to return or push the element. *)
Definition matches (fuel : nat) (role : string) (name : option string)
    (exact : option bool) (element : node) : M bool :=
  let* elementRole := computeElementRole fuel element in
  if negb (bool_decide (elementRole = Some role)) then ret false
  else if truthyOpt name then matchesNameFilter fuel element name exact
  else ret true.

Definition query (fuel : nat) (root : node) (selector : string)
    : M (option node) :=
  match parse selector with
  | None => throw
  | Some p =>
      let role := ParsedOptions.role p in
      let name := ParsedOptions.name p in
      let exact := ParsedOptions.exact p in
      if negb (truthyOpt role) then ret None
      else
        let* r :=
          getElements fuel
            (fun element (_ : unit) =>
               let* ok := matches fuel (default "" role) name exact element in
               if ok then ret (Return element) else ret (Continue tt))
            root (getOwnerDocument root) (∅, tt) in
        match r with
        | Return element => ret (Some element)
        | Continue _ => ret None
        end
  end.

Definition queryAll (fuel : nat) (root : node) (selector : string)
    : M (list node) :=
  match parse selector with
  | None => throw
  | Some p =>
      let role := ParsedOptions.role p in
      let name := ParsedOptions.name p in
      let exact := ParsedOptions.exact p in
      if negb (truthyOpt role) then ret []
      else
        let* r :=
          getElements (R := Empty_set) fuel
            (fun element (results : list node) =>
               let* ok := matches fuel (default "" role) name exact element in
               if ok then ret (Continue (results ++ [element]))
               else ret (Continue results))
            root (getOwnerDocument root) (∅, []) in
        match r with
        | Return v => match v with end
        | Continue (_, results) => ret results
        end
  end.

End Engine.

(** ** [getByComputedRole] and the payload it serialises *)

Module Json.

(** The values the payload object holds. *)
Inductive value : Type :=
| str (s : string)
| boolean (b : bool).

Definition dquote : ascii := "034"%char.
Definition backslash : ascii := "092"%char.

Definition hexDigit (n : nat) : ascii :=
  nth n (list_ascii_of_string "0123456789abcdef") "0"%char.

(** One code unit inside a JSON string literal. *)
Definition quoteChar (a : ascii) : string :=
  let n := nat_of_ascii a in
  if n =? 34 then String backslash (String dquote "")
  else if n =? 92 then String backslash (String backslash "")
  else if n =? 8 then String backslash "b"
  else if n =? 9 then String backslash "t"
  else if n =? 10 then String backslash "n"
  else if n =? 12 then String backslash "f"
  else if n =? 13 then String backslash "r"
  else if n <? 32
  then String backslash
         ("u00" +:+ String (hexDigit (n / 16))
                      (String (hexDigit (n mod 16)) ""))
  else String a "".

Fixpoint quoteBody (s : string) : string :=
  match s with
  | EmptyString => EmptyString
  | String a s' => quoteChar a +:+ quoteBody s'
  end.

Definition quote (s : string) : string :=
  String dquote (quoteBody s +:+ String dquote "").

Definition stringifyValue (v : value) : string :=
  match v with
  | str s => quote s
  | boolean true => "true"
  | boolean false => "false"
  end.

(** [JSON.stringify] of an object literal: the properties in the order
    they are written, those whose value is [undefined] left out. *)
Definition stringify (props : list (string * option value)) : string :=
  "{"
  +:+ String.concat ","
        (omap (fun kv : string * option value =>
                 (fun v => quote (fst kv) +:+ ":" +:+ stringifyValue v)
                   <$> snd kv)
              props)
  +:+ "}".

End Json.

(** The selector [getByComputedRole] hands to [this.locator]. *)
Definition getByComputedRole (role : string) (options : option Options.t)
    : string :=
  let name := options ≫= Options.name in
  let description := options ≫= Options.description in
  let exact := options ≫= Options.exact in
  let payload :=
    Json.stringify
      [ ("role", Some (Json.str role));
        ("name", if truthyOpt name then Json.str <$> name else None);
        ("description",
          if truthyOpt description then Json.str <$> description else None);
        ("exact",
          if bool_decide (exact = Some true) then Json.boolean <$> exact
          else None) ] in
  "computed-aria=" +:+ payload.

(** ** Documents given as tables *)

(** A node that belongs to no document. *)
Definition detached : NodeData :=
  {| nodeType := 8; parentElement := None; childNodes := [];
     ownerDocument := None; nodeValue := None; tagName := "";
     attributes := []; isHTMLElement := false; inert := false; title := "";
     id := ""; isHTMLSlotElement := false; assignedNodes := [];
     assignedElements := []; style_display := ""; style_visibility := "";
     type := ""; value := ""; alt := ""; multiple := false; labels := None |}.

(** The tags of the labelable elements, which have a [labels] list. *)
Definition labelable : list string :=
  [ "BUTTON"; "INPUT"; "METER"; "OUTPUT"; "PROGRESS"; "SELECT"; "TEXTAREA" ].

(** An HTML element of the document [0], its reflected properties read from
    its attributes; it is wrapped by no label. *)
Definition element (tag : string) (attrs : list (string * string))
    (parent : option node) (children : list node) : NodeData :=
  {| nodeType := ELEMENT_NODE; parentElement := parent; childNodes := children;
     ownerDocument := Some 0; nodeValue := None; tagName := tag;
     attributes := attrs; isHTMLElement := true;
     inert := bool_decide (is_Some (assoc "inert" attrs));
     title := default "" (assoc "title" attrs);
     id := default "" (assoc "id" attrs);
     isHTMLSlotElement := false; assignedNodes := []; assignedElements := [];
     style_display := "block"; style_visibility := "visible";
     type := default "" (assoc "type" attrs);
     value := default "" (assoc "value" attrs);
     alt := default "" (assoc "alt" attrs);
     multiple := false;
     labels := if has labelable tag then Some [] else None |}.

(** A [slot] element with the nodes and elements assigned to it. *)
Definition slotElement (parent : option node) (children : list node)
    (assigned assignedEls : list node) : NodeData :=
  {| nodeType := ELEMENT_NODE; parentElement := parent; childNodes := children;
     ownerDocument := Some 0; nodeValue := None; tagName := "SLOT";
     attributes := []; isHTMLElement := true; inert := false; title := "";
     id := ""; isHTMLSlotElement := true; assignedNodes := assigned;
     assignedElements := assignedEls; style_display := "contents";
     style_visibility := "visible"; type := ""; value := ""; alt := "";
     multiple := false; labels := None |}.

Definition textNode (data : string) : NodeData :=
  {| nodeType := TEXT_NODE; parentElement := None; childNodes := [];
     ownerDocument := Some 0; nodeValue := Some data; tagName := "";
     attributes := []; isHTMLElement := false; inert := false; title := "";
     id := ""; isHTMLSlotElement := false; assignedNodes := [];
     assignedElements := []; style_display := ""; style_visibility := "";
     type := ""; value := ""; alt := ""; multiple := false; labels := None |}.

Definition documentNode (children : list node) : NodeData :=
  {| nodeType := DOCUMENT_NODE; parentElement := None; childNodes := children;
     ownerDocument := None; nodeValue := None; tagName := "";
     attributes := []; isHTMLElement := false; inert := false; title := "";
     id := ""; isHTMLSlotElement := false; assignedNodes := [];
     assignedElements := []; style_display := ""; style_visibility := "";
     type := ""; value := ""; alt := ""; multiple := false; labels := None |}.

Definition shadowRootNode (children : list node) : NodeData :=
  {| nodeType := DOCUMENT_FRAGMENT_NODE; parentElement := None;
     childNodes := children; ownerDocument := Some 0; nodeValue := None;
     tagName := ""; attributes := []; isHTMLElement := false; inert := false;
     title := ""; id := ""; isHTMLSlotElement := false; assignedNodes := [];
     assignedElements := []; style_display := ""; style_visibility := "";
     type := ""; value := ""; alt := ""; multiple := false; labels := None |}.

Fixpoint findIndex (p : NodeData -> bool) (nodes : list NodeData) (i : nat)
    : option node :=
  match nodes with
  | [] => None
  | x :: rest => if p x then Some i else findIndex p rest (S i)
  end.

Fixpoint findAll (p : NodeData -> bool) (nodes : list NodeData) (i : nat)
    : list node :=
  match nodes with
  | [] => []
  | x :: rest =>
      if p x then i :: findAll p rest (S i) else findAll p rest (S i)
  end.

(** The document whose node [n] is the [n]-th entry of the table; the two
    document lookups search the table in order. *)
Definition tableDom (nodes : list NodeData) : Dom :=
  {| node_data := fun n => nth n nodes detached;
     getElementById := fun _ i =>
       findIndex (fun x => (nodeType x =? ELEMENT_NODE)
                           && bool_decide (assoc "id" (attributes x) = Some i))
                 nodes 0;
     querySelectorAll_labelFor := fun _ i =>
       findAll (fun x => (nodeType x =? ELEMENT_NODE)
                         && String.eqb (tagName x) "LABEL"
                         && bool_decide (assoc "for" (attributes x) = Some i))
               nodes 0 |}.

(** A [JSON.parse] that knows the listed selectors and throws on the rest. *)
Fixpoint parseTable (table : list (string * ParsedOptions.t))
    (selector : string) : option ParsedOptions.t :=
  match table with
  | [] => None
  | (s, p) :: rest =>
      if String.eqb s selector then Some p else parseTable rest selector
  end.

Definition payload (role name : option string) (exact : option bool)
    : ParsedOptions.t :=
  {| ParsedOptions.role := role; ParsedOptions.name := name;
     ParsedOptions.description := None; ParsedOptions.exact := exact |}.

Definition noOptions : ComputeAccessibleNamesOptions :=
  {| knownRole := None; cache := None; visited := None;
     allowNameFromContent := None |}.

(** *** Example documents *)

(** [<body><div hidden><button>Save</button></div><button>Send</button></body>] *)
Definition hiddenDoc : Dom :=
  tableDom
    [ documentNode [1];
      element "BODY" [] None [2; 5];
      element "DIV" [("hidden", "")] (Some 1) [3];
      element "BUTTON" [] (Some 2) [4];
      textNode "Save";
      element "BUTTON" [] (Some 1) [6];
      textNode "Send" ].

(** [<body><button role="banner">x</button></body>], the button with
    internals whose role is [slider]. *)
Definition roleDoc : Dom :=
  tableDom
    [ documentNode [1];
      element "BODY" [] None [2];
      element "BUTTON" [("role", "banner")] (Some 1) [3];
      textNode "x" ].

Definition roleMaps : WeakMaps :=
  attachInternals 2
    {| role := Some "slider"; ariaLabel := None;
       ariaLabelledByElements := None |}
    scriptForInit.

(** A host [x-card] (node 2) whose shadow root (node 3) holds a [slot]
    (node 4); the host's light child, a button (node 5), is assigned to the
    slot. *)
Definition slottedDoc : Dom :=
  tableDom
    [ documentNode [1];
      element "BODY" [] None [2];
      element "X-CARD" [] (Some 1) [5];
      shadowRootNode [4];
      slotElement None [] [5] [5];
      element "BUTTON" [] (Some 2) [6];
      textNode "Click" ].

Definition slottedMaps : WeakMaps := attachShadow 2 3 scriptForInit.

(** Two elements that name each other:
    [<div id="a" aria-labelledby="b">Alpha</div>
     <div id="b" aria-labelledby="a">Beta</div>] *)
Definition mutualDoc : Dom :=
  tableDom
    [ documentNode [1];
      element "BODY" [] None [2; 4];
      element "DIV" [("id", "a"); ("aria-labelledby", "b")] (Some 1) [3];
      textNode "Alpha";
      element "DIV" [("id", "b"); ("aria-labelledby", "a")] (Some 1) [5];
      textNode "Beta" ].

(** [<x-field aria-label="From attribute"></x-field>] whose internals carry
    [ariaLabel = "From internals"]. *)
Definition labelDoc : Dom :=
  tableDom
    [ documentNode [1];
      element "BODY" [] None [2];
      element "X-FIELD" [("aria-label", "From attribute")] (Some 1) [] ].

Definition labelMaps : WeakMaps :=
  attachInternals 2
    {| role := Some "textbox"; ariaLabel := Some "From internals";
       ariaLabelledByElements := None |}
    scriptForInit.

(** [<body><button></button><button>Go</button></body>] *)
Definition buttonsDoc : Dom :=
  tableDom
    [ documentNode [1];
      element "BODY" [] None [2; 3];
      element "BUTTON" [] (Some 1) [];
      element "BUTTON" [] (Some 1) [4];
      textNode "Go" ].

Definition buttonsParse : string -> option ParsedOptions.t :=
  parseTable
    [ ("empty-name", payload (Some "button") (Some "") None);
      ("go", payload (Some "button") (Some "go") None);
      ("button", payload (Some "button") None None);
      ("button-described",
        {| ParsedOptions.role := Some "button"; ParsedOptions.name := None;
           ParsedOptions.description := Some "anything";
           ParsedOptions.exact := None |});
      ("no-role", payload None (Some "go") None);
      ("empty-role", payload (Some "") None None) ].

(** ** Notions the statements use *)

(** Every cached style object is the one of its own element: what
    [computedStyleCache.set(node, getComputedStyle(node))] establishes. *)
Definition cache_ok (c : StyleCache) : Prop :=
  forall n h, c !! n = Some h -> h = n.

(** The caches an engine can hold: the empty one it is created with, and
    the one any [query] or [queryAll] leaves, on whatever document and
    tracker the call ran. *)
Inductive reachable : StyleCache -> Prop :=
| reachable_new : reachable ∅
| reachable_query d w parse document fuel root selector c r c' :
    reachable c ->
    query d w parse document fuel root selector c = Ok (r, c') ->
    reachable c'
| reachable_queryAll d w parse document fuel root selector c r c' :
    reachable c ->
    queryAll d w parse document fuel root selector c = Ok (r, c') ->
    reachable c'.

(** [a] is [n] or one of its ancestors along [parentElement]. *)
Inductive ancestorOrSelf (d : Dom) : node -> node -> Prop :=
| ancestor_self n : ancestorOrSelf d n n
| ancestor_parent n p a :
    parentElement (d n) = Some p -> ancestorOrSelf d p a ->
    ancestorOrSelf d n a.

(** The five ways an element hides itself and its descendants. *)
Inductive hiddenBy (d : Dom) (a : node) : Prop :=
| hidden_attribute : hasAttribute d a "hidden" = true -> hiddenBy d a
| hidden_aria : getAttribute d a "aria-hidden" = Some "true" -> hiddenBy d a
| hidden_display : style_display (d a) = "none" -> hiddenBy d a
| hidden_visibility : style_visibility (d a) = "hidden" -> hiddenBy d a
| hidden_inert :
    isHTMLElement (d a) = true -> inert (d a) = true -> hiddenBy d a.

(** [n] is an element hidden by itself or by an ancestor. *)
Definition hiddenElement (d : Dom) (n : node) : Prop :=
  exists a, ancestorOrSelf d n a
            /\ instanceofElement d a = true /\ hiddenBy d a.

(** The accessible name as [matchesNameFilter] computes it. *)
Definition accessibleNameOf (d : Dom) (w : WeakMaps) (fuel : nat)
    (element : node) : M string :=
  let* accessibleRole := computeElementRole d w fuel element in
  let* '(accessibleName, _) :=
    computeAccessibleName d w fuel element
      {| knownRole := accessibleRole; cache := None; visited := None;
         allowNameFromContent := None |} in
  ret accessibleName.

(** The value a computation returns, when it returns. *)
Definition returned {A} (r : result (A * StyleCache)) : option A :=
  match r with Ok (a, _) => Some a | _ => None end.

(** The style cache a computation leaves, when it returns. *)
Definition cacheAfter {A} (r : result (A * StyleCache)) : option StyleCache :=
  match r with Ok (_, c) => Some c | _ => None end.

(** [m2] returns whatever [m1] returns, from any two well-kept caches, and
    both leave the cache well kept. *)
Definition sim {A} (m1 m2 : M A) : Prop :=
  forall c1 c2 a c1',
    cache_ok c1 -> cache_ok c2 -> m1 c1 = Ok (a, c1') ->
    cache_ok c1' /\ exists c2', m2 c2 = Ok (a, c2') /\ cache_ok c2'.

(** From a well-kept cache, whatever [m] returns satisfies [Post], and the
    cache stays well kept. *)
Definition triple {A} (m : M A) (Post : A -> Prop) : Prop :=
  forall c a c',
    cache_ok c -> m c = Ok (a, c') -> cache_ok c' /\ Post a.

(** Some run of [isElementHidden] answered [false] for [x]. *)
Definition visible (d : Dom) (x : node) : Prop :=
  exists fuel c c',
    cache_ok c /\ isElementHidden d fuel x c = Ok (false, c').

(** The test one round of [isElementHidden] applies to an element. *)
Definition hiddenHere (d : Dom) (n : node) : bool :=
  hasAttribute d n "hidden"
  || bool_decide (getAttribute d n "aria-hidden" = Some "true")
  || String.eqb (style_display (d n)) "none"
  || String.eqb (style_visibility (d n)) "hidden"
  || (isHTMLElement (d n) && inert (d n)).

Definition loopPost {S R} (Inv : S -> Prop) (Q : R -> Prop) (r : Loop S R)
    : Prop :=
  match r with
  | Continue s => Inv s
  | Return v => Q v
  end.

(** Two computations that behave alike from every cache. *)
Definition eqM {A} (m1 m2 : M A) : Prop := forall c, m1 c = m2 c.

(** [m] returns from every cache, with a value that satisfies [Post]. *)
Definition returns {A} (m : M A) (Post : A -> Prop) : Prop :=
  forall c, exists a c', m c = Ok (a, c') /\ Post a.

(** The nodes whose text [asText] joins for an element it descends into. *)
Definition textChildren (d : Dom) (w : WeakMaps) (n : node) : list node :=
  if isHTMLSlotElement (d n) && (0 <? length (assignedNodes (d n)))
  then assignedNodes (d n)
  else
    match shadowdomMap w !! n with
    | Some shadowRoot => childNodes (d shadowRoot)
    | None => childNodes (d n)
    end.

(** A document is a finite tree: parents are finitely far up ([depth]), the
    nodes text extraction descends into are finitely far down ([rank]), and
    the elements that name other elements lie below a bound.  The elements
    may name each other in any way. *)
Definition wellFormed (d : Dom) (w : WeakMaps) : Prop :=
  exists (depth rank : node -> nat) (D R N : nat),
    (forall n p, parentElement (d n) = Some p -> depth p < depth n)
    /\ (forall n, depth n <= D)
    /\ (forall n x, In x (textChildren d w n) -> rank x < rank n)
    /\ (forall n, rank n <= R)
    /\ (forall el ref, In ref (labelledByElementsOf d w el) -> ref < N).

(** The elements below [N] a name computation has not visited yet. *)
Definition unvisited (N : nat) (visited : gset node) : nat :=
  size (set_seq 0 N ∖ visited : gset node).

(** The nodes the traversal can go to from [n]. *)
Definition traversalChildren (d : Dom) (w : WeakMaps) (n : node) : list node :=
  childNodes (d n) ++ assignedElements (d n)
  ++ match shadowdomMap w !! n with
     | Some shadowRoot => [shadowRoot]
     | None => []
     end.

(** The nodes a traversal can reach lie below a bound. *)
Definition traversable (d : Dom) (w : WeakMaps) : Prop :=
  exists N, forall n x, In x (traversalChildren d w n) -> x < N.

(** ** Notions of the further properties *)

(** A string is normalized when white space occurs in it only as single
    spaces, each between two other characters.  [afterSpace] tells that the
    previous character was a space, or that the string starts here. *)
Fixpoint normalized_from (afterSpace : bool) (s : string) : bool :=
  match s with
  | EmptyString => negb afterSpace
  | String a s' =>
      if isWhiteSpace a
      then negb afterSpace && Ascii.eqb a " " && normalized_from true s'
      else normalized_from false s'
  end.

Definition normalized (s : string) : bool :=
  String.eqb s "" || normalized_from true s.

(** The first and the last character of a string are not white space. *)
Definition startsClean (s : string) : bool :=
  match s with
  | EmptyString => true
  | String a _ => negb (isWhiteSpace a)
  end.

Fixpoint endsClean (s : string) : bool :=
  match s with
  | EmptyString => true
  | String a s' =>
      match s' with
      | EmptyString => negb (isWhiteSpace a)
      | String _ _ => endsClean s'
      end
  end.

(** Whatever [m] returns satisfies [Post]. *)
Definition post {A} (m : M A) (Post : A -> Prop) : Prop :=
  forall c a c', m c = Ok (a, c') -> Post a.

(** Two texts joined by one space, an empty one left out. *)
Definition glue (a b : string) : string :=
  if String.eqb a "" then b
  else if String.eqb b "" then a
  else a +:+ " " +:+ b.

(** The pieces [normalize] joins: each string trimmed and collapsed, the
    empty ones dropped. *)
Definition pieces (strings : list string) : list string :=
  List.filter truthy (map (fun s => collapseWhiteSpace (trim s)) strings).

(** What [asText] returns for an element: a normalized text, or the [alt]
    or [value] of an image or of a button input as it stands. *)
Definition textShape (d : Dom) (n : node) (t : string) : Prop :=
  normalized t = true
  \/ (String.eqb (tagName (d n)) "IMG" = true /\ t = alt (d n))
  \/ (String.eqb (tagName (d n)) "INPUT" = true
      /\ has ["button"; "submit"; "reset"] (type (d n)) = true
      /\ t = value (d n))
  \/ (String.eqb (tagName (d n)) "INPUT" = true
      /\ String.eqb (type (d n)) "image" = true /\ t = alt (d n)).

(** [<body><button>  Save   the  file </button></body>] *)
Definition spacedDoc : Dom :=
  tableDom
    [ documentNode [1];
      element "BODY" [] None [2];
      element "BUTTON" [] (Some 1) [3];
      textNode "  Save   the  file " ].

Definition spacedParse : string -> option ParsedOptions.t :=
  parseTable
    [ ("exact", payload (Some "button") (Some "Save the file") (Some true));
      ("exact-spaced",
        payload (Some "button") (Some "Save   the  file") (Some true));
      ("exact-case", payload (Some "button") (Some "save the file") (Some true));
      ("loose", payload (Some "button") (Some "THE file") None);
      ("loose-lower", payload (Some "button") (Some "the file") (Some false));
      ("named", payload (Some "button") (Some "Save the file") None);
      ("button", payload (Some "button") None None) ].

(** Some run of [computeElementRole] gave [x] the role [r]. *)
Definition computedRoleIs (d : Dom) (w : WeakMaps) (fuel : nat) (x : node)
    (r : string) : Prop :=
  exists c c',
    cache_ok c /\ computeElementRole d w fuel x c = Ok (Some r, c').

(** Where there is a name filter, some run of [matchesNameFilter] accepted
    [x]. *)
Definition nameAccepted (d : Dom) (w : WeakMaps) (fuel : nat) (x : node)
    (name : option string) (exact : option bool) : Prop :=
  truthyOpt name = true ->
  exists c c',
    cache_ok c /\ matchesNameFilter d w fuel x name exact c = Ok (true, c').

(** What [query] and [queryAll] promise of an element they return. *)
Definition accepted (d : Dom) (w : WeakMaps) (fuel : nat)
    (p : ParsedOptions.t) (x : node) : Prop :=
  instanceofElement d x = true
  /\ ~ hiddenElement d x
  /\ truthyOpt (ParsedOptions.role p) = true
  /\ computedRoleIs d w fuel x (default "" (ParsedOptions.role p))
  /\ nameAccepted d w fuel x (ParsedOptions.name p) (ParsedOptions.exact p).

(** [m2] returns whenever [m1] does, from any two well-kept caches, with a
    value that [Post] relates to the one of [m1]; both leave the cache well
    kept. *)
Definition simR {A B} (m1 : M A) (m2 : M B) (Post : A -> B -> Prop) : Prop :=
  forall c1 c2 a c1',
    cache_ok c1 -> cache_ok c2 -> m1 c1 = Ok (a, c1') ->
    cache_ok c1'
    /\ exists b c2', m2 c2 = Ok (b, c2') /\ cache_ok c2' /\ Post a b.

(** Two loops side by side, the first of which runs to the end: both go on,
    in states [Inv] relates, or the second has left with a value [Q] relates
    to the state of the first. *)
Definition loopRel {S1 S2 R2} (Inv : S1 -> S2 -> Prop) (Q : S1 -> R2 -> Prop)
    (r1 : Loop S1 Empty_set) (r2 : Loop S2 R2) : Prop :=
  match r1, r2 with
  | Continue s1, Continue s2 => Inv s1 s2
  | Continue s1, Return e => Q s1 e
  | Return v, _ => False
  end.

(** The payload [p1] asks for what [p2] asks for and more: the same role,
    and a name where [p2] has none, or the same name taken exactly. *)
Definition narrower (p1 p2 : ParsedOptions.t) : Prop :=
  ParsedOptions.role p1 = ParsedOptions.role p2
  /\ (truthyOpt (ParsedOptions.name p2) = false
      \/ (ParsedOptions.name p1 = ParsedOptions.name p2
          /\ ParsedOptions.exact p1 = Some true)).

(** Whatever [m1] and [m2] return, from any two well-kept caches, is the
    same value, and both leave the cache well kept. *)
Definition agree {A} (m1 m2 : M A) : Prop :=
  forall c1 c2 a1 a2 c1' c2',
    cache_ok c1 -> cache_ok c2 ->
    m1 c1 = Ok (a1, c1') -> m2 c2 = Ok (a2, c2') ->
    cache_ok c1' /\ cache_ok c2' /\ a1 = a2.

(** Step 5 of [computeAccessibleName]: the text of the element, cached. *)
Definition nameFromText (d : Dom) (w : WeakMaps) (fuel : nat) (el : node)
    (cache1 : gmap node string) (visited2 : gset node)
    : M (string * NameState) :=
  let* text := asText d w fuel el in
  cacheAndReturn cache1 visited2 el (if truthy text then text else "").

(** [<body><section>Intro</section><section></section></body>] *)
Definition sectionDoc : Dom :=
  tableDom
    [ documentNode [1];
      element "BODY" [] None [2; 4];
      element "SECTION" [] (Some 1) [3];
      textNode "Intro";
      element "SECTION" [] (Some 1) [] ].

Definition sectionParse : string -> option ParsedOptions.t :=
  parseTable
    [ ("region", payload (Some "region") None None);
      ("generic", payload (Some "generic") None None) ].

(** The options [computeElementRole] computes the name of a [SECTION]
    with. *)
Definition sectionOptions : ComputeAccessibleNamesOptions :=
  {| knownRole := Some "region"; cache := None; visited := None;
     allowNameFromContent := Some false |}.

(** The tags [computeElementRole] gives no role of its own, so that it
    asks the tracker. *)
Definition customTag (tag : string) : bool :=
  negb (bool_decide (is_Some (assoc tag tagRoles)))
  && negb (has ["INPUT"; "SECTION"; "SELECT"; "A"] tag).

(** The role an [ElementInternals] object gives, when it is a non-empty
    string. *)
Definition internalsRole (internals : ElementInternals) : option string :=
  match role internals with
  | Some r => if truthy r then Some r else None
  | None => None
  end.

(** ** What [JSON.parse] hands to the destructuring *)

(** The value [JSON.parse] returns for a selector, as far as
    [const { role, name, exact } = ...] tells values apart: [null], which
    cannot be destructured, or any other value, with the three properties
    the destructuring reads from it (each of the declared type, or
    absent). *)
Inductive JsonPayload : Type :=
| JsonNull
| JsonObject (p : ParsedOptions.t).

(** [JSON.parse] followed by the destructuring: [None] for the
    [SyntaxError] of the one and for the [TypeError] of the other. *)
Definition destructured (jsonParse : string -> option JsonPayload)
    (selector : string) : option ParsedOptions.t :=
  match jsonParse selector with
  | None => None
  | Some JsonNull => None
  | Some (JsonObject p) => Some p
  end.

(** A [JSON.parse] that knows [null] and the selectors of [buttonsParse]. *)
Definition buttonsJson (selector : string) : option JsonPayload :=
  if String.eqb selector "null" then Some JsonNull
  else JsonObject <$> buttonsParse selector.

(** ** A host named by its light child *)

(** [<x-card aria-labelledby="t">] (node 2) with a recorded shadow root
    (node 3) that holds [<p>Shadow</p>] and no slot; the host's light child
    is [<span id="t">Title</span>] (node 5). *)
Definition labelledHostDoc : Dom :=
  tableDom
    [ documentNode [1];
      element "BODY" [] None [2];
      element "X-CARD" [("aria-labelledby", "t")] (Some 1) [5];
      shadowRootNode [4];
      element "P" [] None [7];
      element "SPAN" [("id", "t")] (Some 2) [6];
      textNode "Title";
      textNode "Shadow" ].

Definition labelledHostMaps : WeakMaps := attachShadow 2 3 scriptForInit.


(** ** Prototype chains (playwright-utils) *)

Module Utils.

Definition loc := nat.

Section Objects.

(** The function objects. *)
Variable Method : Type.

(** An object, as [entries] reads it: its prototype ([None] for [null]),
    and what [Object.getOwnPropertyDescriptors] gives for it, the own
    string keys in their order, each with the [value] of its descriptor
    where that is a function ([None] for every other descriptor). *)
Record Obj : Type := {
  getPrototypeOf : option loc;
  getOwnPropertyDescriptors : list (string * option Method);
}.

Record Heap : Type := {
  obj :> loc -> Obj;
  ObjectPrototype : loc;
}.

Variable h : Heap.

(** [descriptors[key]] *)
Fixpoint descriptorOf (key : string) (descriptors : list (string * option Method))
    : option (option Method) :=
  match descriptors with
  | [] => None
  | (k, v) :: rest =>
      if String.eqb k key then Some v else descriptorOf key rest
  end.

(** One round of the inner loop of [entries], on the two sets [seen] and
    [entries]. *)
Definition entries_key (descriptors : list (string * option Method))
    (st : gset string * list (string * Method)) (key : string)
    : gset string * list (string * Method) :=
  let '(seen, entries) := st in
  if String.eqb key "constructor" then st
  else if bool_decide (key ∈ seen) then st
  else
    let seen' := {[key]} ∪ seen in
    match descriptorOf key descriptors with
    | Some (Some value) => (seen', entries ++ [(key, value)])
    | _ => (seen', entries)
    end.

(** The outer loop of [entries], from [proto] on. *)
Fixpoint entries_from (fuel : nat) (proto : option loc)
    (st : gset string * list (string * Method))
    : option (list (string * Method)) :=
  match proto with
  | None => Some (snd st)
  | Some l =>
      if l =? ObjectPrototype h then Some (snd st)
      else
        match fuel with
        | 0 => None
        | S fuel' =>
            let descriptors := getOwnPropertyDescriptors (h l) in
            entries_from fuel' (getPrototypeOf (h l))
              (fold_left (entries_key descriptors) (map fst descriptors) st)
        end
  end.

Definition entries (fuel : nat) (object : loc)
    : option (list (string * Method)) :=
  entries_from fuel (Some object) (∅, []).

(** The objects from [proto] up to [null] or [Object.prototype]. *)
Fixpoint chainFrom (fuel : nat) (proto : option loc) : option (list loc) :=
  match proto with
  | None => Some []
  | Some l =>
      if l =? ObjectPrototype h then Some []
      else
        match fuel with
        | 0 => None
        | S fuel' =>
            match chainFrom fuel' (getPrototypeOf (h l)) with
            | Some chain => Some (l :: chain)
            | None => None
            end
        end
  end.

(** Property lookup along a chain: the descriptor of the nearest object
    that has the property as its own. *)
Definition lookupChain (chain : list loc) (key : string)
    : option (option Method) :=
  descriptorOf key (flat_map (fun l => getOwnPropertyDescriptors (h l)) chain).

(** The methods of a chain: the properties other than [constructor] that
    lookup finds with a function as their value. *)
Definition methodOf (chain : list loc) (key : string) (value : Method)
    : Prop :=
  key <> "constructor" /\ lookupChain chain key = Some (Some value).

(** What the two sets of [entries] hold once the properties [K] have been
    gone through. *)
Definition entriesInv (K : list (string * option Method))
    (st : gset string * list (string * Method)) : Prop :=
  (forall key, key ∈ fst st
               <-> key <> "constructor" /\ is_Some (descriptorOf key K))
  /\ (forall key value,
        In (key, value) (snd st)
        <-> key <> "constructor" /\ descriptorOf key K = Some (Some value))
  /\ NoDup (map fst (snd st)).

End Objects.

Arguments getPrototypeOf {Method} _.
Arguments getOwnPropertyDescriptors {Method} _.
Arguments obj {Method} _ _.
Arguments ObjectPrototype {Method} _.
Arguments descriptorOf {Method} _ _.
Arguments entries_key {Method} _ _ _.
Arguments entries_from {Method} _ _ _ _.
Arguments entries {Method} _ _ _.
Arguments chainFrom {Method} _ _ _.
Arguments lookupChain {Method} _ _ _.
Arguments methodOf {Method} _ _ _ _.
Arguments entriesInv {Method} _ _.

End Utils.

(** A locator object (2) with its class prototype (1) below
    [Object.prototype] (0); functions are numbered. *)
Definition locatorHeap : Utils.Heap nat :=
  {| Utils.obj := fun l =>
       match l with
       | 2 => {| Utils.getPrototypeOf := Some 1;
                 Utils.getOwnPropertyDescriptors :=
                   [("click", Some 7); ("constructor", Some 1);
                    ("first", None)] |}
       | 1 => {| Utils.getPrototypeOf := Some 0;
                 Utils.getOwnPropertyDescriptors :=
                   [("constructor", Some 2); ("click", Some 8);
                    ("first", Some 9); ("fill", Some 10)] |}
       | 0 => {| Utils.getPrototypeOf := None;
                 Utils.getOwnPropertyDescriptors := [("toString", Some 11)] |}
       | _ => {| Utils.getPrototypeOf := None;
                 Utils.getOwnPropertyDescriptors := [] |}
       end;
     Utils.ObjectPrototype := 0 |}.

(** ** The tree the traversal walks *)

(** The nodes [getElements] goes on to from a node it does not stop at:
    the assigned elements of a slot that has some, else the recorded shadow
    root, else the child nodes. *)
Definition flatChildren (d : Dom) (w : WeakMaps) (n : node) : list node :=
  if instanceofElement d n then
    if isHTMLSlotElement (d n) && (0 <? length (assignedElements (d n)))
    then assignedElements (d n)
    else
      match shadowdomMap w !! n with
      | Some shadowRoot => [shadowRoot]
      | None => if isSelectorRoot d n then childNodes (d n) else []
      end
  else if isSelectorRoot d n then childNodes (d n) else [].

(** One step of the traversal: hidden elements are not gone through. *)
Definition flatStep (d : Dom) (w : WeakMaps) (n x : node) : Prop :=
  ~ (instanceofElement d n = true /\ hiddenElement d n)
  /\ In x (flatChildren d w n).

(** The nodes the traversal reaches from [root]. *)
Definition flatReach (d : Dom) (w : WeakMaps) (root x : node) : Prop :=
  rtc (flatStep d w) root x.

(** Some run of the loop's test accepted [x]. *)
Definition matchAccepts (d : Dom) (w : WeakMaps) (fuel : nat)
    (p : ParsedOptions.t) (x : node) : Prop :=
  exists c c',
    cache_ok c
    /\ matches d w fuel (default "" (ParsedOptions.role p))
         (ParsedOptions.name p) (ParsedOptions.exact p) x c = Ok (true, c').

(** What a loop body that collects the [Good] elements does to the list. *)
Definition collects (Good : node -> Prop) (x : node) (acc : list node)
    (r : Loop (list node) Empty_set) : Prop :=
  match r with
  | Return e => False
  | Continue acc1 =>
      (forall z, In z acc -> In z acc1)
      /\ (Good x -> In x acc1)
      /\ (forall z, In z acc1 -> In z acc \/ (z = x /\ Good x))
  end.

(** What a traversal, started on the nodes [l] with the visited set [v] and
    the list [acc], leaves: the nodes of [l] are visited, every node it
    visited has all its steps visited and is reached from [l], and the list
    has grown by the visible [Good] elements it visited. *)
Definition traversed (d : Dom) (w : WeakMaps) (Good : node -> Prop)
    (l : list node) (v : gset node) (acc : list node)
    (r : Loop (gset node * list node) Empty_set) : Prop :=
  match r with
  | Return e => False
  | Continue (v', acc') =>
      v ⊆ v'
      /\ (forall x, In x l -> x ∈ v')
      /\ (forall m x, m ∈ v' -> m ∉ v -> flatStep d w m x -> x ∈ v')
      /\ (forall m, m ∈ v' -> m ∉ v ->
                    exists x, In x l /\ rtc (flatStep d w) x m)
      /\ (forall z, In z acc -> In z acc')
      /\ (forall m, m ∈ v' -> m ∉ v ->
                    instanceofElement d m = true -> ~ hiddenElement d m ->
                    Good m -> In m acc')
      /\ (forall z, In z acc' ->
                    In z acc
                    \/ (z ∈ v' /\ (z ∉ v) /\ instanceofElement d z = true
                        /\ ~ hiddenElement d z /\ Good z))
  end.

(** ** Reading a payload back *)

Module JsonRead.

Import Json.

Definition hexValue (a : ascii) : nat :=
  let n := nat_of_ascii a in
  if (48 <=? n) && (n <=? 57) then n - 48
  else if (97 <=? n) && (n <=? 102) then n - 87
  else 0.

(** The content of a string literal, from after its opening quote to its
    closing quote, and what follows the literal. *)
Fixpoint unquoteBody (s : string) : option (string * string) :=
  match s with
  | EmptyString => None
  | String a s' =>
      if Ascii.eqb a dquote then Some (EmptyString, s')
      else if Ascii.eqb a backslash then
        match s' with
        | EmptyString => None
        | String b s'' =>
            let escaped (x : ascii) :=
              match unquoteBody s'' with
              | Some (t, rest) => Some (String x t, rest)
              | None => None
              end in
            if Ascii.eqb b dquote then escaped dquote
            else if Ascii.eqb b backslash then escaped backslash
            else if Ascii.eqb b "b" then escaped "008"%char
            else if Ascii.eqb b "t" then escaped "009"%char
            else if Ascii.eqb b "n" then escaped "010"%char
            else if Ascii.eqb b "f" then escaped "012"%char
            else if Ascii.eqb b "r" then escaped "013"%char
            else if Ascii.eqb b "u" then
              match s'' with
              | String "0" (String "0" (String x (String y s3))) =>
                  match unquoteBody s3 with
                  | Some (t, rest) =>
                      Some (String (ascii_of_nat (16 * hexValue x + hexValue y))
                                   t, rest)
                  | None => None
                  end
              | _ => None
              end
            else None
        end
      else
        match unquoteBody s' with
        | Some (t, rest) => Some (String a t, rest)
        | None => None
        end
  end.

(** [s] without the prefix [p], when it starts with it. *)
Fixpoint stripPrefix (p s : string) : option string :=
  match p, s with
  | EmptyString, _ => Some s
  | String a p', String b s' =>
      if Ascii.eqb a b then stripPrefix p' s' else None
  | String _ _, EmptyString => None
  end.

Definition readValue (s : string) : option (value * string) :=
  match s with
  | EmptyString => None
  | String a s' =>
      if Ascii.eqb a dquote then
        match unquoteBody s' with
        | Some (t, rest) => Some (str t, rest)
        | None => None
        end
      else
        match stripPrefix "true" s, stripPrefix "false" s with
        | Some rest, _ => Some (boolean true, rest)
        | None, Some rest => Some (boolean false, rest)
        | None, None => None
        end
  end.

Definition readField (s : string) : option ((string * value) * string) :=
  match s with
  | EmptyString => None
  | String a s' =>
      if Ascii.eqb a dquote then
        match unquoteBody s' with
        | Some (key, String ":" rest) =>
            match readValue rest with
            | Some (v, rest') => Some ((key, v), rest')
            | None => None
            end
        | _ => None
        end
      else None
  end.

(** The fields of an object, from after its opening brace. *)
Fixpoint readFields (fuel : nat) (s : string)
    : option (list (string * value) * string) :=
  match fuel with
  | 0 => None
  | S fuel' =>
      match readField s with
      | Some (kv, String "," rest) =>
          match readFields fuel' rest with
          | Some (kvs, rest') => Some (kv :: kvs, rest')
          | None => None
          end
      | Some (kv, rest) => Some ([kv], rest)
      | None => None
      end
  end.

(** One property, as [stringify] writes it. *)
Definition writeField (kv : string * value) : string :=
  quote (fst kv) +:+ ":" +:+ stringifyValue (snd kv).

(** The properties [stringify] writes: those that are not [undefined]. *)
Definition present (props : list (string * option value))
    : list (string * value) :=
  omap (fun kv : string * option value => (fun v => (fst kv, v)) <$> snd kv)
       props.

End JsonRead.

(** What [getByComputedRole] puts into the payload besides the role. *)
Definition effectiveOptions (options : option Options.t)
    : option string * option string * bool :=
  let name := options ≫= Options.name in
  let description := options ≫= Options.description in
  let exact := options ≫= Options.exact in
  (if truthyOpt name then name else None,
   if truthyOpt description then description else None,
   bool_decide (exact = Some true)).

(** ** Patching prototypes (playwright-utils) *)

Module Patch.

Import Utils.

(** The function objects: those the prototypes hold to begin with, and the
    methods [patchPrototypeMethods] makes, each closed over the function it
    calls and over the two locator prototypes. *)
Inductive Fn : Type :=
| Native (id : nat)
| Patched (func : Fn) (initialLocatorPrototype : option loc)
    (patchedLocatorPrototype : loc).

(** The values methods take and return, as far as the patched methods
    look at them: [undefined], another falsy value, a truthy value that is
    no object (its prototype is the one of its wrapper class, which is no
    locator prototype), or an object. *)
Inductive Value : Type :=
| Undefined
| Falsy
| Primitive
| Object (l : loc).

Definition updateObject (h : Heap Fn) (l : loc) (o : Obj Fn) : Heap Fn :=
  {| obj := fun l' => if l' =? l then o else h l';
     ObjectPrototype := ObjectPrototype h |}.

(** The own properties after a function has been stored under [name]: the
    property keeps its place when the object has it, and comes last when it
    is new. *)
Fixpoint setDescriptor (name : string) (value : Fn)
    (descriptors : list (string * option Fn)) : list (string * option Fn) :=
  match descriptors with
  | [] => [(name, Some value)]
  | (k, v) :: rest =>
      if String.eqb k name then (k, Some value) :: rest
      else (k, v) :: setDescriptor name value rest
  end.

(** [Reflect.set(target, name, value)], for a [name] that is a writable
    data property, own or inherited, or no property yet, as the methods of
    a class are: [target] gets or keeps an own property with the value. *)
Definition Reflect_set (h : Heap Fn) (target : loc) (name : string)
    (value : Fn) : Heap Fn :=
  updateObject h target
    {| getPrototypeOf := getPrototypeOf (h target);
       getOwnPropertyDescriptors :=
         setDescriptor name value (getOwnPropertyDescriptors (h target)) |}.

Definition Object_setPrototypeOf (h : Heap Fn) (l : loc) (proto : loc)
    : Heap Fn :=
  updateObject h l
    {| getPrototypeOf := Some proto;
       getOwnPropertyDescriptors := getOwnPropertyDescriptors (h l) |}.

(** [Object.create(proto)], the new object being [l]. *)
Definition Object_create (h : Heap Fn) (l : loc) (proto : option loc)
    : Heap Fn :=
  updateObject h l
    {| getPrototypeOf := proto; getOwnPropertyDescriptors := [] |}.

(** One [for ... of] loop of [patchPrototypeMethods] over the entries it
    was given. *)
Definition patchEntries (prototype : loc) (patchedLocatorPrototype : loc)
    (initialLocatorPrototype : option loc) (es : list (string * Fn))
    (h : Heap Fn) : Heap Fn :=
  fold_left
    (fun h (entry : string * Fn) =>
       let '(name, func) := entry in
       Reflect_set h prototype name
         (Patched func initialLocatorPrototype patchedLocatorPrototype))
    es h.

Definition patchPrototypeMethods (fuel : nat) (h : Heap Fn) (prototype : loc)
    (patchedLocatorPrototype : loc) (initialLocatorPrototype : option loc)
    (additionalMethods : option loc) : option (Heap Fn) :=
  match entries h fuel prototype with
  | None => None
  | Some es =>
      let h1 :=
        patchEntries prototype patchedLocatorPrototype
          initialLocatorPrototype es h in
      match additionalMethods with
      | None => Some h1
      | Some additional =>
          match entries h1 fuel additional with
          | None => None
          | Some es' =>
              Some (patchEntries prototype patchedLocatorPrototype
                      initialLocatorPrototype es' h1)
          end
      end
  end.

(** [registerLocator], from the heap in which [page.locator("*")] has
    returned the locator [locator]; [patchedLocatorPrototype] and
    [patchedPagePrototype] are the objects the two calls of [Object.create]
    make.  The registration of the selector engine with Playwright, which
    gives the promise returned, is left out. *)
Definition registerLocator (fuel : nat) (h : Heap Fn) (page locator : loc)
    (patchedLocatorPrototype patchedPagePrototype : loc)
    (additionalMethods : option loc) : option (Heap Fn) :=
  let initialLocatorPrototype := getPrototypeOf (h locator) in
  let h1 := Object_create h patchedLocatorPrototype initialLocatorPrototype in
  let h2 := Object_create h1 patchedPagePrototype (getPrototypeOf (h1 page)) in
  match patchPrototypeMethods fuel h2 patchedLocatorPrototype
          patchedLocatorPrototype initialLocatorPrototype additionalMethods
  with
  | None => None
  | Some h3 =>
      match patchPrototypeMethods fuel h3 patchedPagePrototype
              patchedLocatorPrototype initialLocatorPrototype
              additionalMethods
      with
      | None => None
      | Some h4 => Some (Object_setPrototypeOf h4 page patchedPagePrototype)
      end
  end.

(** The arguments of [func.call(this, arg, ...args)] in a method with the
    parameters [(arg, ...args)]: those the method was called with, and one
    [undefined] when it was called with none. *)
Definition passedArguments (args : list Value) : list Value :=
  match args with
  | [] => [Undefined]
  | _ :: _ => args
  end.

Section Calls.

(** What the functions the prototypes hold to begin with do. *)
Variable native : nat -> Value -> list Value -> Heap Fn -> Value * Heap Fn.

(** A function called with the arguments [args], [this] being bound to
    [this].  A patched method has the parameters [(arg, ...args)] and makes
    the call [func.call(this, arg, ...args)]: it passes on
    [passedArguments] of what it was called with. *)
Fixpoint call (func : Fn) (this : Value) (args : list Value) (h : Heap Fn)
    : Value * Heap Fn :=
  match func with
  | Native id => native id this args h
  | Patched func' initialLocatorPrototype patchedLocatorPrototype =>
      let '(returnValue, h') := call func' this (passedArguments args) h in
      match returnValue with
      | Object l =>
          if bool_decide (getPrototypeOf (h' l) = initialLocatorPrototype)
          then (returnValue,
                Object_setPrototypeOf h' l patchedLocatorPrototype)
          else (returnValue, h')
      | _ => (returnValue, h')
      end
  end.

End Calls.

(** The function was made by [patchPrototypeMethods] for the two locator
    prototypes. *)
Definition patchedFor (initialLocatorPrototype : option loc)
    (patchedLocatorPrototype : loc) (value func : Fn) : Prop :=
  value = Patched func initialLocatorPrototype patchedLocatorPrototype.

(** No object of the heap has [x] as its prototype: [x] is an instance, or
    an object that has just been made. *)
Definition notAPrototype (h : Heap Fn) (x : loc) : Prop :=
  forall l, getPrototypeOf (h l) <> Some x.


(** What [registerLocator] makes of a new prototype [P] whose own prototype
    is [start]: the methods found from it are all patched, none of those
    found from [start] before is lost, and the additional methods are among
    them. *)
Definition patchedPrototype (fuel : nat) (h h' : Heap Fn) (P : loc)
    (start : option loc) (initialLocatorPrototype : option loc)
    (patchedLocatorPrototype : loc) (additionalMethods : option loc)
    : Prop :=
  exists rest,
    chainFrom h fuel start = Some rest
    /\ chainFrom h' fuel (Some P) = Some (P :: rest)
    /\ (forall key value,
          methodOf h' (P :: rest) key value ->
          exists func,
            patchedFor initialLocatorPrototype patchedLocatorPrototype
              value func)
    /\ (forall key func,
          methodOf h rest key func ->
          exists value, methodOf h' (P :: rest) key value)
    /\ (forall additional chain key func,
          additionalMethods = Some additional ->
          chainFrom h fuel (Some additional) = Some chain ->
          methodOf h chain key func ->
          methodOf h' (P :: rest) key
            (Patched func initialLocatorPrototype patchedLocatorPrototype)).

End Patch.

(** A page (5) of a class (4), a locator (2) of a class (1), the object of
    additional methods (3), and [Object.prototype] (0). *)
Definition pageHeap : Utils.Heap Patch.Fn :=
  {| Utils.obj := fun l =>
       match l with
       | 5 => {| Utils.getPrototypeOf := Some 4;
                 Utils.getOwnPropertyDescriptors := [("url", None)] |}
       | 4 => {| Utils.getPrototypeOf := Some 0;
                 Utils.getOwnPropertyDescriptors :=
                   [("constructor", Some (Patch.Native 20));
                    ("locator", Some (Patch.Native 21));
                    ("goto", Some (Patch.Native 22))] |}
       | 3 => {| Utils.getPrototypeOf := Some 0;
                 Utils.getOwnPropertyDescriptors :=
                   [("getByComputedRole", Some (Patch.Native 30))] |}
       | 2 => {| Utils.getPrototypeOf := Some 1;
                 Utils.getOwnPropertyDescriptors := [("selector", None)] |}
       | 1 => {| Utils.getPrototypeOf := Some 0;
                 Utils.getOwnPropertyDescriptors :=
                   [("constructor", Some (Patch.Native 10));
                    ("locator", Some (Patch.Native 11));
                    ("click", Some (Patch.Native 12))] |}
       | 0 => {| Utils.getPrototypeOf := None;
                 Utils.getOwnPropertyDescriptors :=
                   [("toString", Some (Patch.Native 1))] |}
       | _ => {| Utils.getPrototypeOf := None;
                 Utils.getOwnPropertyDescriptors := [] |}
       end;
     Utils.ObjectPrototype := 0 |}.

(** * Properties *)

Example normalize_joins :
  normalize ["  a   b "; ""; "c"] = "a b c".
Proof. reflexivity. Qed.

(** ** Role computation *)

(** C2. An element whose [role] attribute is present and not empty has that
    attribute's value as its computed role, whatever its tag, the role the
    tag maps to, and the role its internals record. *)
Theorem explicit_role_verbatim (d : Dom) (w : WeakMaps) (fuel : nat)
    (el : node) (r : string) (c : StyleCache) :
  getAttribute d el "role" = Some r ->
  r <> "" ->
  computeElementRole d w fuel el c = Ok (Some r, c).
Proof.
  intros Hattr Hne.
  unfold computeElementRole, computeElementRole_with.
  rewrite Hattr. simpl.
  assert (truthy r = true) as ->; [|reflexivity].
  unfold truthy. destruct (String.eqb_spec r ""); [contradiction|reflexivity].
Qed.

Lemma explicit_role_verbatim_witness :
  tagName (roleDoc 2) = "BUTTON"
  /\ (internalsMap roleMaps !! 2) ≫= role = Some "slider"
  /\ computeElementRole roleDoc roleMaps 0 2 ∅ = Ok (Some "banner", ∅).
Proof.
  split; [reflexivity|]. split; [reflexivity|].
  apply explicit_role_verbatim; [reflexivity|discriminate].
Defined.

(** ** The payload *)

(** C10. Falsy option values are left out of the payload: an empty name, an
    empty description and [exact: false] give the selector string that the
    same call gives without them, and a call with only such options gives
    the selector of the call without options. *)
Theorem falsy_options_omitted (role : string) :
  (forall o : Options.t,
      Options.name o = Some "" ->
      getByComputedRole role (Some o)
      = getByComputedRole role
          (Some {| Options.name := None;
                   Options.description := Options.description o;
                   Options.exact := Options.exact o |}))
  /\ (forall o : Options.t,
      Options.description o = Some "" ->
      getByComputedRole role (Some o)
      = getByComputedRole role
          (Some {| Options.name := Options.name o;
                   Options.description := None;
                   Options.exact := Options.exact o |}))
  /\ (forall o : Options.t,
      Options.exact o = Some false ->
      getByComputedRole role (Some o)
      = getByComputedRole role
          (Some {| Options.name := Options.name o;
                   Options.description := Options.description o;
                   Options.exact := None |}))
  /\ getByComputedRole role
       (Some {| Options.name := Some ""; Options.description := None;
                Options.exact := None |})
     = getByComputedRole role None
  /\ getByComputedRole role
       (Some {| Options.name := None; Options.description := Some "";
                Options.exact := None |})
     = getByComputedRole role None
  /\ getByComputedRole role
       (Some {| Options.name := None; Options.description := None;
                Options.exact := Some false |})
     = getByComputedRole role None
  /\ getByComputedRole role
       (Some {| Options.name := Some ""; Options.description := Some "";
                Options.exact := Some false |})
     = getByComputedRole role None.
Proof.
  repeat split.
  - intros [n de e] H. simpl in H. subst n. reflexivity.
  - intros [n de e] H. simpl in H. subst de. reflexivity.
  - intros [n de e] H. simpl in H. subst e. reflexivity.
Qed.

Example getByComputedRole_button :
  getByComputedRole "button"
    (Some {| Options.name := Some "Save"; Options.description := None;
             Options.exact := Some true |})
  = "computed-aria={" +:+ Json.quote "role" +:+ ":" +:+ Json.quote "button"
    +:+ "," +:+ Json.quote "name" +:+ ":" +:+ Json.quote "Save"
    +:+ "," +:+ Json.quote "exact" +:+ ":true}".
Proof. reflexivity. Qed.

(** ** Queries that need no traversal *)

(** C9, as the code has it.  A payload that [JSON.parse] accepts, that is
    not [null] and whose role is absent or the empty string makes [query]
    return no element and [queryAll] return the empty sequence; neither
    throws, neither needs any fuel, and the style cache stays as it is. *)
Theorem query_without_role (d : Dom) (w : WeakMaps)
    (jsonParse : string -> option JsonPayload) (document : node)
    (fuel : nat) (root : node) (selector : string) (p : ParsedOptions.t)
    (c : StyleCache) :
  jsonParse selector = Some (JsonObject p) ->
  ParsedOptions.role p = None \/ ParsedOptions.role p = Some "" ->
  query d w (destructured jsonParse) document fuel root selector c
  = Ok (None, c)
  /\ queryAll d w (destructured jsonParse) document fuel root selector c
     = Ok ([], c).
Proof.
  intros Hp Hrole. unfold query, queryAll, destructured. rewrite Hp.
  destruct Hrole as [-> | ->]; split; reflexivity.
Qed.

Lemma query_without_role_witness :
  (query buttonsDoc scriptForInit (destructured buttonsJson) 0 0 0
     "no-role" ∅ = Ok (None, ∅)
   /\ queryAll buttonsDoc scriptForInit (destructured buttonsJson) 0 0 0
        "no-role" ∅ = Ok ([], ∅))
  /\ (query buttonsDoc scriptForInit (destructured buttonsJson) 0 9 0
        "empty-role" ∅ = Ok (None, ∅)
      /\ queryAll buttonsDoc scriptForInit (destructured buttonsJson) 0 9 0
           "empty-role" ∅ = Ok ([], ∅)).
Proof.
  split.
  - apply (query_without_role buttonsDoc scriptForInit buttonsJson 0 0 0
             "no-role" (payload None (Some "go") None) ∅);
      [reflexivity | left; reflexivity].
  - apply (query_without_role buttonsDoc scriptForInit buttonsJson 0 9 0
             "empty-role" (payload (Some "") None None) ∅);
      [reflexivity | right; reflexivity].
Defined.

(** C9, as stated, fails for the payload [null]: [JSON.parse] accepts it,
    it has no role, and the destructuring of [query] and of [queryAll]
    throws. *)
Lemma null_payload_throws :
  buttonsJson "null" = Some JsonNull
  /\ query buttonsDoc scriptForInit (destructured buttonsJson) 0 9 0
       "null" ∅ = Thrown
  /\ queryAll buttonsDoc scriptForInit (destructured buttonsJson) 0 9 0
       "null" ∅ = Thrown.
Proof. repeat split; reflexivity. Qed.

(** C8. Two payloads that agree on role, name and exact, whatever their
    descriptions, make [query] and [queryAll] behave alike: the same result
    and the same style cache, from every root, fuel and cache. *)
Theorem description_ignored (d : Dom) (w : WeakMaps)
    (parse : string -> option ParsedOptions.t) (document : node)
    (fuel : nat) (root : node) (selector1 selector2 : string)
    (p1 p2 : ParsedOptions.t) (c : StyleCache) :
  parse selector1 = Some p1 ->
  parse selector2 = Some p2 ->
  ParsedOptions.role p1 = ParsedOptions.role p2 ->
  ParsedOptions.name p1 = ParsedOptions.name p2 ->
  ParsedOptions.exact p1 = ParsedOptions.exact p2 ->
  query d w parse document fuel root selector1 c
  = query d w parse document fuel root selector2 c
  /\ queryAll d w parse document fuel root selector1 c
     = queryAll d w parse document fuel root selector2 c.
Proof.
  intros H1 H2 Hr Hn He. unfold query, queryAll.
  rewrite H1, H2, Hr, Hn, He. split; reflexivity.
Qed.

Lemma description_ignored_witness :
  query buttonsDoc scriptForInit buttonsParse 0 9 0 "button" ∅
  = query buttonsDoc scriptForInit buttonsParse 0 9 0 "button-described" ∅
  /\ queryAll buttonsDoc scriptForInit buttonsParse 0 9 0 "button" ∅
     = queryAll buttonsDoc scriptForInit buttonsParse 0 9 0
         "button-described" ∅.
Proof.
  apply (description_ignored buttonsDoc scriptForInit buttonsParse 0 9 0
           "button" "button-described"
           (payload (Some "button") None None)
           {| ParsedOptions.role := Some "button"; ParsedOptions.name := None;
              ParsedOptions.description := Some "anything";
              ParsedOptions.exact := None |} ∅); reflexivity.
Defined.

Example queryAll_buttons :
  returned (queryAll buttonsDoc scriptForInit buttonsParse 0 9 0 "button" ∅)
  = Some [2; 3].
Proof. vm_compute. reflexivity. Qed.

(** ** The label string of step 2 *)

(** When no element is cross-referenced, a non-blank [aria-label] attribute
    is the name, whatever the internals of the element hold. *)
Lemma aria_label_attribute_decides (d : Dom) (w : WeakMaps) (fuel : nat)
    (el : node) (opts : ComputeAccessibleNamesOptions) (a : string)
    (c : StyleCache) :
  default ∅ (cache opts) !! el = None ->
  el ∉ default ∅ (visited opts) ->
  labelledByElementsOf d w el = [] ->
  getAttribute d el "aria-label" = Some a ->
  truthy (trim a) = true ->
  computeAccessibleName d w (S fuel) el opts c
  = Ok (normalize [a],
        (<[el := normalize [a]]> (default ∅ (cache opts)),
         {[el]} ∪ default ∅ (visited opts)), c).
Proof.
  intros Hcache Hvisited Hrefs Hattr Htrim. cbn [computeAccessibleName].
  rewrite Hcache, (bool_decide_eq_false_2 _ Hvisited), Hrefs, Hattr, Htrim.
  reflexivity.
Qed.

(** C5, at the failing input: an element with a non-empty [aria-label]
    attribute and internals with a non-empty [ariaLabel], and no
    cross-reference.  The name is the attribute's, not the internals'. *)
Theorem aria_label_attribute_first :
  getAttribute labelDoc 2 "aria-label" = Some "From attribute"
  /\ (internalsMap labelMaps !! 2) ≫= ariaLabel = Some "From internals"
  /\ labelledByElementsOf labelDoc labelMaps 2 = []
  /\ returned (computeAccessibleName labelDoc labelMaps 9 2 noOptions ∅)
     = Some ("From attribute", ({[ 2 := "From attribute" ]}, {[ 2 ]})).
Proof. vm_compute. repeat split; reflexivity. Qed.

(** ** The style cache never decides a result *)

Lemma cache_ok_empty : cache_ok ∅.
Proof. intros n h H. rewrite lookup_empty in H. discriminate. Qed.

Lemma cache_ok_insert (c : StyleCache) (n : node) :
  cache_ok c -> cache_ok (<[n := n]> c).
Proof.
  intros Hc m h. rewrite lookup_insert. case_decide.
  - intros [= <-]. congruence.
  - apply Hc.
Qed.

Lemma sim_ret {A} (a : A) : sim (ret a) (ret a).
Proof.
  intros c1 c2 a' c1' H1 H2 [= <- <-]. split; [assumption|].
  exists c2. split; [reflexivity | assumption].
Qed.

Lemma sim_outOfFuel {A} (m : M A) : sim outOfFuel m.
Proof. intros c1 c2 a c1' _ _ H. discriminate. Qed.

Lemma sim_throw {A} (m : M A) : sim throw m.
Proof. intros c1 c2 a c1' _ _ H. discriminate. Qed.

Lemma sim_bind {A B} (m1 m2 : M A) (k1 k2 : A -> M B) :
  sim m1 m2 -> (forall a, sim (k1 a) (k2 a)) -> sim (bind m1 k1) (bind m2 k2).
Proof.
  intros Hm Hk c1 c2 b c1' H1 H2 Hrun. unfold bind in *.
  destruct (m1 c1) as [[a ca]| |] eqn:E1; try discriminate.
  destruct (Hm _ _ _ _ H1 H2 E1) as (Hca & c2a & E2 & Hc2a).
  rewrite E2. exact (Hk a _ _ _ _ Hca Hc2a Hrun).
Qed.

Lemma sim_preserves {A} (m : M A) (c : StyleCache) (a : A) (c' : StyleCache) :
  sim m m -> cache_ok c -> m c = Ok (a, c') -> cache_ok c'.
Proof. intros Hs Hc Hrun. exact (proj1 (Hs _ _ _ _ Hc Hc Hrun)). Qed.

Ltac sim_step :=
  lazymatch goal with
  | |- sim (ret _) (ret _) => apply sim_ret
  | |- sim outOfFuel _ => apply sim_outOfFuel
  | |- sim throw _ => apply sim_throw
  | |- sim (bind _ _) (bind _ _) => apply sim_bind; [| intros ?]
  | |- sim (if ?b then _ else _) (if ?b then _ else _) => destruct b eqn:?
  | |- sim (match ?x with _ => _ end) (match ?x with _ => _ end) =>
      destruct x eqn:?
  end.

Lemma sim_mapM {A B} (f g : A -> M B) (l : list A) :
  (forall x, sim (f x) (g x)) -> sim (mapM f l) (mapM g l).
Proof.
  intros Hfg. induction l as [|x l IH]; cbn [mapM]; repeat sim_step; auto.
Qed.

Lemma sim_forEach {S R} (f g : node -> S -> M (Loop S R)) (l : list node) :
  (forall x s, sim (f x s) (g x s)) ->
  forall s, sim (forEach f l s) (forEach g l s).
Proof.
  intros Hfg. induction l as [|x l IH]; intros s; cbn [forEach];
    repeat sim_step; auto.
Qed.

Section Simulation.

Variable d : Dom.
Variable w : WeakMaps.

Lemma sim_computedStyleOf (n : node) :
  sim (computedStyleOf n) (computedStyleOf n).
Proof.
  intros c1 c2 a c1' H1 H2. unfold computedStyleOf.
  destruct (c1 !! n) as [h1|] eqn:E1; intros [= <- <-].
  - split; [assumption|]. apply H1 in E1. subst h1.
    destruct (c2 !! n) as [h2|] eqn:E2.
    + apply H2 in E2. subst h2. eauto.
    + eauto using cache_ok_insert.
  - split; [auto using cache_ok_insert|].
    destruct (c2 !! n) as [h2|] eqn:E2.
    + apply H2 in E2. subst h2. eauto.
    + eauto using cache_ok_insert.
Qed.

Lemma sim_isElementHidden_from (f1 : nat) :
  forall f2 n, f1 <= f2 ->
    sim (isElementHidden_from d f1 n) (isElementHidden_from d f2 n).
Proof.
  induction f1 as [|f1 IH]; intros [|f2] [n|] Hle; try lia;
    cbn [isElementHidden_from]; repeat sim_step;
    try apply sim_computedStyleOf; try (apply IH; lia).
Qed.

Lemma sim_isElementHidden (f1 f2 : nat) (n : node) :
  f1 <= f2 -> sim (isElementHidden d f1 n) (isElementHidden d f2 n).
Proof. apply sim_isElementHidden_from. Qed.

Lemma sim_asText (f1 : nat) :
  forall f2 n, f1 <= f2 -> sim (asText d w f1 n) (asText d w f2 n).
Proof.
  induction f1 as [|f1 IH]; intros [|f2] n Hle; try lia;
    cbn [asText]; repeat sim_step;
    try (apply sim_isElementHidden; lia);
    try (apply sim_mapM; intros x; apply IH; lia).
Qed.

Lemma sim_associatedLabelText (f1 f2 : nat) (el : node) :
  f1 <= f2 ->
  sim (associatedLabelText d w f1 el) (associatedLabelText d w f2 el).
Proof.
  intros Hle. unfold associatedLabelText. repeat sim_step;
    try (apply sim_mapM; intros x; apply sim_asText; lia).
Qed.

Lemma sim_mapRefs (f g : node -> NameState -> M (string * NameState))
    (refs : list node) :
  (forall x s, sim (f x s) (g x s)) ->
  forall s, sim (mapRefs f refs s) (mapRefs g refs s).
Proof.
  intros Hfg. induction refs as [|x l IH]; intros s; cbn [mapRefs];
    repeat sim_step; auto.
Qed.

Lemma sim_computeElementRole_with
    (name1 name2 : node -> ComputeAccessibleNamesOptions
                   -> M (string * NameState)) (el : node) :
  (forall x o, sim (name1 x o) (name2 x o)) ->
  sim (computeElementRole_with d w name1 el)
      (computeElementRole_with d w name2 el).
Proof.
  intros H. unfold computeElementRole_with. repeat sim_step; auto.
Qed.

Lemma sim_computeAccessibleName (f1 : nat) :
  forall f2 el opts, f1 <= f2 ->
    sim (computeAccessibleName d w f1 el opts)
        (computeAccessibleName d w f2 el opts).
Proof.
  induction f1 as [|f1 IH]; intros [|f2] el opts Hle; try lia;
    cbn [computeAccessibleName]; [apply sim_outOfFuel..|].
  unfold cacheAndReturn.
  repeat sim_step;
    try (apply sim_mapRefs; intros x s; apply IH; lia);
    try (apply sim_associatedLabelText; lia);
    try (apply sim_asText; lia);
    try (apply sim_computeElementRole_with; intros x o; apply IH; lia).
Qed.

Lemma sim_computeElementRole (f1 f2 : nat) (el : node) :
  f1 <= f2 ->
  sim (computeElementRole d w f1 el) (computeElementRole d w f2 el).
Proof.
  intros Hle. apply sim_computeElementRole_with.
  intros x o. apply sim_computeAccessibleName. assumption.
Qed.

Lemma sim_accessibleNameOf (f1 f2 : nat) (el : node) :
  f1 <= f2 ->
  sim (accessibleNameOf d w f1 el) (accessibleNameOf d w f2 el).
Proof.
  intros Hle. unfold accessibleNameOf. repeat sim_step;
    try (apply sim_computeElementRole; assumption);
    try (apply sim_computeAccessibleName; assumption).
Qed.

Lemma sim_matchesNameFilter (f1 f2 : nat) (el : node)
    (nameFilter : option string) (exact : option bool) :
  f1 <= f2 ->
  sim (matchesNameFilter d w f1 el nameFilter exact)
      (matchesNameFilter d w f2 el nameFilter exact).
Proof.
  intros Hle. unfold matchesNameFilter. repeat sim_step;
    try (apply sim_computeElementRole; assumption);
    try (apply sim_computeAccessibleName; assumption).
Qed.

Lemma sim_matches (f1 f2 : nat) (r : string) (name : option string)
    (exact : option bool) (el : node) :
  f1 <= f2 ->
  sim (matches d w f1 r name exact el) (matches d w f2 r name exact el).
Proof.
  intros Hle. unfold matches. repeat sim_step;
    try (apply sim_computeElementRole; assumption);
    try (apply sim_matchesNameFilter; assumption).
Qed.

Lemma sim_getElements {A R} (yield1 yield2 : node -> A -> M (Loop A R)) :
  (forall x a, sim (yield1 x a) (yield2 x a)) ->
  forall f1 f2 n doc st, f1 <= f2 ->
    sim (getElements d w f1 yield1 n doc st)
        (getElements d w f2 yield2 n doc st).
Proof.
  intros Hy. induction f1 as [|f1 IH]; intros [|f2] n doc [v acc] Hle;
    try lia; cbn [getElements]; [apply sim_outOfFuel..|].
  repeat sim_step; auto;
    try (apply sim_isElementHidden; lia);
    try (apply sim_forEach; intros ? ?; apply IH; lia);
    try (apply IH; lia).
Qed.

Lemma sim_query (parse : string -> option ParsedOptions.t) (document : node)
    (f1 f2 : nat) (root : node) (selector : string) :
  f1 <= f2 ->
  sim (query d w parse document f1 root selector)
      (query d w parse document f2 root selector).
Proof.
  intros Hle. unfold query. repeat sim_step.
  - apply sim_getElements; [|assumption].
    intros x a. repeat sim_step. apply sim_matches. assumption.
Qed.

Lemma sim_queryAll (parse : string -> option ParsedOptions.t)
    (document : node) (f1 f2 : nat) (root : node) (selector : string) :
  f1 <= f2 ->
  sim (queryAll d w parse document f1 root selector)
      (queryAll d w parse document f2 root selector).
Proof.
  intros Hle. unfold queryAll. repeat sim_step.
  - apply sim_getElements; [|assumption].
    intros x a. repeat sim_step. apply sim_matches. assumption.
Qed.

End Simulation.

(** ** Visibility *)

Lemma triple_ret {A} (a : A) (Post : A -> Prop) : Post a -> triple (ret a) Post.
Proof. intros H c a' c' Hc [= <- <-]. auto. Qed.

Lemma triple_bind {A B} (m : M A) (k : A -> M B) (P : A -> Prop)
    (Q : B -> Prop) :
  triple m P -> (forall a, P a -> triple (k a) Q) -> triple (bind m k) Q.
Proof.
  intros Hm Hk c b c' Hc Hrun. unfold bind in Hrun.
  destruct (m c) as [[a ca]| |] eqn:E; try discriminate.
  destruct (Hm _ _ _ Hc E) as [Hca Ha]. exact (Hk a Ha _ _ _ Hca Hrun).
Qed.

Lemma triple_weaken {A} (m : M A) (P Q : A -> Prop) :
  triple m P -> (forall a, P a -> Q a) -> triple m Q.
Proof. intros Hm HPQ c a c' Hc Hrun. destruct (Hm _ _ _ Hc Hrun). auto. Qed.

Lemma triple_sim {A} (m : M A) : sim m m -> triple m (fun _ => True).
Proof. intros Hs c a c' Hc Hrun. eauto using sim_preserves. Qed.

Lemma hiddenBy_hiddenHere (d : Dom) (a : node) :
  hiddenBy d a -> hiddenHere d a = true.
Proof.
  unfold hiddenHere. intros [H|H|H|H|H1 H2].
  - rewrite H. reflexivity.
  - rewrite (bool_decide_eq_true_2 _ H). apply orb_true_iff. left.
    rewrite !orb_true_r. reflexivity.
  - rewrite H. simpl. rewrite !orb_true_r. reflexivity.
  - rewrite H. simpl. rewrite !orb_true_r. reflexivity.
  - rewrite H1, H2. simpl. rewrite !orb_true_r. reflexivity.
Qed.

Lemma computedStyleOf_ok (n : node) (c : StyleCache) :
  cache_ok c -> exists c', computedStyleOf n c = Ok (n, c') /\ cache_ok c'.
Proof.
  intros Hc. unfold computedStyleOf. destruct (c !! n) as [h|] eqn:E.
  - apply Hc in E. subst h. eauto.
  - eauto using cache_ok_insert.
Qed.

(** One round of the loop of [isElementHidden]. *)
Lemma isElementHidden_from_step (d : Dom) (fuel : nat) (n : node)
    (c : StyleCache) :
  cache_ok c ->
  exists c1,
    cache_ok c1
    /\ isElementHidden_from d (S fuel) (Some n) c
       = if instanceofElement d n && hiddenHere d n then Ok (true, c1)
         else isElementHidden_from d fuel (parentElement (d n)) c1.
Proof.
  intros Hc. cbn [isElementHidden_from]. unfold hiddenHere.
  destruct (instanceofElement d n); [|exists c; auto].
  destruct (hasAttribute d n "hidden"); [exists c; auto|].
  destruct (bool_decide (getAttribute d n "aria-hidden" = Some "true"));
    [exists c; auto|].
  destruct (computedStyleOf_ok n c Hc) as (c1 & E & Hc1).
  exists c1. split; [assumption|]. unfold bind. rewrite E.
  unfold display, visibility. simpl.
  destruct (String.eqb (style_display (d n)) "none"
            || String.eqb (style_visibility (d n)) "hidden"); [reflexivity|].
  destruct (isHTMLElement (d n) && inert (d n)); reflexivity.
Qed.

Lemma isElementHidden_true (d : Dom) (n a : node) :
  ancestorOrSelf d n a -> instanceofElement d a = true -> hiddenBy d a ->
  exists fuel0, forall fuel c,
    fuel0 <= fuel -> cache_ok c ->
    exists c', isElementHidden d fuel n c = Ok (true, c') /\ cache_ok c'.
Proof.
  intros Hanc Hel Hhid. apply hiddenBy_hiddenHere in Hhid.
  unfold isElementHidden.
  induction Hanc as [n | n p a Hp Hanc IH].
  - exists 1. intros [|fuel] c Hle Hc; [lia|].
    destruct (isElementHidden_from_step d fuel n c Hc) as (c1 & Hc1 & ->).
    rewrite Hel, Hhid. eauto.
  - destruct (IH Hel Hhid) as [fuel0 Hf]. exists (S fuel0).
    intros [|fuel] c Hle Hc; [lia|].
    destruct (isElementHidden_from_step d fuel n c Hc) as (c1 & Hc1 & ->).
    destruct (instanceofElement d n && hiddenHere d n); [eauto|].
    rewrite Hp. apply Hf; [lia | assumption].
Qed.

Lemma isElementHidden_false_inv (d : Dom) (fuel : nat) :
  forall n a c c',
    cache_ok c -> isElementHidden d fuel n c = Ok (false, c') ->
    ancestorOrSelf d n a -> instanceofElement d a = true -> hiddenBy d a ->
    False.
Proof.
  unfold isElementHidden.
  induction fuel as [|fuel IH]; intros n a c c' Hc Hrun Hanc Hel Hhid;
    [discriminate|].
  destruct (isElementHidden_from_step d fuel n c Hc) as (c1 & Hc1 & E).
  rewrite E in Hrun. clear E.
  destruct Hanc as [n | n p a Hp Hanc].
  - rewrite Hel, (hiddenBy_hiddenHere _ _ Hhid) in Hrun. discriminate.
  - destruct (instanceofElement d n && hiddenHere d n); [discriminate|].
    rewrite Hp in Hrun. eauto.
Qed.

Lemma visible_not_hidden (d : Dom) (n : node) :
  visible d n -> hiddenElement d n -> False.
Proof.
  intros (fuel & c & c' & Hc & Hrun) (a & Hanc & Hel & Hhid).
  eauto using isElementHidden_false_inv.
Qed.

Lemma triple_isElementHidden (d : Dom) (fuel : nat) (n : node) :
  triple (isElementHidden d fuel n) (fun b => b = false -> visible d n).
Proof.
  intros c b c' Hc Hrun. split.
  - eapply sim_preserves; [apply (sim_isElementHidden d fuel fuel n); lia|..];
      eassumption.
  - intros ->. exists fuel, c, c'. auto.
Qed.

Lemma triple_forEach {S R} (Inv : S -> Prop) (Q : R -> Prop)
    (f : node -> S -> M (Loop S R)) (l : list node) :
  (forall x s, Inv s -> triple (f x s) (loopPost Inv Q)) ->
  forall s, Inv s -> triple (forEach f l s) (loopPost Inv Q).
Proof.
  intros Hf. induction l as [|x l IH]; intros s Hs; cbn [forEach].
  - apply triple_ret. assumption.
  - eapply triple_bind; [apply Hf; assumption|].
    intros [s'|v] Hr; simpl in Hr; [auto | apply triple_ret; assumption].
Qed.

(** The loop rule of [getElements]: the body only ever runs on elements a
    run of [isElementHidden] found visible. *)
Lemma triple_getElements {A R} (d : Dom) (w : WeakMaps) (Inv : A -> Prop)
    (Q : R -> Prop) (yield : node -> A -> M (Loop A R)) :
  (forall x acc, visible d x -> Inv acc -> triple (yield x acc) (loopPost Inv Q)) ->
  forall fuel n doc v acc,
    Inv acc ->
    triple (getElements d w fuel yield n doc (v, acc))
           (loopPost (fun st => Inv (snd st)) Q).
Proof.
  intros Hy. induction fuel as [|fuel IH]; intros n doc v acc Hacc;
    cbn [getElements]; [intros c a c' _ H; discriminate|].
  assert (Hloop : forall l v' acc', Inv acc' ->
            triple (forEach (fun x => getElements d w fuel yield x doc) l
                            (v', acc'))
                   (loopPost (fun st => Inv (snd st)) Q)).
  { intros l v' acc' Hacc'.
    apply (triple_forEach (fun st => Inv (snd st)) Q); [|assumption].
    intros x [v'' acc''] Hs. apply IH. assumption. }
  destruct (bool_decide (n ∈ v)); [apply triple_ret; assumption|].
  destruct (instanceofElement d n) eqn:Hel.
  - eapply triple_bind; [apply triple_isElementHidden|].
    intros [|] Hvis; simpl.
    + rewrite andb_false_r. apply triple_ret. assumption.
    + eapply triple_bind; [apply Hy; auto|].
      intros [acc1|r] Hr; simpl in Hr; [|apply triple_ret; assumption].
      destruct (isHTMLSlotElement (d n) && (0 <? length (assignedElements (d n))));
        [apply Hloop; assumption|].
      destruct (shadowdomMap w !! n); [apply IH; assumption|].
      destruct (isSelectorRoot d n && _);
        [apply Hloop | apply triple_ret]; assumption.
  - eapply triple_bind; [apply (triple_ret false (fun _ => True)); exact I|].
    intros b _. simpl.
    destruct (isSelectorRoot d n && _);
      [apply Hloop | apply triple_ret]; assumption.
Qed.

Lemma getElements_hidden {A R} (d : Dom) (w : WeakMaps) (fuel : nat)
    (yield : node -> A -> M (Loop A R)) (n doc : node) (v : gset node)
    (acc : A) (c c' : StyleCache) :
  instanceofElement d n = true -> n ∉ v ->
  isElementHidden d fuel n c = Ok (true, c') ->
  getElements d w (S fuel) yield n doc (v, acc) c
  = Ok (Continue ({[n]} ∪ v, acc), c').
Proof.
  intros Hel Hv Hhid. cbn [getElements].
  rewrite (bool_decide_eq_false_2 _ Hv), Hel. unfold bind. rewrite Hhid.
  simpl. rewrite andb_false_r. reflexivity.
Qed.

(** What the test [matches] guarantees of the elements it accepts holds of
    whatever [query] returns and of all [queryAll] returns. *)
Lemma triple_query (d : Dom) (w : WeakMaps)
    (parse : string -> option ParsedOptions.t) (document : node) (fuel : nat)
    (root : node) (selector : string) (P : node -> Prop) :
  (forall p x,
      parse selector = Some p -> visible d x ->
      triple (matches d w fuel (default "" (ParsedOptions.role p))
                (ParsedOptions.name p) (ParsedOptions.exact p) x)
             (fun ok => ok = true -> P x)) ->
  triple (query d w parse document fuel root selector)
         (fun r => forall e, r = Some e -> P e).
Proof.
  intros Hm. unfold query. destruct (parse selector) as [p|];
    [|intros c a c' _ H; discriminate].
  destruct (negb _); [apply triple_ret; discriminate|].
  eapply triple_bind.
  - apply (triple_getElements d w (fun _ : unit => True) P); [|exact I].
    intros x [] Hx _. eapply triple_bind; [apply (Hm p x); auto|].
    intros [|] Hok; apply triple_ret; simpl; auto.
  - intros [[v []]|e] Hr; simpl in Hr; apply triple_ret;
      [discriminate | intros e' [= <-]; assumption].
Qed.

Lemma triple_queryAll (d : Dom) (w : WeakMaps)
    (parse : string -> option ParsedOptions.t) (document : node) (fuel : nat)
    (root : node) (selector : string) (P : node -> Prop) :
  (forall p x,
      parse selector = Some p -> visible d x ->
      triple (matches d w fuel (default "" (ParsedOptions.role p))
                (ParsedOptions.name p) (ParsedOptions.exact p) x)
             (fun ok => ok = true -> P x)) ->
  triple (queryAll d w parse document fuel root selector) (Forall P).
Proof.
  intros Hm. unfold queryAll. destruct (parse selector) as [p|];
    [|intros c a c' _ H; discriminate].
  destruct (negb _); [apply triple_ret; constructor|].
  eapply triple_bind.
  - apply (triple_getElements d w (Forall P) (fun _ => False));
      [|constructor].
    intros x rs Hx Hrs. eapply triple_bind; [apply (Hm p x); auto|].
    intros [|] Hok; apply triple_ret; simpl; [|assumption].
    apply Forall_app. auto.
  - intros [[v rs]|[]] Hr; simpl in Hr. apply triple_ret. assumption.
Qed.

Lemma triple_matches_visible (d : Dom) (w : WeakMaps) (fuel : nat)
    (r : string) (name : option string) (exact : option bool) (x : node) :
  visible d x ->
  triple (matches d w fuel r name exact x) (fun ok => ok = true -> visible d x).
Proof.
  intros Hx. eapply triple_weaken.
  - apply triple_sim. apply sim_matches. lia.
  - auto.
Qed.

(** C1. An element that is hidden by itself or by an ancestor (a [hidden]
    attribute, [aria-hidden="true"], computed display [none], computed
    visibility [hidden], or an inert HTML element) makes [isElementHidden]
    answer [true]; when the traversal reaches it, it visits nothing below it
    and runs the loop body on nothing; and neither [query] nor [queryAll]
    ever returns it.  Descendants of a hidden element are hidden elements
    themselves. *)
Theorem hidden_never_returned (d : Dom) (w : WeakMaps) (n : node) :
  hiddenElement d n ->
  (exists fuel0, forall fuel c,
      fuel0 <= fuel -> cache_ok c ->
      exists c',
        isElementHidden d fuel n c = Ok (true, c')
        /\ (instanceofElement d n = true ->
            forall (A R : Type) (yield : node -> A -> M (Loop A R))
                   (doc : node) (v : gset node) (acc : A),
              n ∉ v ->
              getElements d w (S fuel) yield n doc (v, acc) c
              = Ok (Continue ({[n]} ∪ v, acc), c')))
  /\ (forall parse document fuel root selector c r c',
        cache_ok c ->
        query d w parse document fuel root selector c = Ok (r, c') ->
        r <> Some n)
  /\ (forall parse document fuel root selector c rs c',
        cache_ok c ->
        queryAll d w parse document fuel root selector c = Ok (rs, c') ->
        ~ In n rs)
  /\ (forall m, ancestorOrSelf d m n -> hiddenElement d m).
Proof.
  intros Hn. split; [|split; [|split]].
  - destruct Hn as (a & Hanc & Hel & Hhid).
    destruct (isElementHidden_true d n a Hanc Hel Hhid) as [fuel0 Hf].
    exists fuel0. intros fuel c Hle Hc.
    destruct (Hf fuel c Hle Hc) as (c' & Hrun & _). exists c'.
    split; [assumption|]. intros Heln A R yield doc v acc Hv.
    apply getElements_hidden; assumption.
  - intros parse document fuel root selector c r c' Hc Hrun ->.
    destruct (triple_query d w parse document fuel root selector (visible d)
                (fun p x _ Hx => triple_matches_visible d w fuel _ _ _ x Hx)
                _ _ _ Hc Hrun) as [_ Hvis].
    eapply visible_not_hidden; eauto.
  - intros parse document fuel root selector c rs c' Hc Hrun Hin.
    destruct (triple_queryAll d w parse document fuel root selector
                (visible d)
                (fun p x _ Hx => triple_matches_visible d w fuel _ _ _ x Hx)
                _ _ _ Hc Hrun) as [_ Hvis].
    rewrite List.Forall_forall in Hvis.
    eapply visible_not_hidden; [apply Hvis|]; eassumption.
  - intros m Hm. destruct Hn as (a & Hanc & Hel & Hhid).
    exists a. split; [|auto]. clear Hel Hhid.
    induction Hm as [|m p n Hp Hm IH]; [assumption|].
    econstructor; eauto.
Qed.

Lemma hidden_never_returned_witness :
  hiddenElement hiddenDoc 3
  /\ (forall rs c',
        queryAll hiddenDoc scriptForInit buttonsParse 0 9 0 "button" ∅
        = Ok (rs, c') ->
        ~ In 3 rs).
Proof.
  assert (H : hiddenElement hiddenDoc 3).
  { exists 2. split; [|split].
    - apply (ancestor_parent hiddenDoc 3 2 2); [reflexivity | constructor].
    - reflexivity.
    - apply hidden_attribute. reflexivity. }
  split; [exact H|].
  intros rs c'.
  apply (proj1 (proj2 (proj2 (hidden_never_returned hiddenDoc scriptForInit 3 H)))).
  apply cache_ok_empty.
Defined.

Example queryAll_hiddenDoc :
  returned (queryAll hiddenDoc scriptForInit buttonsParse 0 9 0 "button" ∅)
  = Some [5].
Proof. vm_compute. reflexivity. Qed.

(** ** Name filters *)

(** [matchesNameFilter] tests the name [accessibleNameOf] computes. *)
Lemma matchesNameFilter_unfold (d : Dom) (w : WeakMaps) (fuel : nat)
    (el : node) (nameFilter : option string) (exact : option bool)
    (c : StyleCache) :
  matchesNameFilter d w fuel el nameFilter exact c
  = (if truthyOpt nameFilter then
       let* accessibleName := accessibleNameOf d w fuel el in
       if truthy accessibleName then
         if bool_decide (exact = Some true)
         then ret (bool_decide (accessibleName = default "" nameFilter))
         else ret (includes (toLowerCase accessibleName)
                            (toLowerCase (default "" nameFilter)))
       else ret false
     else ret false) c.
Proof.
  unfold matchesNameFilter, accessibleNameOf, bind.
  destruct (truthyOpt nameFilter); [|reflexivity].
  destruct (computeElementRole d w fuel el c) as [[r c1]| |]; try reflexivity.
  destruct (computeAccessibleName d w fuel el _ c1) as [[[nm st] c2]| |];
    reflexivity.
Qed.

(** [matchesNameFilter] itself answers [false] to an empty filter; [query]
    and [queryAll] do not ask it then. *)
Lemma matchesNameFilter_empty_filter (d : Dom) (w : WeakMaps) (fuel : nat)
    (el : node) (exact : option bool) (c : StyleCache) :
  matchesNameFilter d w fuel el (Some "") exact c = Ok (false, c)
  /\ matchesNameFilter d w fuel el None exact c = Ok (false, c).
Proof. split; reflexivity. Qed.

(** The name of an element does not depend on the fuel or on the cache of
    the run that computes it. *)
Lemma accessibleNameOf_agree (d : Dom) (w : WeakMaps) (el : node)
    (fuel0 : nat) (c0 c0' : StyleCache) (name0 : string) (fuel : nat) :
  cache_ok c0 ->
  accessibleNameOf d w fuel0 el c0 = Ok (name0, c0') ->
  triple (accessibleNameOf d w fuel el) (fun name => name = name0).
Proof.
  intros Hc0 H0 c name c' Hc Hrun. split.
  - eapply sim_preserves; [apply (sim_accessibleNameOf d w fuel fuel el); lia|..];
      eassumption.
  - destruct (sim_accessibleNameOf d w fuel0 (max fuel0 fuel) el
                (Nat.le_max_l _ _) _ _ _ _ Hc0 Hc H0) as (_ & c1 & E1 & _).
    destruct (sim_accessibleNameOf d w fuel (max fuel0 fuel) el
                (Nat.le_max_r _ _) _ _ _ _ Hc Hc Hrun) as (_ & c2 & E2 & _).
    congruence.
Qed.

Lemma triple_matches_empty_name (d : Dom) (w : WeakMaps) (el : node)
    (fuel0 : nat) (c0 c0' : StyleCache) (fuel : nat) (r : string)
    (name : option string) (exact : option bool) :
  cache_ok c0 ->
  accessibleNameOf d w fuel0 el c0 = Ok ("", c0') ->
  truthyOpt name = true ->
  triple (matches d w fuel r name exact el) (fun ok => ok = false).
Proof.
  intros Hc0 H0 Hname. unfold matches. eapply triple_bind.
  - apply triple_sim. apply sim_computeElementRole. lia.
  - intros role _. destruct (negb _); [apply triple_ret; reflexivity|].
    rewrite Hname. intros c ok c' Hc. rewrite matchesNameFilter_unfold.
    rewrite Hname. revert c ok c' Hc.
    change (triple
              (let* accessibleName := accessibleNameOf d w fuel el in
               if truthy accessibleName then
                 if bool_decide (exact = Some true)
                 then ret (bool_decide (accessibleName = default "" name))
                 else ret (includes (toLowerCase accessibleName)
                                    (toLowerCase (default "" name)))
               else ret false)
              (fun ok => ok = false)).
    eapply triple_bind; [eapply accessibleNameOf_agree; eassumption|].
    intros nm ->. apply triple_ret. reflexivity.
Qed.

(** ** Caches from one call to the next *)

Lemma reachable_cache_ok (c : StyleCache) : reachable c -> cache_ok c.
Proof.
  induction 1 as [| d w parse document fuel root selector c r c' _ IH Hrun
                  | d w parse document fuel root selector c r c' _ IH Hrun].
  - apply cache_ok_empty.
  - eapply sim_preserves;
      [apply (sim_query d w parse document fuel fuel root selector); lia|..];
      eassumption.
  - eapply sim_preserves;
      [apply (sim_queryAll d w parse document fuel fuel root selector); lia|..];
      eassumption.
Qed.

(** C7, as the code has it.  The name cache and the visited set of a name
    computation are new in every call that passes none, as the calls of
    [matchesNameFilter] and [computeElementRole] do.  The style cache
    belongs to the engine and is kept from call to call, but it never
    decides a result: from any cache an engine can hold, [query] and
    [queryAll] return exactly what they return on a new engine, on whatever
    document the later call runs. *)
Theorem later_call_unaffected (c : StyleCache) (d : Dom) (w : WeakMaps)
    (parse : string -> option ParsedOptions.t) (document : node)
    (fuel : nat) (root : node) (selector : string) :
  reachable c ->
  (forall r,
      (exists c', query d w parse document fuel root selector c = Ok (r, c'))
      <-> (exists c', query d w parse document fuel root selector ∅
                      = Ok (r, c')))
  /\ (forall rs,
      (exists c', queryAll d w parse document fuel root selector c
                  = Ok (rs, c'))
      <-> (exists c', queryAll d w parse document fuel root selector ∅
                      = Ok (rs, c')))
  /\ (forall el r allow c1,
      computeAccessibleName d w fuel el
        {| knownRole := r; cache := None; visited := None;
           allowNameFromContent := allow |} c1
      = computeAccessibleName d w fuel el
          {| knownRole := r; cache := Some ∅; visited := Some ∅;
             allowNameFromContent := allow |} c1).
Proof.
  intros Hreach. apply reachable_cache_ok in Hreach.
  assert (Hq := sim_query d w parse document fuel fuel root selector
                  (Nat.le_refl _)).
  assert (Hqa := sim_queryAll d w parse document fuel fuel root selector
                   (Nat.le_refl _)).
  split; [|split].
  - intros r. split; intros [c' Hrun].
    + destruct (Hq _ ∅ _ _ Hreach cache_ok_empty Hrun) as (_ & c2 & E & _).
      eauto.
    + destruct (Hq _ c _ _ cache_ok_empty Hreach Hrun) as (_ & c2 & E & _).
      eauto.
  - intros rs. split; intros [c' Hrun].
    + destruct (Hqa _ ∅ _ _ Hreach cache_ok_empty Hrun) as (_ & c2 & E & _).
      eauto.
    + destruct (Hqa _ c _ _ cache_ok_empty Hreach Hrun) as (_ & c2 & E & _).
      eauto.
  - intros el r allow c1. destruct fuel; reflexivity.
Qed.

(** C7, as stated, fails for the style cache: the cache a first [query]
    leaves, with which the next call of the same engine starts, holds the
    style objects of the elements the first call looked at. *)
Lemma style_cache_persists :
  cacheAfter (query buttonsDoc scriptForInit buttonsParse 0 9 0 "button" ∅)
  = Some {[ 1 := 1; 2 := 2 ]}
  /\ reachable {[ 1 := 1; 2 := 2 ]}
  /\ ({[ 1 := 1; 2 := 2 ]} : StyleCache) <> ∅.
Proof.
  assert (E : query buttonsDoc scriptForInit buttonsParse 0 9 0 "button" ∅
              = Ok (Some 2, {[ 1 := 1; 2 := 2 ]})).
  { vm_compute. reflexivity. }
  split; [rewrite E; reflexivity|]. split.
  - exact (reachable_query _ _ _ _ _ _ _ _ _ _ reachable_new E).
  - intros H. apply (f_equal (fun m : StyleCache => m !! 1)) in H.
    vm_compute in H. discriminate.
Qed.

Lemma later_call_unaffected_witness :
  (exists c', query hiddenDoc scriptForInit buttonsParse 0 9 0 "button"
                {[ 1 := 1; 2 := 2 ]} = Ok (Some 5, c'))
  <-> (exists c', query hiddenDoc scriptForInit buttonsParse 0 9 0 "button"
                    ∅ = Ok (Some 5, c')).
Proof.
  apply (later_call_unaffected {[ 1 := 1; 2 := 2 ]} hiddenDoc scriptForInit
           buttonsParse 0 9 0 "button").
  apply (reachable_query buttonsDoc scriptForInit buttonsParse 0 9 0 "button"
           ∅ (Some 2) _ reachable_new).
  vm_compute. reflexivity.
Defined.

(** ** Computations that behave alike *)

Lemma eqM_refl {A} (m : M A) : eqM m m.
Proof. intros c. reflexivity. Qed.

Lemma eqM_bind {A B} (m1 m2 : M A) (k1 k2 : A -> M B) :
  eqM m1 m2 -> (forall a, eqM (k1 a) (k2 a)) -> eqM (bind m1 k1) (bind m2 k2).
Proof.
  intros Hm Hk c. unfold bind. rewrite Hm.
  destruct (m2 c) as [[a c']| |]; [apply Hk | reflexivity..].
Qed.

Lemma eqM_forEach {S R} (f g : node -> S -> M (Loop S R)) (l : list node) :
  (forall x s, eqM (f x s) (g x s)) ->
  forall s, eqM (forEach f l s) (forEach g l s).
Proof.
  intros Hfg. induction l as [|x l IH]; intros s; cbn [forEach];
    [apply eqM_refl|].
  apply eqM_bind; [apply Hfg|]. intros [s'|v]; [apply IH | apply eqM_refl].
Qed.

(** ** Termination of the name computation *)

Lemma returns_ret {A} (a : A) (Post : A -> Prop) :
  Post a -> returns (ret a) Post.
Proof. intros H c. exists a, c. auto. Qed.

Lemma returns_bind {A B} (m : M A) (k : A -> M B) (P : A -> Prop)
    (Q : B -> Prop) :
  returns m P -> (forall a, P a -> returns (k a) Q) -> returns (bind m k) Q.
Proof.
  intros Hm Hk c. destruct (Hm c) as (a & c1 & E & Ha).
  destruct (Hk a Ha c1) as (b & c2 & E2 & Hb).
  exists b, c2. unfold bind. rewrite E. auto.
Qed.

Lemma returns_weaken {A} (m : M A) (P Q : A -> Prop) :
  returns m P -> (forall a, P a -> Q a) -> returns m Q.
Proof.
  intros Hm HPQ c. destruct (Hm c) as (a & c' & E & Ha). eauto.
Qed.

Lemma returns_mapM {A B} (f : A -> M B) (l : list A) :
  (forall x, In x l -> returns (f x) (fun _ => True)) ->
  returns (mapM f l) (fun _ => True).
Proof.
  induction l as [|x l IH]; intros Hf; cbn [mapM].
  - apply returns_ret. exact I.
  - eapply returns_bind; [apply Hf; left; reflexivity|]. intros y _.
    eapply returns_bind; [apply IH; intros; apply Hf; right; assumption|].
    intros ys _. apply returns_ret. exact I.
Qed.

Lemma returns_mapRefs (f : node -> NameState -> M (string * NameState))
    (refs : list node) (v0 : gset node) :
  (forall ref st,
      In ref refs -> v0 ⊆ snd st ->
      returns (f ref st) (fun r => snd st ⊆ snd (snd r))) ->
  forall st,
    v0 ⊆ snd st ->
    returns (mapRefs f refs st) (fun r => snd st ⊆ snd (snd r)).
Proof.
  induction refs as [|ref refs IH]; intros Hf st Hst; cbn [mapRefs].
  - apply returns_ret. reflexivity.
  - eapply returns_bind; [apply Hf; [left; reflexivity | assumption]|].
    intros [text st'] Hst'. cbn [snd] in Hst'.
    eapply returns_bind.
    + apply IH; [|etrans; eassumption].
      intros r s Hin Hs. apply Hf; [right|]; assumption.
    + intros [texts st''] Hst''. cbn [snd] in Hst''.
      apply returns_ret. cbn [snd]. etrans; eassumption.
Qed.

Lemma unvisited_mono (N : nat) (v v' : gset node) :
  v ⊆ v' -> unvisited N v' <= unvisited N v.
Proof.
  intros H. unfold unvisited. apply subseteq_size.
  intros x. rewrite !elem_of_difference. intros [Hx Hv]. split; auto.
Qed.

Lemma unvisited_add (N : nat) (v : gset node) (el : node) :
  el < N -> el ∉ v -> unvisited N ({[el]} ∪ v) < unvisited N v.
Proof.
  intros Hlt Hv. unfold unvisited. apply subset_size. split.
  - intros x. rewrite !elem_of_difference, elem_of_union.
    intros [Hx Hn]. split; auto.
  - intros Hsub. specialize (Hsub el).
    rewrite !elem_of_difference, elem_of_union, elem_of_singleton,
      elem_of_set_seq in Hsub.
    destruct Hsub as [_ Hn]; [split; [lia | assumption]|].
    apply Hn. left. reflexivity.
Qed.

Lemma unvisited_le (N : nat) (v : gset node) : unvisited N v <= N.
Proof.
  unfold unvisited.
  rewrite <- (size_set_seq (C := gset node) 0 N) at 2.
  apply subseteq_size. intros x. rewrite elem_of_difference. tauto.
Qed.

Section Termination.

Variable d : Dom.
Variable w : WeakMaps.
Variables depth rank : node -> nat.
Variables D R N : nat.

Hypothesis depth_parent :
  forall n p, parentElement (d n) = Some p -> depth p < depth n.
Hypothesis depth_le : forall n, depth n <= D.
Hypothesis rank_children :
  forall n x, In x (textChildren d w n) -> rank x < rank n.
Hypothesis rank_le : forall n, rank n <= R.
Hypothesis refs_lt :
  forall el ref, In ref (labelledByElementsOf d w el) -> ref < N.

Lemma returns_computedStyleOf (n : node) :
  returns (computedStyleOf n) (fun _ => True).
Proof.
  intros c. unfold computedStyleOf. destruct (c !! n); eauto.
Qed.

Lemma returns_isElementHidden_from (fuel : nat) :
  forall node,
    (forall n, node = Some n -> depth n < fuel) ->
    returns (isElementHidden_from d fuel node) (fun _ => True).
Proof.
  induction fuel as [|fuel IH]; intros [n|] Hfuel;
    cbn [isElementHidden_from]; try (apply returns_ret; exact I).
  - specialize (Hfuel n eq_refl). lia.
  - assert (Hup : returns
                    (isElementHidden_from d fuel (parentElement (d n)))
                    (fun _ => True)).
    { apply IH. intros p Hp. apply depth_parent in Hp.
      specialize (Hfuel n eq_refl). lia. }
    destruct (instanceofElement d n); [|assumption].
    destruct (hasAttribute d n "hidden"); [apply returns_ret; exact I|].
    destruct (bool_decide _); [apply returns_ret; exact I|].
    eapply returns_bind; [apply returns_computedStyleOf|].
    intros computedStyle _.
    destruct (_ || _); [apply returns_ret; exact I|].
    destruct (_ && _); [apply returns_ret; exact I | assumption].
Qed.

Lemma returns_isElementHidden (fuel : nat) (n : node) :
  D < fuel -> returns (isElementHidden d fuel n) (fun _ => True).
Proof.
  intros H. apply returns_isElementHidden_from.
  intros m [= <-]. specialize (depth_le n). lia.
Qed.

Lemma returns_asText (fuel : nat) :
  forall n, rank n + D + 2 <= fuel ->
    returns (asText d w fuel n) (fun _ => True).
Proof.
  induction fuel as [|fuel IH]; intros n Hfuel; [lia|]. cbn [asText].
  assert (Hch : returns (mapM (asText d w fuel) (textChildren d w n))
                        (fun _ => True)).
  { apply returns_mapM. intros x Hx. apply IH.
    apply rank_children in Hx. lia. }
  unfold textChildren in Hch.
  destruct (nodeType (d n) =? TEXT_NODE); [apply returns_ret; exact I|].
  destruct (negb _); [apply returns_ret; exact I|].
  eapply returns_bind; [apply returns_isElementHidden; lia|].
  intros hidden _. destruct hidden; [apply returns_ret; exact I|].
  destruct (String.eqb (tagName (d n)) "IMG"); [apply returns_ret; exact I|].
  destruct (String.eqb (tagName (d n)) "INPUT").
  { destruct (has _ _); [apply returns_ret; exact I|].
    destruct (String.eqb _ _); apply returns_ret; exact I. }
  destruct (isHTMLSlotElement (d n) && _).
  { eapply returns_bind; [exact Hch|]. intros. apply returns_ret. exact I. }
  destruct (shadowdomMap w !! n);
    (eapply returns_bind; [exact Hch|]; intros; apply returns_ret; exact I).
Qed.

(** Fuel that lets [asText] return on every node. *)
Let K : nat := R + D + 2.

Lemma returns_asText_K (fuel : nat) (n : node) :
  K <= fuel -> returns (asText d w fuel n) (fun _ => True).
Proof.
  intros H. apply returns_asText. unfold K in H. specialize (rank_le n). lia.
Qed.

Lemma returns_associatedLabelText (fuel : nat) (el : node) :
  K <= fuel -> returns (associatedLabelText d w fuel el) (fun _ => True).
Proof.
  intros H. unfold associatedLabelText.
  assert (Hl : forall l, returns (mapM (asText d w fuel) l) (fun _ => True)).
  { intros l. apply returns_mapM. intros. apply returns_asText_K.
    assumption. }
  destruct (ownerDocument (d el)); [|apply returns_ret; exact I].
  assert (Hlabels :
            returns
              (match labels (d el) with
               | Some ls =>
                   let* texts := mapM (asText d w fuel) ls in
                   if truthy (normalize texts)
                   then ret (Some (normalize texts)) else ret None
               | None => ret None
               end) (fun _ => True)).
  { destruct (labels (d el)); [|apply returns_ret; exact I].
    eapply returns_bind; [apply Hl|]. intros texts _.
    destruct (truthy _); apply returns_ret; exact I. }
  destruct (truthy (id (d el))); [|exact Hlabels].
  eapply returns_bind; [apply Hl|]. intros texts _.
  destruct (truthy _); [apply returns_ret; exact I | exact Hlabels].
Qed.

Lemma returns_computeElementRole_with
    (computeName : node -> ComputeAccessibleNamesOptions
                   -> M (string * NameState)) (el : node) :
  (forall o, knownRole o <> None -> visited o = None ->
             returns (computeName el o) (fun _ => True)) ->
  returns (computeElementRole_with d w computeName el) (fun _ => True).
Proof.
  intros Hname. unfold computeElementRole_with.
  destruct (truthyOpt _); [apply returns_ret; exact I|].
  destruct (assoc _ tagRoles); [apply returns_ret; exact I|].
  destruct (String.eqb _ "INPUT"); [apply returns_ret; exact I|].
  destruct (String.eqb _ "SECTION").
  { eapply returns_bind; [apply Hname; [discriminate | reflexivity]|].
    intros [name st] _. apply returns_ret. exact I. }
  destruct (String.eqb _ "SELECT"); [apply returns_ret; exact I|].
  destruct (String.eqb _ "A"); [apply returns_ret; exact I|].
  destruct (_ ≫= role) as [r|]; [|apply returns_ret; exact I].
  destruct (truthy r); apply returns_ret; exact I.
Qed.

(** The name computation returns once its fuel covers the elements it has
    not visited, [B] more for the role computation of step 4 when the
    role is not known ([okRole]), and what [asText] needs. *)
Lemma returns_computeAccessibleName_gen
    (okRole : option string -> Prop) (B : nat) :
  (forall fuel el, el < N -> B <= fuel ->
     returns (computeElementRole_with d w (computeAccessibleName d w fuel) el)
             (fun _ => True)) \/ (forall r, okRole r -> r <> None) ->
  forall fuel el opts,
    okRole (knownRole opts) ->
    el < N ->
    unvisited N (default ∅ (visited opts)) + B + K + 1 <= fuel ->
    returns (computeAccessibleName d w fuel el opts)
            (fun r => default ∅ (visited opts) ⊆ snd (snd r)).
Proof.
  intros Hrole.
  induction fuel as [|fuel IH]; intros el opts Hok Hel Hfuel; [lia|].
  cbn [computeAccessibleName].
  lazymatch goal with
  | |- returns (match ?x with Some _ => _ | None => _ end) _ =>
      destruct x as [cached|]
  end; [apply returns_ret; cbv beta; cbn [snd]; reflexivity|].
  lazymatch goal with
  | |- returns (if ?b then _ else _) _ => destruct b eqn:Hvis
  end; [apply returns_ret; cbv beta; cbn [snd]; reflexivity|].
  apply bool_decide_eq_false in Hvis.
  pose proof (unvisited_add N _ el Hel Hvis) as Hadd.
  remember (default ∅ (visited opts)) as visited0 eqn:Hvisited0.
  clear Hvisited0.
  eapply returns_bind.
  - apply (returns_mapRefs _ _ ({[el]} ∪ visited0)); [|reflexivity].
    intros ref st Hin Hst. cbn [snd].
    eapply returns_weaken.
    + apply IH; cbn [knownRole visited]; [assumption | eauto |].
      change (default ∅ (Some (snd st))) with (snd st).
      pose proof (unvisited_mono N _ _ Hst) as Hmono.
      apply (Nat.le_lt_trans _ _ _ Hmono) in Hadd. lia.
    + intros r Hr. exact Hr.
  - intros [texts [cache1 visited2]] Hsub. cbn [snd] in Hsub.
    assert (Hout : visited0 ⊆ visited2).
    { etrans; [apply union_subseteq_r | exact Hsub]. }
    assert (Hret : forall text,
               returns (cacheAndReturn cache1 visited2 el text)
                       (fun r => visited0 ⊆ snd (snd r))).
    { intros text. apply returns_ret. cbv beta. cbn [snd]. exact Hout. }
    assert (Htext : returns (asText d w fuel el) (fun _ => True)).
    { apply returns_asText_K. lia. }
    destruct (_ && truthy (normalize texts)); [apply Hret|].
    destruct (truthy (trim _)); [apply Hret|].
    eapply returns_bind; [apply returns_associatedLabelText; lia|].
    intros assoc _.
    destruct (truthyOpt assoc); [apply Hret|].
    destruct (_ && truthy (alt (d el))); [apply Hret|].
    destruct (_ && truthy (alt (d el))); [apply Hret|].
    destruct (_ && truthy (value (d el))); [apply Hret|].
    destruct (_ && truthy (title (d el))); [apply Hret|].
    assert (Hfallback :
              returns
                (let* text := asText d w fuel el in
                 cacheAndReturn cache1 visited2 el
                   (if truthy text then text else ""))
                (fun r => visited0 ⊆ snd (snd r))).
    { eapply returns_bind; [exact Htext|]. intros text _. apply Hret. }
    eapply returns_bind with (P := fun _ => True).
    + destruct (knownRole opts) as [r|] eqn:Hknown;
        [apply returns_ret; exact I|].
      destruct Hrole as [Hrole|Hrole]; [apply Hrole; [assumption | lia]|].
      exfalso. exact (Hrole None Hok eq_refl).
    + intros role _.
      destruct (_ && has rolesAllowingNameFromContent _);
        [|exact Hfallback].
      eapply returns_bind; [exact Htext|]. intros text _.
      destruct (truthy text); [apply Hret | exact Hfallback].
Qed.

(** With a known role, the fuel need not cover a role computation. *)
Lemma returns_computeAccessibleName_known (fuel : nat) (el : node)
    (opts : ComputeAccessibleNamesOptions) :
  knownRole opts <> None ->
  el < N ->
  unvisited N (default ∅ (visited opts)) + K + 1 <= fuel ->
  returns (computeAccessibleName d w fuel el opts) (fun _ => True).
Proof.
  intros Hknown Hel Hfuel. eapply returns_weaken.
  - apply (returns_computeAccessibleName_gen (fun r => r <> None) 0);
      [right; auto | assumption | assumption | lia].
  - auto.
Qed.

Lemma returns_computeElementRole_N (fuel : nat) (el : node) :
  el < N ->
  N + K + 1 <= fuel ->
  returns (computeElementRole_with d w (computeAccessibleName d w fuel) el)
          (fun _ => True).
Proof.
  intros Hel Hfuel. apply returns_computeElementRole_with.
  intros o Hknown Hvisited.
  apply returns_computeAccessibleName_known; [assumption..|].
  rewrite Hvisited. pose proof (unvisited_le N ∅). cbn [default]. lia.
Qed.

Lemma returns_computeAccessibleName (fuel : nat) (el : node)
    (opts : ComputeAccessibleNamesOptions) :
  el < N ->
  N + (N + K + 1) + K + 1 <= fuel ->
  returns (computeAccessibleName d w fuel el opts) (fun _ => True).
Proof.
  intros Hel Hfuel. eapply returns_weaken.
  - apply (returns_computeAccessibleName_gen (fun _ => True) (N + K + 1));
      [left; intros; apply returns_computeElementRole_N; assumption
      | exact I | assumption |].
    pose proof (unvisited_le N (default ∅ (visited opts))). lia.
  - auto.
Qed.

End Termination.

(** C4. On a well-formed document the name computation returns on every
    element and every options object once it has enough fuel, however the
    elements name each other; and an element that is met again while its
    own name is being computed (visited, not yet cached) resolves to the
    empty string at once, leaving cache and visited set as they are. *)
Theorem computeAccessibleName_terminates (d : Dom) (w : WeakMaps) :
  wellFormed d w ->
  (forall el opts,
      exists fuel0, forall fuel c,
        fuel0 <= fuel ->
        exists name st c',
          computeAccessibleName d w fuel el opts c = Ok (name, st, c'))
  /\ (forall fuel el opts c,
        default ∅ (cache opts) !! el = None ->
        el ∈ default ∅ (visited opts) ->
        computeAccessibleName d w (S fuel) el opts c
        = Ok ("", (default ∅ (cache opts), default ∅ (visited opts)), c)).
Proof.
  intros (depth & rank & D & R & N & Hdepth & HD & Hrank & HR & Hrefs).
  split.
  - intros el opts.
    set (N' := max N (S el)).
    assert (Hrefs' : forall x ref,
               In ref (labelledByElementsOf d w x) -> ref < N').
    { intros x ref Hin. apply Hrefs in Hin. unfold N'. lia. }
    exists (N' + (N' + (R + D + 2) + 1) + (R + D + 2) + 1).
    intros fuel c Hfuel.
    destruct (returns_computeAccessibleName d w depth rank D R N'
                Hdepth HD Hrank HR Hrefs' fuel el opts) with (c := c)
      as ([name st] & c' & E & _); [unfold N'; lia | assumption |].
    eauto.
  - intros fuel el opts c Hcache Hvisited. cbn [computeAccessibleName].
    rewrite Hcache, (bool_decide_eq_true_2 _ Hvisited). reflexivity.
Qed.

Lemma mutualDoc_wellFormed : wellFormed mutualDoc scriptForInit.
Proof.
  exists (fun n => match n with 2 => 1 | 4 => 1 | _ => 0 end),
         (fun n => match n with 0 => 3 | 1 => 2 | 2 => 1 | 4 => 1 | _ => 0 end),
         1, 3, 5.
  split; [|split; [|split; [|split]]].
  - intros [|[|[|[|[|[|[|n]]]]]]] p H; vm_compute in H; inversion H; cbn; lia.
  - intros [|[|[|[|[|n]]]]]; cbn; lia.
  - intros n x. unfold textChildren. cbn [shadowdomMap scriptForInit].
    rewrite lookup_empty.
    destruct n as [|[|[|[|[|[|[|n]]]]]]]; vm_compute;
      intros H; repeat (destruct H as [<-|H]; [cbn; lia|]); destruct H.
  - intros [|[|[|[|[|n]]]]]; cbn; lia.
  - intros el ref. unfold labelledByElementsOf.
    cbn [internalsMap scriptForInit]. rewrite lookup_empty.
    destruct el as [|[|[|[|[|[|[|el]]]]]]]; vm_compute;
      intros H; repeat (destruct H as [<-|H]; [lia|]); destruct H.
Qed.

Lemma computeAccessibleName_terminates_witness :
  exists fuel0, forall fuel c,
    fuel0 <= fuel ->
    exists name st c',
      computeAccessibleName mutualDoc scriptForInit fuel 2 noOptions c
      = Ok (name, st, c').
Proof.
  exact (proj1 (computeAccessibleName_terminates mutualDoc scriptForInit
                  mutualDoc_wellFormed) 2 noOptions).
Defined.

(** The two elements of [mutualDoc] name each other: the name of the first
    is the text of the second, whose own reference back resolved to the
    empty string. *)
Example mutualDoc_names :
  returned (computeAccessibleName mutualDoc scriptForInit 9 2 noOptions ∅)
  = Some ("Beta", ({[ 2 := "Beta"; 4 := "Beta" ]}, {[ 2; 4 ]}))
  /\ returned (computeAccessibleName mutualDoc scriptForInit 9 2
                 {| knownRole := None; cache := Some ∅;
                    visited := Some {[ 2; 4 ]};
                    allowNameFromContent := Some true |} ∅)
     = Some ("", (∅, {[ 2; 4 ]})).
Proof. vm_compute. split; reflexivity. Qed.


(** ** Termination of the traversal *)

Lemma returns_forEach {S R} (Inv : S -> Prop)
    (f : node -> S -> M (Loop S R)) (l : list node) :
  (forall x s, In x l -> Inv s -> returns (f x s) (loopPost Inv (fun _ => True))) ->
  forall s, Inv s -> returns (forEach f l s) (loopPost Inv (fun _ => True)).
Proof.
  induction l as [|x l IH]; intros Hf s Hs; cbn [forEach].
  - apply returns_ret. exact Hs.
  - eapply returns_bind; [apply Hf; [left; reflexivity | assumption]|].
    intros [s'|v] Hr; cbn [loopPost] in Hr.
    + apply IH; [|assumption]. intros y t Hy Ht. apply Hf; [right|]; assumption.
    + apply returns_ret. exact I.
Qed.

Section Traversal.

Variable d : Dom.
Variable w : WeakMaps.
Variables depth : node -> nat.
Variables D N : nat.

Hypothesis depth_parent :
  forall n p, parentElement (d n) = Some p -> depth p < depth n.
Hypothesis depth_le : forall n, depth n <= D.
Hypothesis nodes_lt :
  forall n x, In x (traversalChildren d w n) -> x < N.

(** The traversal returns once its fuel covers the nodes it has not
    visited and one run of [isElementHidden], if the loop body returns on
    every node below [N]. *)
Lemma returns_getElements {A R} (yield : node -> A -> M (Loop A R)) :
  (forall (x : node) acc, x < N -> returns (yield x acc) (fun _ => True)) ->
  forall fuel (n doc : node) v acc,
    n < N ->
    unvisited N v + D + 1 <= fuel ->
    returns (getElements d w fuel yield n doc (v, acc))
            (loopPost (fun st => v ⊆ fst st) (fun _ => True)).
Proof.
  intros Hy. induction fuel as [|fuel IH]; intros n doc v acc Hn Hfuel;
    [lia|].
  cbn [getElements].
  destruct (bool_decide (n ∈ v)) eqn:Hv;
    [apply returns_ret; cbn [loopPost fst]; reflexivity|].
  apply bool_decide_eq_false in Hv.
  pose proof (unvisited_add N v n Hn Hv) as Hadd.
  assert (Hsub : v ⊆ {[n]} ∪ v) by apply union_subseteq_r.
  assert (Hrec : forall (x : node) acc' v',
             x < N -> {[n]} ∪ v ⊆ v' ->
             returns (getElements d w fuel yield x doc (v', acc'))
                     (loopPost (fun st => {[n]} ∪ v ⊆ fst st)
                               (fun _ => True))).
  { intros x acc' v' Hx Hv'. eapply returns_weaken.
    - apply IH; [assumption|].
      pose proof (unvisited_mono N _ _ Hv') as Hmono.
      pose proof (Nat.le_lt_trans _ _ _ Hmono Hadd). lia.
    - intros [[v'' a'']|r] Hr; cbn [loopPost fst] in *; [|exact I].
      etrans; eassumption. }
  assert (Hloop : forall l acc',
             (forall x, In x l -> In x (traversalChildren d w n)) ->
             returns (forEach (fun x => getElements d w fuel yield x doc) l
                              ({[n]} ∪ v, acc'))
                     (loopPost (fun st => v ⊆ fst st) (fun _ => True))).
  { intros l acc' Hl. eapply returns_weaken.
    - apply (returns_forEach (fun st => {[n]} ∪ v ⊆ fst st));
        [|cbn [fst]; reflexivity].
      intros x [v' a'] Hx Hv'. cbn [fst] in Hv'.
      apply Hrec; [|assumption]. eapply nodes_lt. apply Hl. exact Hx.
    - intros [[v'' a'']|r] Hr; cbn [loopPost fst] in *; [|exact I].
      etrans; eassumption. }
  assert (Hdone : forall acc',
             returns (ret (@Continue (gset node * A) R ({[n]} ∪ v, acc')))
                     (loopPost (fun st => v ⊆ fst st) (fun _ => True))).
  { intros acc'. apply returns_ret. exact Hsub. }
  assert (Hchildren : forall l, In l (childNodes (d n)) ->
                                In l (traversalChildren d w n)).
  { intros l Hl. unfold traversalChildren. apply in_or_app. left. exact Hl. }
  destruct (instanceofElement d n).
  - eapply returns_bind with (P := fun _ => True);
      [apply returns_isElementHidden with (depth := depth) (D := D);
       [assumption | assumption | lia]|].
    intros [|] _; cbn [negb andb orb].
    + rewrite andb_false_r. apply Hdone.
    + eapply returns_bind with (P := fun _ => True); [apply Hy; assumption|].
      intros [acc1|r] _; [|apply returns_ret; exact I].
      destruct (isHTMLSlotElement (d n) && _).
      { apply Hloop. intros x Hx. unfold traversalChildren.
        apply in_or_app. right. apply in_or_app. left. exact Hx. }
      destruct (shadowdomMap w !! n) as [shadowRoot|] eqn:Hroot.
      { eapply returns_weaken.
        - apply Hrec; [|reflexivity]. apply (nodes_lt n).
          unfold traversalChildren. rewrite Hroot.
          apply in_or_app. right. apply in_or_app. right. left. reflexivity.
        - intros [[v'' a'']|r] Hr; cbn [loopPost fst] in *; [|exact I].
          etrans; eassumption. }
      destruct (isSelectorRoot d n && _); [apply Hloop; assumption|].
      apply Hdone.
  - eapply returns_bind with (P := fun _ => True);
      [apply returns_ret; exact I|].
    intros b _. cbn [negb andb orb].
    destruct (isSelectorRoot d n && _); [apply Hloop; assumption|].
    apply Hdone.
Qed.

End Traversal.

(** On a well-formed document whose nodes lie below a bound, [query] and
    [queryAll] return for every payload that parses, once they have enough
    fuel. *)
Theorem query_returns (d : Dom) (w : WeakMaps)
    (parse : string -> option ParsedOptions.t) (document : node)
    (root : node) (selector : string) :
  wellFormed d w -> traversable d w ->
  is_Some (parse selector) ->
  exists fuel0, forall fuel c,
    fuel0 <= fuel ->
    (exists r c', query d w parse document fuel root selector c = Ok (r, c'))
    /\ (exists rs c',
          queryAll d w parse document fuel root selector c = Ok (rs, c')).
Proof.
  intros (depth & rank & D & R & N1 & Hdepth & HD & Hrank & HR & Hrefs)
         [N2 Hnodes] [p Hp].
  set (N := max (max N1 N2) (S root)).
  assert (Hrefs' : forall x ref,
             In ref (labelledByElementsOf d w x) -> ref < N).
  { intros x ref Hin. apply Hrefs in Hin. unfold N. lia. }
  assert (Hnodes' : forall n x, In x (traversalChildren d w n) -> x < N).
  { intros n x Hin. apply Hnodes in Hin. unfold N. lia. }
  assert (Hroot : root < N) by (unfold N; lia).
  exists (N + (N + (R + D + 2) + 1) + (R + D + 2) + 1).
  intros fuel c Hfuel.
  assert (Hmatches : forall r name exact (x : node),
             x < N ->
             returns (matches d w fuel r name exact x) (fun _ => True)).
  { intros r name exact x Hx. unfold matches.
    assert (Hrole : returns (computeElementRole d w fuel x) (fun _ => True)).
    { apply (returns_computeElementRole_N d w depth rank D R N
               Hdepth HD Hrank HR Hrefs'); [assumption | lia]. }
    eapply returns_bind; [exact Hrole|]. intros elementRole _.
    destruct (negb _); [apply returns_ret; exact I|].
    destruct (truthyOpt name) eqn:Hname; [|apply returns_ret; exact I].
    unfold matchesNameFilter. rewrite Hname.
    eapply returns_bind; [exact Hrole|]. intros accessibleRole _.
    eapply returns_bind.
    - apply (returns_computeAccessibleName d w depth rank D R N
               Hdepth HD Hrank HR Hrefs'); [assumption | lia].
    - intros [accessibleName st] _.
      destruct (truthy accessibleName); [|apply returns_ret; exact I].
      destruct (bool_decide _); apply returns_ret; exact I. }
  assert (Hfuel' : unvisited N ∅ + D + 1 <= fuel).
  { pose proof (unvisited_le N ∅). lia. }
  assert (Hq : returns (query d w parse document fuel root selector)
                       (fun _ => True)).
  { unfold query. rewrite Hp.
    destruct (negb _); [apply returns_ret; exact I|].
    eapply returns_bind.
    - apply (returns_getElements d w depth D N Hdepth HD Hnodes');
        [|assumption | exact Hfuel'].
      intros x [] Hx. eapply returns_bind; [apply Hmatches; assumption|].
      intros [|] _; apply returns_ret; exact I.
    - intros [[v []]|e] _; apply returns_ret; exact I. }
  assert (Hqa : returns (queryAll d w parse document fuel root selector)
                        (fun _ => True)).
  { unfold queryAll. rewrite Hp.
    destruct (negb _); [apply returns_ret; exact I|].
    eapply returns_bind.
    - apply (returns_getElements d w depth D N Hdepth HD Hnodes');
        [|assumption | exact Hfuel'].
      intros x rs Hx. eapply returns_bind; [apply Hmatches; assumption|].
      intros [|] _; apply returns_ret; exact I.
    - intros [[v rs]|[]] _. apply returns_ret. exact I. }
  destruct (Hq c) as (r & c1 & E1 & _).
  destruct (Hqa c) as (rs & c2 & E2 & _).
  eauto 6.
Qed.

Lemma buttonsDoc_wellFormed : wellFormed buttonsDoc scriptForInit.
Proof.
  exists (fun n => match n with 2 => 1 | 3 => 1 | _ => 0 end),
         (fun n => match n with 0 => 3 | 1 => 2 | 3 => 1 | _ => 0 end),
         1, 3, 0.
  split; [|split; [|split; [|split]]].
  - intros [|[|[|[|[|[|n]]]]]] p H; vm_compute in H; inversion H; cbn; lia.
  - intros [|[|[|[|n]]]]; cbn; lia.
  - intros n x. unfold textChildren. cbn [shadowdomMap scriptForInit].
    rewrite lookup_empty.
    destruct n as [|[|[|[|[|[|n]]]]]]; vm_compute;
      intros H; repeat (destruct H as [<-|H]; [cbn; lia|]); destruct H.
  - intros [|[|[|[|n]]]]; cbn; lia.
  - intros el ref. unfold labelledByElementsOf.
    cbn [internalsMap scriptForInit]. rewrite lookup_empty.
    destruct el as [|[|[|[|[|[|el]]]]]]; vm_compute; intros H; destruct H.
Qed.

Lemma buttonsDoc_traversable : traversable buttonsDoc scriptForInit.
Proof.
  exists 5. intros n x. unfold traversalChildren.
  cbn [shadowdomMap scriptForInit]. rewrite lookup_empty.
  destruct n as [|[|[|[|[|[|n]]]]]]; vm_compute;
    intros H; repeat (destruct H as [<-|H]; [cbn; lia|]); destruct H.
Qed.

Example buttonsDoc_query_returns :
  exists fuel0, forall fuel c,
    fuel0 <= fuel ->
    (exists r c',
        query buttonsDoc scriptForInit buttonsParse 0 fuel 0 "go" c
        = Ok (r, c'))
    /\ (exists rs c',
          queryAll buttonsDoc scriptForInit buttonsParse 0 fuel 0 "go" c
          = Ok (rs, c')).
Proof.
  apply query_returns;
    [apply buttonsDoc_wellFormed | apply buttonsDoc_traversable | eexists].
  reflexivity.
Qed.

(** * Further properties *)

(** ** Visibility, both ways *)

Lemma hiddenHere_hiddenBy (d : Dom) (a : node) :
  hiddenHere d a = true -> hiddenBy d a.
Proof.
  unfold hiddenHere. intros H.
  apply orb_true_iff in H as [H|H]; [|apply andb_true_iff in H as [H1 H2];
                                       apply hidden_inert; assumption].
  apply orb_true_iff in H as [H|H];
    [|apply hidden_visibility; apply String.eqb_eq; assumption].
  apply orb_true_iff in H as [H|H];
    [|apply hidden_display; apply String.eqb_eq; assumption].
  apply orb_true_iff in H as [H|H];
    [apply hidden_attribute; assumption|].
  apply hidden_aria. apply bool_decide_eq_true in H. assumption.
Qed.

Lemma isElementHidden_true_inv (d : Dom) (fuel : nat) :
  forall n c c',
    cache_ok c -> isElementHidden d fuel n c = Ok (true, c') ->
    hiddenElement d n.
Proof.
  unfold isElementHidden.
  induction fuel as [|fuel IH]; intros n c c' Hc Hrun; [discriminate|].
  destruct (isElementHidden_from_step d fuel n c Hc) as (c1 & Hc1 & E).
  rewrite E in Hrun. clear E.
  destruct (instanceofElement d n && hiddenHere d n) eqn:Hhere.
  - apply andb_true_iff in Hhere as [Hel Hhid].
    exists n. split; [constructor|]. split; [assumption|].
    apply hiddenHere_hiddenBy. assumption.
  - destruct (parentElement (d n)) as [p|] eqn:Hp.
    + destruct (IH p c1 c' Hc1 Hrun) as (a & Hanc & Hel & Hhid).
      exists a. split; [|auto]. econstructor; eassumption.
    + destruct fuel; discriminate.
Qed.

(** X1. Whenever [isElementHidden] returns, it returns [true] exactly for
    the nodes that have, on their [parentElement] chain or in themselves,
    an element with a [hidden] attribute, [aria-hidden="true"], computed
    display [none], computed visibility [hidden], or the inert flag of an
    HTML element. *)
Theorem isElementHidden_iff (d : Dom) (fuel : nat) (n : node)
    (c c' : StyleCache) (b : bool) :
  cache_ok c ->
  isElementHidden d fuel n c = Ok (b, c') ->
  (b = true <-> hiddenElement d n).
Proof.
  intros Hc Hrun. split.
  - intros ->. eapply isElementHidden_true_inv; eassumption.
  - intros (a & Hanc & Hel & Hhid). destruct b; [reflexivity|].
    exfalso. eapply isElementHidden_false_inv; eassumption.
Qed.

Lemma isElementHidden_iff_witness :
  (true = true <-> hiddenElement hiddenDoc 3)
  /\ (false = true <-> hiddenElement hiddenDoc 5).
Proof.
  split.
  - apply (isElementHidden_iff hiddenDoc 9 3 ∅ {[ 3 := 3 ]} true).
    + apply cache_ok_empty.
    + vm_compute. reflexivity.
  - apply (isElementHidden_iff hiddenDoc 9 5 ∅ {[ 1 := 1; 5 := 5 ]} false).
    + apply cache_ok_empty.
    + vm_compute. reflexivity.
Defined.

(** X2. The text of a hidden element is empty: with enough fuel [asText]
    returns the empty string for every element that is hidden by itself or
    by an ancestor, so a hidden subtree adds nothing to the text or the name
    of what contains it. *)
Theorem hidden_text_empty (d : Dom) (w : WeakMaps) (n : node) :
  instanceofElement d n = true ->
  hiddenElement d n ->
  exists fuel0, forall fuel c,
    fuel0 <= fuel -> cache_ok c ->
    exists c', asText d w fuel n c = Ok ("", c').
Proof.
  intros Hel (a & Hanc & Hela & Hhid).
  destruct (isElementHidden_true d n a Hanc Hela Hhid) as [fuel0 Hf].
  exists (S fuel0). intros [|fuel] c Hle Hc; [lia|].
  destruct (Hf fuel c ltac:(lia) Hc) as (c' & Hrun & _).
  exists c'. cbn [asText]. unfold isElement.
  assert (Hnt : nodeType (d n) = ELEMENT_NODE).
  { apply Nat.eqb_eq. exact Hel. }
  rewrite Hnt. cbn [Nat.eqb ELEMENT_NODE TEXT_NODE negb].
  unfold bind. rewrite Hrun. reflexivity.
Qed.

Lemma hidden_text_empty_witness :
  exists fuel0, forall fuel c,
    fuel0 <= fuel -> cache_ok c ->
    exists c', asText hiddenDoc scriptForInit fuel 3 c = Ok ("", c').
Proof.
  apply (hidden_text_empty hiddenDoc scriptForInit 3).
  - reflexivity.
  - exists 2. split; [|split].
    + apply (ancestor_parent hiddenDoc 3 2 2); [reflexivity | constructor].
    + reflexivity.
    + apply hidden_attribute. reflexivity.
Defined.

Example hidden_text_not_in_parent :
  returned (asText hiddenDoc scriptForInit 9 1 ∅) = Some "Send".
Proof. vm_compute. reflexivity. Qed.

(** ** Normalized text *)

Lemma append_cons (a : ascii) (s t : string) :
  String a s +:+ t = String a (s +:+ t).
Proof. reflexivity. Qed.

Lemma append_empty_r (s : string) : s +:+ "" = s.
Proof. induction s as [|a s IH]; [reflexivity|]. rewrite append_cons, IH. reflexivity. Qed.

Lemma append_assoc (s t u : string) : (s +:+ t) +:+ u = s +:+ (t +:+ u).
Proof.
  induction s as [|a s IH]; [reflexivity|].
  rewrite !append_cons, IH. reflexivity.
Qed.

Lemma append_eq_empty (s t : string) : s +:+ t = "" -> s = "" /\ t = "".
Proof. destruct s; [intros H; split; [reflexivity | exact H] | discriminate]. Qed.

Lemma truthy_true (s : string) : truthy s = true <-> s <> "".
Proof.
  unfold truthy. destruct (String.eqb_spec s ""); split; intros; simpl in *;
    congruence.
Qed.

Lemma truthy_false (s : string) : truthy s = false <-> s = "".
Proof.
  unfold truthy. destruct (String.eqb_spec s ""); split; intros; simpl in *;
    congruence.
Qed.

Lemma rev_app_spec (s t : string) :
  String.rev_app s t = String.rev s +:+ t.
Proof.
  unfold String.rev. revert t.
  induction s as [|a s IH]; intros t; cbn [String.rev_app]; [reflexivity|].
  rewrite (IH (String a t)), (IH (String a "")), append_assoc. reflexivity.
Qed.

Lemma rev_cons (a : ascii) (s : string) :
  String.rev (String a s) = String.rev s +:+ String a "".
Proof. unfold String.rev at 1. cbn [String.rev_app]. apply rev_app_spec. Qed.

Lemma rev_app_append (s t u : string) :
  String.rev_app (s +:+ t) u = String.rev_app t (String.rev_app s u).
Proof.
  revert u. induction s as [|a s IH]; intros u; [reflexivity|].
  rewrite append_cons. cbn [String.rev_app]. apply IH.
Qed.

Lemma rev_snoc (s : string) (a : ascii) :
  String.rev (s +:+ String a "") = String a (String.rev s).
Proof. unfold String.rev. rewrite rev_app_append. reflexivity. Qed.

Lemma rev_eq_empty (s : string) : String.rev s = "" -> s = "".
Proof.
  destruct s as [|a s]; [reflexivity|]. rewrite rev_cons.
  intros H. apply append_eq_empty in H as [_ H]. discriminate.
Qed.

Lemma trimStart_append (s t : string) :
  trimStart (s +:+ t)
  = if String.eqb (trimStart s) "" then trimStart t else trimStart s +:+ t.
Proof.
  induction s as [|a s IH]; [reflexivity|].
  rewrite append_cons. cbn [trimStart].
  destruct (isWhiteSpace a); [exact IH | reflexivity].
Qed.

(** [trimEnd], read from the front. *)
Lemma trimEnd_cons (a : ascii) (s : string) :
  trimEnd (String a s)
  = if isWhiteSpace a && String.eqb (trimEnd s) "" then ""
    else String a (trimEnd s).
Proof.
  unfold trimEnd. rewrite rev_cons, trimStart_append.
  destruct (String.eqb_spec (trimStart (String.rev s)) "") as [E|E].
  - rewrite E. cbn [trimStart].
    destruct (isWhiteSpace a); reflexivity.
  - rewrite rev_snoc.
    destruct (String.eqb_spec (String.rev (trimStart (String.rev s))) "")
      as [E'|E']; [apply rev_eq_empty in E'; contradiction|].
    rewrite andb_false_r. reflexivity.
Qed.

Lemma trimEnd_endsClean (s : string) : endsClean (trimEnd s) = true.
Proof.
  induction s as [|a s IH]; [reflexivity|]. rewrite trimEnd_cons.
  destruct (isWhiteSpace a) eqn:Ha; cbn [andb].
  - destruct (String.eqb_spec (trimEnd s) "") as [E|E]; [reflexivity|].
    cbn [endsClean]. destruct (trimEnd s); [contradiction | exact IH].
  - cbn [endsClean]. destruct (trimEnd s); [rewrite Ha; reflexivity | exact IH].
Qed.

Lemma trimEnd_clean (s : string) : endsClean s = true -> trimEnd s = s.
Proof.
  induction s as [|a s IH]; [reflexivity|]. intros H. rewrite trimEnd_cons.
  cbn [endsClean] in H. destruct s as [|b s].
  - apply negb_true_iff in H. rewrite H. reflexivity.
  - rewrite (IH H). rewrite andb_false_r. reflexivity.
Qed.

Lemma trimEnd_startsClean (s : string) :
  startsClean s = true -> startsClean (trimEnd s) = true.
Proof.
  destruct s as [|a s]; [reflexivity|]. cbn [startsClean]. intros H.
  rewrite trimEnd_cons. apply negb_true_iff in H. rewrite H. cbn [andb startsClean].
  rewrite H. reflexivity.
Qed.

Lemma trimStart_startsClean (s : string) : startsClean (trimStart s) = true.
Proof.
  induction s as [|a s IH]; [reflexivity|]. cbn [trimStart].
  destruct (isWhiteSpace a) eqn:Ha; [exact IH|]. cbn [startsClean].
  rewrite Ha. reflexivity.
Qed.

Lemma trimStart_clean (s : string) : startsClean s = true -> trimStart s = s.
Proof.
  destruct s as [|a s]; [reflexivity|]. cbn [startsClean trimStart].
  intros H. apply negb_true_iff in H. rewrite H. reflexivity.
Qed.

Lemma trim_clean (s : string) :
  startsClean s = true -> endsClean s = true -> trim s = s.
Proof.
  intros Hs He. unfold trim. rewrite (trimStart_clean s Hs).
  apply trimEnd_clean. exact He.
Qed.

Lemma normalized_from_endsClean (s : string) :
  forall b, normalized_from b s = true -> endsClean s = true.
Proof.
  induction s as [|a s IH]; intros b H; [reflexivity|].
  cbn [normalized_from] in H. cbn [endsClean].
  destruct (isWhiteSpace a) eqn:Ha.
  - apply andb_true_iff in H as [_ H].
    destruct s; [discriminate | exact (IH _ H)].
  - destruct s; [reflexivity | exact (IH _ H)].
Qed.

Lemma normalized_from_startsClean (s : string) :
  normalized_from true s = true -> startsClean s = true /\ s <> "".
Proof.
  destruct s as [|a s]; [discriminate|]. cbn [normalized_from startsClean].
  destruct (isWhiteSpace a); [discriminate|]. intros _. split; [reflexivity|discriminate].
Qed.

Lemma replaceRuns_normalized (s : string) :
  forall b, normalized_from b s = true -> replaceRuns b s = s.
Proof.
  induction s as [|a s IH]; intros b H; [reflexivity|].
  cbn [normalized_from] in H. cbn [replaceRuns].
  destruct (isWhiteSpace a).
  - apply andb_true_iff in H as [H Hs]. apply andb_true_iff in H as [Hb Ha].
    apply negb_true_iff in Hb. subst b.
    apply Ascii.eqb_eq in Ha. subst a. rewrite (IH _ Hs). reflexivity.
  - rewrite (IH _ H). reflexivity.
Qed.

Lemma replaceRuns_flag (s : string) (b : bool) :
  startsClean s = true -> replaceRuns b s = replaceRuns false s.
Proof.
  destruct s as [|a s]; [reflexivity|]. cbn [startsClean replaceRuns].
  intros H. apply negb_true_iff in H. rewrite H. reflexivity.
Qed.

Lemma replaceRuns_gives_normalized (s : string) :
  forall b,
    endsClean s = true -> (b = true -> s <> "") ->
    normalized_from b (replaceRuns b s) = true.
Proof.
  induction s as [|a s IH]; intros b He Hb.
  - destruct b; [exfalso; apply Hb; reflexivity | reflexivity].
  - cbn [replaceRuns]. cbn [endsClean] in He.
    destruct (isWhiteSpace a) eqn:Ha.
    + assert (Hs : s <> "").
      { destruct s; [discriminate He | discriminate]. }
      assert (He' : endsClean s = true) by (destruct s; [contradiction | exact He]).
      destruct b.
      * apply IH; auto.
      * cbn [normalized_from]. change (isWhiteSpace " ") with true.
        cbn [negb andb]. change (Ascii.eqb " " " ") with true.
        apply IH; auto.
    + cbn [normalized_from]. rewrite Ha.
      apply IH; [destruct s; [reflexivity | exact He] | discriminate].
Qed.

Lemma trim_empty : trim "" = "".
Proof. reflexivity. Qed.

(** Trimming and collapsing gives a normalized string. *)
Lemma collapse_trim_normalized (s : string) :
  normalized (collapseWhiteSpace (trim s)) = true.
Proof.
  unfold normalized, collapseWhiteSpace, trim.
  pose proof (trimEnd_endsClean (trimStart s)) as He.
  pose proof (trimEnd_startsClean _ (trimStart_startsClean s)) as Hs.
  destruct (trimEnd (trimStart s)) as [|a t] eqn:E; [reflexivity|].
  apply orb_true_iff. right.
  rewrite <- (replaceRuns_flag (String a t) true Hs).
  apply replaceRuns_gives_normalized; [exact He | discriminate].
Qed.

(** A normalized string is left as it is. *)
Lemma collapse_trim_fixed (s : string) :
  normalized s = true -> collapseWhiteSpace (trim s) = s.
Proof.
  unfold normalized. intros H. apply orb_true_iff in H as [H|H].
  - apply String.eqb_eq in H. subst s. reflexivity.
  - destruct (normalized_from_startsClean s H) as [Hs _].
    rewrite (trim_clean s Hs (normalized_from_endsClean s _ H)).
    unfold collapseWhiteSpace. rewrite <- (replaceRuns_flag s true Hs).
    apply replaceRuns_normalized. exact H.
Qed.

Lemma normalized_from_append (x y : string) :
  forall b,
    normalized_from b x = true -> x <> "" ->
    normalized_from true y = true ->
    normalized_from b (x +:+ String " " y) = true.
Proof.
  induction x as [|a x IH]; intros b Hx Hne Hy; [contradiction|].
  rewrite append_cons. cbn [normalized_from] in *.
  destruct (isWhiteSpace a).
  - apply andb_true_iff in Hx as [Hba Hx]. rewrite Hba. cbn [andb].
    apply IH; [exact Hx | destruct x; [discriminate | discriminate] | exact Hy].
  - destruct x as [|a' x'].
    + change ("" +:+ String " " y) with (String " " y).
      cbn [normalized_from]. change (isWhiteSpace " ") with true.
      change (Ascii.eqb " " " ") with true. exact Hy.
    + apply IH; [exact Hx | discriminate | exact Hy].
Qed.

Lemma concat_cons_ne (sep x : string) (l : list string) :
  l <> [] -> String.concat sep (x :: l) = x +:+ sep +:+ String.concat sep l.
Proof. destruct l; [contradiction | reflexivity]. Qed.

Lemma concat_truthy (P : list string) :
  Forall (fun p => truthy p = true) P -> P <> [] ->
  String.concat " " P <> "".
Proof.
  intros HP Hne. destruct P as [|x P]; [contradiction|].
  apply Forall_cons in HP as [Hx _]. apply truthy_true in Hx.
  destruct P as [|y P]; [exact Hx|].
  rewrite concat_cons_ne by discriminate.
  intros H. apply append_eq_empty in H as [H _]. contradiction.
Qed.

Lemma concat_normalized (P : list string) :
  Forall (fun p => normalized_from true p = true) P -> P <> [] ->
  normalized_from true (String.concat " " P) = true.
Proof.
  induction P as [|x P IH]; intros HP Hne; [contradiction|].
  apply Forall_cons in HP as [Hx HP].
  destruct P as [|y P]; [exact Hx|].
  rewrite concat_cons_ne by discriminate.
  apply normalized_from_append;
    [exact Hx | apply normalized_from_startsClean; exact Hx
    | apply IH; [exact HP | discriminate]].
Qed.

Lemma pieces_truthy (l : list string) :
  Forall (fun p => truthy p = true) (pieces l).
Proof.
  unfold pieces. apply List.Forall_forall. intros p Hp.
  apply List.filter_In in Hp. tauto.
Qed.

Lemma pieces_normalized (l : list string) :
  Forall (fun p => normalized_from true p = true) (pieces l).
Proof.
  unfold pieces. apply List.Forall_forall. intros p Hp.
  apply List.filter_In in Hp as [Hin Ht]. apply List.in_map_iff in Hin as (s & <- & _).
  pose proof (collapse_trim_normalized s) as H. unfold normalized in H.
  apply orb_true_iff in H as [H|H]; [|exact H].
  apply String.eqb_eq in H. apply truthy_true in Ht. contradiction.
Qed.

Lemma normalize_is_normalized (strings : list string) :
  normalized (normalize strings) = true.
Proof.
  unfold normalized. change (normalize strings) with (String.concat " " (pieces strings)).
  destruct (pieces strings) as [|p P] eqn:E; [reflexivity|].
  apply orb_true_iff. right. apply concat_normalized; [|discriminate].
  rewrite <- E. apply pieces_normalized.
Qed.

Lemma glue_concat (P Q : list string) :
  Forall (fun p => truthy p = true) P ->
  Forall (fun p => truthy p = true) Q ->
  String.concat " " (P ++ Q)
  = glue (String.concat " " P) (String.concat " " Q).
Proof.
  intros HP HQ. induction P as [|x P IH]; [reflexivity|].
  pose proof HP as HP0. apply Forall_cons in HP as [Hx HP].
  apply truthy_true in Hx. specialize (IH HP).
  assert (Hxe : String.eqb x "" = false) by (apply String.eqb_neq; exact Hx).
  destruct P as [|y P].
  - change ([x] ++ Q) with (x :: Q). cbn [String.concat] in IH |- *.
    unfold glue. rewrite Hxe.
    destruct Q as [|z Q]; [reflexivity|].
    pose proof (concat_truthy (z :: Q) HQ ltac:(discriminate)) as Hq.
    apply String.eqb_neq in Hq. rewrite Hq. reflexivity.
  - change ((x :: y :: P) ++ Q) with (x :: (y :: P) ++ Q).
    rewrite (concat_cons_ne " " x ((y :: P) ++ Q)) by discriminate.
    rewrite IH. rewrite (concat_cons_ne " " x (y :: P)) by discriminate.
    pose proof (concat_truthy (y :: P) HP ltac:(discriminate)) as Hp.
    set (p := String.concat " " (y :: P)) in *.
    set (q := String.concat " " Q) in *.
    unfold glue.
    assert (Hxp : String.eqb (x +:+ " " +:+ p) "" = false).
    { apply String.eqb_neq. intros H. apply append_eq_empty in H as [H _].
      contradiction. }
    rewrite Hxp. apply String.eqb_neq in Hp. rewrite Hp.
    destruct (String.eqb q ""); [reflexivity|].
    rewrite !append_assoc. reflexivity.
Qed.

(** The normalization of a list put together from two is the two
    normalizations joined by a space, an empty one left out. *)
Lemma normalize_app (l r : list string) :
  normalize (l ++ r) = glue (normalize l) (normalize r).
Proof.
  change (normalize (l ++ r)) with (String.concat " " (pieces (l ++ r))).
  unfold pieces. rewrite map_app, List.filter_app.
  apply glue_concat; apply pieces_truthy.
Qed.

Lemma normalize_single (s : string) :
  normalized s = true -> normalize [s] = s.
Proof.
  intros H. unfold normalize. cbn [map List.filter].
  rewrite (collapse_trim_fixed s H).
  destruct (truthy s) eqn:Ht; [reflexivity|].
  apply truthy_false in Ht. subst s. reflexivity.
Qed.

(** X3. What [normalize] returns is normalized: it is empty, or it neither
    starts nor ends with white space and holds white space only as single
    spaces between other characters.  The normalized strings are exactly
    those [normalize] gives back unchanged. *)
Theorem normalize_normalized (strings : list string) (s : string) :
  normalized (normalize strings) = true
  /\ (normalized s = true <-> normalize [s] = s).
Proof.
  split; [apply normalize_is_normalized|]. split.
  - apply normalize_single.
  - intros <-. apply normalize_is_normalized.
Qed.

(** X4. Normalizing in steps is normalizing at once: the normalization of
    the normalized texts of several lists is the normalization of all their
    strings in one list.  In particular [normalize] is idempotent. *)
Theorem normalize_flatten (lists : list (list string)) :
  normalize (map normalize lists) = normalize (List.concat lists)
  /\ forall strings, normalize [normalize strings] = normalize strings.
Proof.
  split.
  - induction lists as [|l lists IH]; [reflexivity|].
    cbn [map List.concat].
    change (normalize l :: map normalize lists)
      with ([normalize l] ++ map normalize lists).
    rewrite !normalize_app, IH.
    rewrite (normalize_single _ (normalize_is_normalized l)). reflexivity.
  - intros strings. apply normalize_single. apply normalize_is_normalized.
Qed.

Example normalize_nested :
  normalize [normalize [" Save "; "the  file"]; normalize []; "  now "]
  = "Save the file now".
Proof. reflexivity. Qed.

(** ** Accessible names are normalized *)

Lemma post_ret {A} (a : A) (Post : A -> Prop) : Post a -> post (ret a) Post.
Proof. intros H c a' c' [= <- <-]. exact H. Qed.

Lemma post_outOfFuel {A} (Post : A -> Prop) : post outOfFuel Post.
Proof. intros c a c' H. discriminate. Qed.

Lemma post_throw {A} (Post : A -> Prop) : post throw Post.
Proof. intros c a c' H. discriminate. Qed.

Lemma post_bind {A B} (m : M A) (k : A -> M B) (P : A -> Prop)
    (Q : B -> Prop) :
  post m P -> (forall a, P a -> post (k a) Q) -> post (bind m k) Q.
Proof.
  intros Hm Hk c b c' Hrun. unfold bind in Hrun.
  destruct (m c) as [[a ca]| |] eqn:E; try discriminate.
  exact (Hk a (Hm _ _ _ E) _ _ _ Hrun).
Qed.

Lemma post_bind_any {A B} (m : M A) (k : A -> M B) (Q : B -> Prop) :
  (forall a, post (k a) Q) -> post (bind m k) Q.
Proof.
  intros Hk. apply (post_bind m k (fun _ => True)); [|auto].
  intros c a c' _. exact I.
Qed.

Lemma normalized_empty : normalized "" = true.
Proof. reflexivity. Qed.

Lemma post_asText_element (d : Dom) (w : WeakMaps) (fuel : nat) (n : node) :
  (nodeType (d n) =? TEXT_NODE) = false ->
  post (asText d w fuel n) (textShape d n).
Proof.
  intros Hn. destruct fuel as [|fuel]; cbn [asText]; [apply post_outOfFuel|].
  rewrite Hn.
  destruct (negb (isElement d n)); [apply post_ret; left; reflexivity|].
  apply post_bind_any. intros [|]; [apply post_ret; left; reflexivity|].
  destruct (String.eqb (tagName (d n)) "IMG") eqn:Himg;
    [apply post_ret; right; left; auto|].
  destruct (String.eqb (tagName (d n)) "INPUT") eqn:Hinput.
  { destruct (has _ (type (d n))) eqn:Hb;
      [apply post_ret; right; right; left; auto|].
    destruct (String.eqb (type (d n)) "image") eqn:Hi;
      apply post_ret; [right; right; right; auto | left; reflexivity]. }
  destruct (isHTMLSlotElement (d n) && _).
  { apply post_bind_any. intros texts. apply post_ret. left.
    apply normalize_is_normalized. }
  destruct (shadowdomMap w !! n);
    apply post_bind_any; intros texts; apply post_ret; left;
    apply normalize_is_normalized.
Qed.

Lemma post_associatedLabelText (d : Dom) (w : WeakMaps) (fuel : nat)
    (el : node) :
  post (associatedLabelText d w fuel el)
       (fun o => normalized (default "" o) = true).
Proof.
  unfold associatedLabelText.
  destruct (ownerDocument (d el)); [|apply post_ret; reflexivity].
  assert (Hl : post
            match labels (d el) with
            | Some ls =>
                let* texts := mapM (asText d w fuel) ls in
                if truthy (normalize texts)
                then ret (Some (normalize texts)) else ret None
            | None => ret None
            end
            (fun o => normalized (default "" o) = true)).
  { destruct (labels (d el)); [|apply post_ret; reflexivity].
    apply post_bind_any. intros texts.
    destruct (truthy (normalize texts)); apply post_ret;
      [apply normalize_is_normalized | reflexivity]. }
  destruct (truthy (id (d el))); [|exact Hl].
  apply post_bind_any. intros texts.
  destruct (truthy (normalize texts)); [|exact Hl].
  apply post_ret. apply normalize_is_normalized.
Qed.

Lemma isElement_not_text (d : Dom) (n : node) :
  isElement d n = true -> (nodeType (d n) =? TEXT_NODE) = false.
Proof.
  unfold isElement. intros H. apply Nat.eqb_eq in H. rewrite H. reflexivity.
Qed.

Lemma has_buttons_not_image (t : string) :
  has ["button"; "submit"; "reset"] t = true -> String.eqb t "image" = false.
Proof.
  unfold has. cbn [existsb]. intros H.
  destruct (String.eqb t "button") eqn:E1;
    [apply String.eqb_eq in E1; subst; reflexivity|].
  destruct (String.eqb t "submit") eqn:E2;
    [apply String.eqb_eq in E2; subst; reflexivity|].
  destruct (String.eqb t "reset") eqn:E3;
    [apply String.eqb_eq in E3; subst; reflexivity|].
  discriminate.
Qed.

(** The text of an element that none of the native naming rules of step 3
    applies to is normalized. *)
Lemma textShape_normalized (d : Dom) (el : node) (t : string) :
  String.eqb (tagName (d el)) "IMG" && truthy (alt (d el)) = false ->
  String.eqb (tagName (d el)) "INPUT" && String.eqb (type (d el)) "image"
    && truthy (alt (d el)) = false ->
  String.eqb (tagName (d el)) "INPUT"
    && has ["button"; "submit"; "reset"] (type (d el))
    && negb (String.eqb (type (d el)) "image")
    && truthy (value (d el)) = false ->
  textShape d el t -> normalized t = true.
Proof.
  intros H1 H2 H3 [H|[[Ht ->]|[(Ht & Hb & ->)|(Ht & Hi & ->)]]].
  - exact H.
  - rewrite Ht in H1. cbn [andb] in H1. apply truthy_false in H1.
    rewrite H1. reflexivity.
  - rewrite Ht, Hb, (has_buttons_not_image _ Hb) in H3. cbn [andb negb] in H3.
    apply truthy_false in H3. rewrite H3. reflexivity.
  - rewrite Ht, Hi in H2. cbn [andb] in H2. apply truthy_false in H2.
    rewrite H2. reflexivity.
Qed.

Lemma post_computeAccessibleName_normalized (d : Dom) (w : WeakMaps)
    (fuel : nat) (el : node) (opts : ComputeAccessibleNamesOptions) :
  isElement d el = true ->
  (forall s, default ∅ (cache opts) !! el = Some s -> normalized s = true) ->
  post (computeAccessibleName d w fuel el opts)
       (fun r => normalized (fst r) = true).
Proof.
  intros Hel Hcache. apply isElement_not_text in Hel.
  destruct fuel as [|fuel]; cbn [computeAccessibleName];
    [apply post_outOfFuel|].
  unfold cacheAndReturn.
  destruct (default ∅ (cache opts) !! el) as [cached|] eqn:Hc.
  { apply post_ret. cbn [fst]. destruct (truthy cached); [auto | reflexivity]. }
  destruct (bool_decide _); [apply post_ret; reflexivity|].
  apply post_bind_any. intros [texts [cache1 visited2]].
  destruct (_ && truthy (normalize texts));
    [apply post_ret; apply normalize_is_normalized|].
  destruct (truthy (trim _));
    [apply post_ret; apply normalize_is_normalized|].
  eapply post_bind; [apply post_associatedLabelText|]. intros assoc Hassoc.
  cbn beta in Hassoc.
  destruct (truthyOpt assoc); [apply post_ret; exact Hassoc|].
  destruct (String.eqb (tagName (d el)) "IMG" && truthy (alt (d el))) eqn:H1;
    [apply post_ret; apply normalize_is_normalized|].
  destruct (String.eqb (tagName (d el)) "INPUT"
            && String.eqb (type (d el)) "image" && truthy (alt (d el))) eqn:H2;
    [apply post_ret; apply normalize_is_normalized|].
  destruct (String.eqb (tagName (d el)) "INPUT"
            && has ["button"; "submit"; "reset"] (type (d el))
            && negb (String.eqb (type (d el)) "image")
            && truthy (value (d el))) eqn:H3;
    [apply post_ret; apply normalize_is_normalized|].
  destruct (isHTMLElement (d el) && truthy (title (d el)));
    [apply post_ret; apply normalize_is_normalized|].
  apply post_bind_any. intros role.
  assert (Hfb : post
            (let* text := asText d w fuel el in
             ret (if truthy text then text else "",
                  (<[el := if truthy text then text else ""]> cache1,
                   visited2)))
            (fun r => normalized (fst r) = true)).
  { eapply post_bind; [apply post_asText_element; exact Hel|].
    intros text Ht. apply post_ret. cbn [fst].
    destruct (truthy text); [|reflexivity].
    exact (textShape_normalized d el text H1 H2 H3 Ht). }
  destruct (_ && has rolesAllowingNameFromContent _); [|exact Hfb].
  eapply post_bind; [apply post_asText_element; exact Hel|].
  intros text Ht. destruct (truthy text); [|exact Hfb].
  apply post_ret. exact (textShape_normalized d el text H1 H2 H3 Ht).
Qed.

(** X5. The accessible name computed for an element is normalized: no
    leading or trailing white space, and single spaces only.  An entry the
    caller's name cache already holds for the element is given back as it
    is, so it has to be normalized too. *)
Theorem accessible_name_normalized (d : Dom) (w : WeakMaps) (fuel : nat)
    (el : node) (opts : ComputeAccessibleNamesOptions) (c c' : StyleCache)
    (name : string) (st : NameState) :
  isElement d el = true ->
  (forall s, default ∅ (cache opts) !! el = Some s -> normalized s = true) ->
  computeAccessibleName d w fuel el opts c = Ok ((name, st), c') ->
  normalized name = true.
Proof.
  intros Hel Hcache Hrun.
  exact (post_computeAccessibleName_normalized d w fuel el opts Hel Hcache
           _ _ _ Hrun).
Qed.

Lemma accessible_name_normalized_witness :
  normalized "Save the file" = true.
Proof.
  apply (accessible_name_normalized spacedDoc scriptForInit 9 2 noOptions
           ∅ {[ 1 := 1; 2 := 2 ]} "Save the file"
           ({[ 2 := "Save the file" ]}, {[ 2 ]})).
  - reflexivity.
  - intros s H. vm_compute in H. discriminate.
  - vm_compute. reflexivity.
Defined.

(** ** What the queries return *)

Lemma triple_post {A} (m : M A) (P : A -> Prop) :
  sim m m -> post m P -> triple m P.
Proof.
  intros Hs Hp c a c' Hc Hrun. split.
  - exact (sim_preserves m c a c' Hs Hc Hrun).
  - exact (Hp c a c' Hrun).
Qed.

Lemma triple_and {A} (m : M A) (P Q : A -> Prop) :
  triple m P -> triple m Q -> triple m (fun a => P a /\ Q a).
Proof.
  intros HP HQ c a c' Hc Hrun.
  destruct (HP c a c' Hc Hrun). destruct (HQ c a c' Hc Hrun). auto.
Qed.

(** The loop rule of [getElements] with the visited set: the body runs on
    visible elements only, and on each node at most once. *)
Lemma triple_getElements_visited {A R} (d : Dom) (w : WeakMaps)
    (Inv : gset node -> A -> Prop) (Q : R -> Prop)
    (yield : node -> A -> M (Loop A R)) :
  (forall v v' acc, v ⊆ v' -> Inv v acc -> Inv v' acc) ->
  (forall x v acc,
      x ∉ v -> instanceofElement d x = true -> visible d x -> Inv v acc ->
      triple (yield x acc) (loopPost (Inv ({[x]} ∪ v)) Q)) ->
  forall fuel n doc v acc,
    Inv v acc ->
    triple (getElements d w fuel yield n doc (v, acc))
           (loopPost (fun st => Inv (fst st) (snd st)) Q).
Proof.
  intros Hmono Hy. induction fuel as [|fuel IH]; intros n doc v acc Hacc;
    cbn [getElements]; [intros c a c' _ H; discriminate|].
  assert (Hloop : forall l v' acc', Inv v' acc' ->
            triple (forEach (fun x => getElements d w fuel yield x doc) l
                            (v', acc'))
                   (loopPost (fun st => Inv (fst st) (snd st)) Q)).
  { intros l v' acc' Hacc'.
    apply (triple_forEach (fun st => Inv (fst st) (snd st)) Q);
      [|assumption].
    intros x [v'' acc''] Hs. apply IH. assumption. }
  assert (Hgrow : Inv ({[n]} ∪ v) acc).
  { apply (Hmono v); [|assumption]. apply union_subseteq_r. }
  destruct (bool_decide (n ∈ v)) eqn:Hv; [apply triple_ret; assumption|].
  apply bool_decide_eq_false in Hv.
  destruct (instanceofElement d n) eqn:Hel.
  - eapply triple_bind; [apply triple_isElementHidden|].
    intros [|] Hvis; simpl.
    + rewrite andb_false_r. apply triple_ret. assumption.
    + eapply triple_bind;
        [exact (Hy n v acc Hv Hel (Hvis eq_refl) Hacc)|].
      intros [acc1|r] Hr; simpl in Hr; [|apply triple_ret; assumption].
      destruct (isHTMLSlotElement (d n) && (0 <? length (assignedElements (d n))));
        [apply Hloop; assumption|].
      destruct (shadowdomMap w !! n); [apply IH; assumption|].
      destruct (isSelectorRoot d n && _);
        [apply Hloop | apply triple_ret]; assumption.
  - eapply triple_bind; [apply (triple_ret false (fun _ => True)); exact I|].
    intros b _. simpl.
    destruct (isSelectorRoot d n && _);
      [apply Hloop | apply triple_ret]; assumption.
Qed.

Lemma triple_query_element (d : Dom) (w : WeakMaps)
    (parse : string -> option ParsedOptions.t) (document : node) (fuel : nat)
    (root : node) (selector : string) (P : node -> Prop) :
  (forall p x,
      parse selector = Some p ->
      truthyOpt (ParsedOptions.role p) = true ->
      instanceofElement d x = true -> visible d x ->
      triple (matches d w fuel (default "" (ParsedOptions.role p))
                (ParsedOptions.name p) (ParsedOptions.exact p) x)
             (fun ok => ok = true -> P x)) ->
  triple (query d w parse document fuel root selector)
         (fun r => forall e, r = Some e -> P e).
Proof.
  intros Hm. unfold query. destruct (parse selector) as [p|];
    [|intros c a c' _ H; discriminate].
  destruct (truthyOpt (ParsedOptions.role p)) eqn:Hrole; cbn [negb];
    [|apply triple_ret; discriminate].
  eapply triple_bind.
  - apply (triple_getElements_visited d w (fun _ (_ : unit) => True) P);
      [auto| |exact I].
    intros x v [] Hnv Hel Hx _. eapply triple_bind; [apply (Hm p x); auto|].
    intros [|] Hok; apply triple_ret; simpl; auto.
  - intros [[v []]|e] Hr; simpl in Hr; apply triple_ret;
      [discriminate | intros e' [= <-]; assumption].
Qed.

Lemma triple_queryAll_element (d : Dom) (w : WeakMaps)
    (parse : string -> option ParsedOptions.t) (document : node) (fuel : nat)
    (root : node) (selector : string) (P : node -> Prop) :
  (forall p x,
      parse selector = Some p ->
      truthyOpt (ParsedOptions.role p) = true ->
      instanceofElement d x = true -> visible d x ->
      triple (matches d w fuel (default "" (ParsedOptions.role p))
                (ParsedOptions.name p) (ParsedOptions.exact p) x)
             (fun ok => ok = true -> P x)) ->
  triple (queryAll d w parse document fuel root selector)
         (fun rs => NoDup rs /\ Forall P rs).
Proof.
  intros Hm. unfold queryAll. destruct (parse selector) as [p|];
    [|intros c a c' _ H; discriminate].
  destruct (truthyOpt (ParsedOptions.role p)) eqn:Hrole; cbn [negb];
    [|apply triple_ret; split; constructor].
  eapply triple_bind.
  - apply (triple_getElements_visited d w
             (fun v rs => NoDup rs /\ Forall (fun x => x ∈ v /\ P x) rs)
             (fun _ => False)).
    + intros v v' rs Hsub [Hnd Hall]. split; [assumption|].
      eapply List.Forall_impl; [|exact Hall].
      intros x [Hx HP]. split; [|assumption]. apply Hsub. assumption.
    + intros x v rs Hnv Hel Hx [Hnd Hall].
      eapply triple_bind; [apply (Hm p x); auto|].
      intros [|] Hok; apply triple_ret; simpl.
      * split.
        -- apply NoDup_app. split; [assumption|]. split; [|apply NoDup_singleton].
           intros y Hy Hy'. apply list_elem_of_singleton in Hy'. subst y.
           apply Hnv. rewrite List.Forall_forall in Hall.
           apply list_elem_of_In in Hy. exact (proj1 (Hall _ Hy)).
        -- apply Forall_app. split.
           ++ eapply List.Forall_impl; [|exact Hall].
              intros y [Hy HP]. split; [|assumption].
              apply elem_of_union_r. assumption.
           ++ constructor; [|constructor]. split; [|auto].
              apply elem_of_union_l. apply elem_of_singleton. reflexivity.
      * split; [assumption|].
        eapply List.Forall_impl; [|exact Hall].
        intros y [Hy HP]. split; [|assumption].
        apply elem_of_union_r. assumption.
    + split; constructor.
  - intros [[v rs]|[]] Hr; simpl in Hr. apply triple_ret.
    destruct Hr as [Hnd Hall]. split; [assumption|].
    eapply List.Forall_impl; [|exact Hall]. intros y [_ HP]. exact HP.
Qed.

(** What [matches] accepts has the requested role, and the name the filter
    asks for. *)
Lemma triple_matches_accepted (d : Dom) (w : WeakMaps) (fuel : nat)
    (r : string) (name : option string) (exact : option bool) (x : node) :
  triple (matches d w fuel r name exact x)
         (fun ok => ok = true ->
                    computedRoleIs d w fuel x r
                    /\ nameAccepted d w fuel x name exact).
Proof.
  intros c ok c' Hc Hrun. split.
  { eapply sim_preserves; [apply (sim_matches d w fuel fuel); lia|..];
      eassumption. }
  intros ->. unfold matches, bind in Hrun.
  destruct (computeElementRole d w fuel x c) as [[er c1]| |] eqn:Hrole;
    try discriminate.
  assert (Hc1 : cache_ok c1).
  { eapply sim_preserves;
      [apply (sim_computeElementRole d w fuel fuel); lia|..]; eassumption. }
  destruct (bool_decide (er = Some r)) eqn:Her; cbn [negb] in Hrun;
    [|discriminate].
  apply bool_decide_eq_true in Her. subst er. split.
  - exists c, c1. auto.
  - intros Hname. rewrite Hname in Hrun. exists c1, c'. auto.
Qed.

(** X6. Every element [queryAll] returns, and the one [query] returns, is a
    visible element that [computeElementRole] gives the requested role and,
    where a name is asked for, that [matchesNameFilter] accepts; [queryAll]
    returns no element twice, also where slots and shadow roots let the
    traversal reach an element on several ways. *)
Theorem query_results_accepted (d : Dom) (w : WeakMaps)
    (parse : string -> option ParsedOptions.t) (document : node) (fuel : nat)
    (root : node) (selector : string) (p : ParsedOptions.t)
    (c : StyleCache) :
  parse selector = Some p ->
  cache_ok c ->
  (forall e c',
      query d w parse document fuel root selector c = Ok (Some e, c') ->
      accepted d w fuel p e)
  /\ (forall rs c',
      queryAll d w parse document fuel root selector c = Ok (rs, c') ->
      NoDup rs /\ Forall (accepted d w fuel p) rs).
Proof.
  intros Hp Hc.
  assert (Hm : forall p' x,
             parse selector = Some p' ->
             truthyOpt (ParsedOptions.role p') = true ->
             instanceofElement d x = true -> visible d x ->
             triple (matches d w fuel (default "" (ParsedOptions.role p'))
                       (ParsedOptions.name p') (ParsedOptions.exact p') x)
                    (fun ok => ok = true -> accepted d w fuel p x)).
  { intros p' x Hp' Hrole Hel Hx. rewrite Hp in Hp'. injection Hp' as <-.
    eapply triple_weaken; [apply triple_matches_accepted|].
    intros ok H Hok. destruct (H Hok) as [Hr Hn].
    repeat split; try assumption.
    intros Hh. exact (visible_not_hidden d x Hx Hh). }
  split.
  - intros e c' Hrun.
    destruct (triple_query_element d w parse document fuel root selector _ Hm
                c (Some e) c' Hc Hrun) as [_ H].
    apply H. reflexivity.
  - intros rs c' Hrun.
    exact (proj2 (triple_queryAll_element d w parse document fuel root
                    selector _ Hm c rs c' Hc Hrun)).
Qed.

Lemma query_results_accepted_witness :
  (forall e c',
      query slottedDoc slottedMaps buttonsParse 0 9 0 "button" ∅
      = Ok (Some e, c') ->
      accepted slottedDoc slottedMaps 9 (payload (Some "button") None None) e)
  /\ (forall rs c',
      queryAll slottedDoc slottedMaps buttonsParse 0 9 0 "button" ∅
      = Ok (rs, c') ->
      NoDup rs
      /\ Forall (accepted slottedDoc slottedMaps 9
                   (payload (Some "button") None None)) rs).
Proof.
  apply (query_results_accepted slottedDoc slottedMaps buttonsParse 0 9 0
           "button" (payload (Some "button") None None) ∅).
  - reflexivity.
  - apply cache_ok_empty.
Defined.

(** ** Exact names *)

Lemma post_matchesNameFilter_exact (d : Dom) (w : WeakMaps) (fuel : nat)
    (x : node) (nm : string) :
  isElement d x = true ->
  normalized nm = false ->
  post (matchesNameFilter d w fuel x (Some nm) (Some true))
       (fun ok => ok = false).
Proof.
  intros Hel Hnm. unfold matchesNameFilter.
  destruct (truthyOpt (Some nm)); [|apply post_ret; reflexivity].
  apply post_bind_any. intros accessibleRole.
  eapply post_bind.
  { apply post_computeAccessibleName_normalized; [exact Hel|].
    cbn [cache default]. intros s H. rewrite lookup_empty in H. discriminate. }
  intros [accessibleName st] Hname. cbn beta in Hname. cbn [fst] in Hname.
  destruct (truthy accessibleName); [|apply post_ret; reflexivity].
  rewrite bool_decide_eq_true_2 by reflexivity.
  apply post_ret. apply bool_decide_eq_false.
  change (default "" (Some nm)) with nm. intros ->. congruence.
Qed.

Lemma exact_name_unmatched (d : Dom) (w : WeakMaps)
    (parse : string -> option ParsedOptions.t) (document : node) (fuel : nat)
    (root : node) (selector : string) (p : ParsedOptions.t) (nm : string)
    (c : StyleCache) :
  parse selector = Some p ->
  ParsedOptions.name p = Some nm ->
  ParsedOptions.exact p = Some true ->
  normalized nm = false ->
  cache_ok c ->
  (forall r c',
      query d w parse document fuel root selector c = Ok (r, c') ->
      r = None)
  /\ (forall rs c',
      queryAll d w parse document fuel root selector c = Ok (rs, c') ->
      rs = []).
Proof.
  intros Hp Hname Hexact Hnm Hc.
  assert (Hm : forall p' x,
             parse selector = Some p' ->
             truthyOpt (ParsedOptions.role p') = true ->
             instanceofElement d x = true -> visible d x ->
             triple (matches d w fuel (default "" (ParsedOptions.role p'))
                       (ParsedOptions.name p') (ParsedOptions.exact p') x)
                    (fun ok => ok = true -> False)).
  { intros p' x Hp' Hrole Hel Hx. rewrite Hp in Hp'. injection Hp' as <-.
    apply triple_post; [apply sim_matches; lia|].
    unfold matches. apply post_bind_any. intros elementRole.
    destruct (negb _); [apply post_ret; discriminate|].
    rewrite Hname, Hexact.
    destruct (truthyOpt (Some nm)) eqn:Ht; [|apply post_ret].
    - intros c0 ok c0' Hrun Hok.
      rewrite (post_matchesNameFilter_exact d w fuel x nm Hel Hnm _ _ _ Hrun)
        in Hok.
      discriminate.
    - intros _. apply truthy_false in Ht. subst nm. discriminate Hnm. }
  split.
  - intros r c' Hrun.
    destruct (triple_query_element d w parse document fuel root selector _ Hm
                c r c' Hc Hrun) as [_ H].
    destruct r as [e|]; [|reflexivity]. destruct (H e eq_refl).
  - intros rs c' Hrun.
    destruct (triple_queryAll_element d w parse document fuel root
                selector _ Hm c rs c' Hc Hrun) as [_ [_ H]].
    destruct H as [|e rs' []]. reflexivity.
Qed.

(** X7. With [exact: true], a name that is not normalized (white space at
    an end, or other than single spaces inside) matches no element.  In any
    document no run of [query] returns an element and no run of [queryAll]
    a list that is not empty; and on a well-formed document [query] does
    return, with no element, and [queryAll] does return, with the empty
    list, once they have enough fuel.  The computed name the filter is
    compared with is always normalized. *)
Theorem exact_name_must_be_normalized (d : Dom) (w : WeakMaps)
    (parse : string -> option ParsedOptions.t) (document : node)
    (root : node) (selector : string) (p : ParsedOptions.t) (nm : string) :
  parse selector = Some p ->
  ParsedOptions.name p = Some nm ->
  ParsedOptions.exact p = Some true ->
  normalized nm = false ->
  (forall fuel c,
      cache_ok c ->
      (forall r c',
          query d w parse document fuel root selector c = Ok (r, c') ->
          r = None)
      /\ (forall rs c',
          queryAll d w parse document fuel root selector c = Ok (rs, c') ->
          rs = []))
  /\ (wellFormed d w -> traversable d w ->
      exists fuel0, forall fuel c,
        fuel0 <= fuel -> cache_ok c ->
        (exists c',
            query d w parse document fuel root selector c = Ok (None, c'))
        /\ (exists c',
              queryAll d w parse document fuel root selector c
              = Ok ([], c'))).
Proof.
  intros Hp Hname Hexact Hnm. split.
  - intros fuel c Hc.
    exact (exact_name_unmatched d w parse document fuel root selector p nm c
             Hp Hname Hexact Hnm Hc).
  - intros Hwf Htr.
    destruct (query_returns d w parse document root selector Hwf Htr
                (ex_intro _ p Hp)) as [fuel0 H].
    exists fuel0. intros fuel c Hle Hc.
    destruct (H fuel c Hle) as [(r & c1 & E1) (rs & c2 & E2)].
    destruct (exact_name_unmatched d w parse document fuel root selector p nm
                c Hp Hname Hexact Hnm Hc) as [Hq Ha].
    rewrite (Hq r c1 E1) in E1. rewrite (Ha rs c2 E2) in E2.
    split; [exists c1; exact E1 | exists c2; exact E2].
Qed.

Lemma spacedDoc_wellFormed : wellFormed spacedDoc scriptForInit.
Proof.
  exists (fun n => match n with 2 => 1 | _ => 0 end),
         (fun n => match n with 0 => 3 | 1 => 2 | 2 => 1 | _ => 0 end),
         1, 3, 0.
  split; [|split; [|split; [|split]]].
  - intros [|[|[|[|[|n]]]]] p H; vm_compute in H; inversion H; cbn; lia.
  - intros [|[|[|n]]]; cbn; lia.
  - intros n x. unfold textChildren. cbn [shadowdomMap scriptForInit].
    rewrite lookup_empty.
    destruct n as [|[|[|[|[|n]]]]]; vm_compute;
      intros H; repeat (destruct H as [<-|H]; [cbn; lia|]); destruct H.
  - intros [|[|[|n]]]; cbn; lia.
  - intros el ref. unfold labelledByElementsOf.
    cbn [internalsMap scriptForInit]. rewrite lookup_empty.
    destruct el as [|[|[|[|[|el]]]]]; vm_compute; intros H; destruct H.
Qed.

Lemma spacedDoc_traversable : traversable spacedDoc scriptForInit.
Proof.
  exists 4. intros n x. unfold traversalChildren.
  cbn [shadowdomMap scriptForInit]. rewrite lookup_empty.
  destruct n as [|[|[|[|[|n]]]]]; vm_compute;
    intros H; repeat (destruct H as [<-|H]; [cbn; lia|]); destruct H.
Qed.

Lemma exact_name_must_be_normalized_witness :
  ((forall r c',
       query spacedDoc scriptForInit spacedParse 0 9 0 "exact-spaced" ∅
       = Ok (r, c') ->
       r = None)
   /\ (forall rs c',
       queryAll spacedDoc scriptForInit spacedParse 0 9 0 "exact-spaced" ∅
       = Ok (rs, c') ->
       rs = []))
  /\ (exists fuel0, forall fuel c,
        fuel0 <= fuel -> cache_ok c ->
        (exists c',
            query spacedDoc scriptForInit spacedParse 0 fuel 0
              "exact-spaced" c = Ok (None, c'))
        /\ (exists c',
              queryAll spacedDoc scriptForInit spacedParse 0 fuel 0
                "exact-spaced" c = Ok ([], c'))).
Proof.
  destruct (exact_name_must_be_normalized spacedDoc scriptForInit spacedParse
              0 0 "exact-spaced"
              (payload (Some "button") (Some "Save   the  file") (Some true))
              "Save   the  file") as [H1 H2].
  - reflexivity.
  - reflexivity.
  - reflexivity.
  - reflexivity.
  - split.
    + apply (H1 9 ∅). apply cache_ok_empty.
    + apply H2; [apply spacedDoc_wellFormed | apply spacedDoc_traversable].
Defined.

Example exact_spaced_text :
  returned (queryAll spacedDoc scriptForInit spacedParse 0 9 0 "exact" ∅)
  = Some [2]
  /\ returned (queryAll spacedDoc scriptForInit spacedParse 0 9 0
                 "exact-spaced" ∅) = Some []
  /\ returned (queryAll spacedDoc scriptForInit spacedParse 0 9 0
                 "exact-case" ∅) = Some []
  /\ returned (queryAll spacedDoc scriptForInit spacedParse 0 9 0 "loose" ∅)
     = Some [2].
Proof. vm_compute. repeat split; reflexivity. Qed.

(** ** Two queries side by side *)

Lemma simR_sim {A} (m1 m2 : M A) : sim m1 m2 -> simR m1 m2 eq.
Proof.
  intros Hs c1 c2 a c1' H1 H2 Hrun.
  destruct (Hs c1 c2 a c1' H1 H2 Hrun) as (Hc1' & c2' & E & Hc2').
  split; [assumption|]. exists a, c2'. auto.
Qed.

Lemma simR_ret {A B} (a : A) (b : B) (Post : A -> B -> Prop) :
  Post a b -> simR (ret a) (ret b) Post.
Proof.
  intros H c1 c2 a' c1' H1 H2 [= <- <-]. split; [assumption|].
  exists b, c2. auto.
Qed.

Lemma simR_outOfFuel {A B} (m : M B) (Post : A -> B -> Prop) :
  simR outOfFuel m Post.
Proof. intros c1 c2 a c1' _ _ H. discriminate. Qed.

Lemma simR_throw {A B} (m : M B) (Post : A -> B -> Prop) :
  simR throw m Post.
Proof. intros c1 c2 a c1' _ _ H. discriminate. Qed.

Lemma simR_bind {A1 A2 B1 B2} (m1 : M A1) (m2 : M A2) (k1 : A1 -> M B1)
    (k2 : A2 -> M B2) (P : A1 -> A2 -> Prop) (Q : B1 -> B2 -> Prop) :
  simR m1 m2 P -> (forall a1 a2, P a1 a2 -> simR (k1 a1) (k2 a2) Q) ->
  simR (bind m1 k1) (bind m2 k2) Q.
Proof.
  intros Hm Hk c1 c2 b c1' H1 H2 Hrun. unfold bind in *.
  destruct (m1 c1) as [[a ca]| |] eqn:E1; try discriminate.
  destruct (Hm _ _ _ _ H1 H2 E1) as (Hca & a2 & c2a & E2 & Hc2a & HP).
  rewrite E2. exact (Hk a a2 HP _ _ _ _ Hca Hc2a Hrun).
Qed.

(** The second computation has returned already; the first one runs on. *)
Lemma simR_left {A B} (m : M A) (b : B) (P : A -> Prop)
    (Post : A -> B -> Prop) :
  triple m P -> (forall a, P a -> Post a b) -> simR m (ret b) Post.
Proof.
  intros Hm HP c1 c2 a c1' H1 H2 Hrun.
  destruct (Hm c1 a c1' H1 Hrun) as [Hc1' Ha]. split; [assumption|].
  exists b, c2. auto.
Qed.

Lemma simR_weaken {A B} (m1 : M A) (m2 : M B) (P Q : A -> B -> Prop) :
  simR m1 m2 P -> (forall a b, P a b -> Q a b) -> simR m1 m2 Q.
Proof.
  intros Hm HPQ c1 c2 a c1' H1 H2 Hrun.
  destruct (Hm c1 c2 a c1' H1 H2 Hrun) as (Hc1' & b & c2' & E & Hc2' & HP).
  split; [assumption|]. exists b, c2'. auto.
Qed.

Lemma simR_forEach {S1 S2 R2} (Inv : S1 -> S2 -> Prop) (Q : S1 -> R2 -> Prop)
    (f1 : node -> S1 -> M (Loop S1 Empty_set))
    (f2 : node -> S2 -> M (Loop S2 R2)) (l : list node) :
  (forall x s1 s2, Inv s1 s2 -> simR (f1 x s1) (f2 x s2) (loopRel Inv Q)) ->
  (forall x s1 e,
      Q s1 e ->
      triple (f1 x s1) (loopPost (fun s1' => Q s1' e) (fun _ => False))) ->
  forall s1 s2,
    Inv s1 s2 -> simR (forEach f1 l s1) (forEach f2 l s2) (loopRel Inv Q).
Proof.
  intros Hf Hq. induction l as [|x l IH]; intros s1 s2 Hs; cbn [forEach].
  - apply simR_ret. exact Hs.
  - eapply simR_bind; [apply Hf; exact Hs|].
    intros [s1'|[]] [s2'|e] Hr; cbn [loopRel] in Hr.
    + apply IH. exact Hr.
    + eapply simR_left.
      * apply (triple_forEach (fun s => Q s e) (fun _ => False));
          [|exact Hr].
        intros y s Hy. apply Hq. exact Hy.
      * intros [s|[]] Hs'; exact Hs'.
Qed.

(** Two traversals of the same document, from the same node and visited
    set, with two loop bodies. *)
Lemma simR_getElements {A1 A2 R2} (d : Dom) (w : WeakMaps)
    (Inv : A1 -> A2 -> Prop) (Q : A1 -> R2 -> Prop)
    (yield1 : node -> A1 -> M (Loop A1 Empty_set))
    (yield2 : node -> A2 -> M (Loop A2 R2)) :
  (forall x a1 a2,
      Inv a1 a2 -> simR (yield1 x a1) (yield2 x a2) (loopRel Inv Q)) ->
  (forall x a1 e,
      Q a1 e ->
      triple (yield1 x a1) (loopPost (fun a1' => Q a1' e) (fun _ => False))) ->
  forall fuel n doc v a1 a2,
    Inv a1 a2 ->
    simR (getElements d w fuel yield1 n doc (v, a1))
         (getElements d w fuel yield2 n doc (v, a2))
         (loopRel (fun s1 s2 => fst s1 = fst s2 /\ Inv (snd s1) (snd s2))
                  (fun s1 e => Q (snd s1) e)).
Proof.
  intros Hy Hq.
  assert (Hrest : forall e fuel n doc v a1,
            Q a1 e ->
            triple (getElements d w fuel yield1 n doc (v, a1))
                   (loopPost (fun s => Q (snd s) e) (fun _ => False))).
  { intros e fuel n doc v a1 Ha.
    apply (triple_getElements d w (fun a => Q a e) (fun _ => False));
      [|exact Ha].
    intros x acc _ Hacc. apply Hq. exact Hacc. }
  assert (HrestLoop : forall e fuel doc l v a1,
            Q a1 e ->
            triple (forEach (fun x => getElements d w fuel yield1 x doc) l
                            (v, a1))
                   (loopPost (fun s => Q (snd s) e) (fun _ => False))).
  { intros e fuel doc l v a1 Ha.
    apply (triple_forEach (fun s => Q (snd s) e) (fun _ => False));
      [|exact Ha].
    intros x [v' a'] Hs. apply Hrest. exact Hs. }
  induction fuel as [|fuel IH]; intros n doc v a1 a2 Ha;
    cbn [getElements]; [apply simR_outOfFuel|].
  assert (Hloop : forall l v' b1 b2, Inv b1 b2 ->
            simR (forEach (fun x => getElements d w fuel yield1 x doc) l
                          (v', b1))
                 (forEach (fun x => getElements d w fuel yield2 x doc) l
                          (v', b2))
                 (loopRel
                    (fun s1 s2 => fst s1 = fst s2 /\ Inv (snd s1) (snd s2))
                    (fun s1 e => Q (snd s1) e))).
  { intros l v' b1 b2 Hb. apply simR_forEach.
    - intros x [v1 c1] [v2 c2] [Hv Hc]. cbn [fst snd] in Hv, Hc. subst v2.
      apply IH. exact Hc.
    - intros x [v1 c1] e Hc. apply Hrest. exact Hc.
    - split; [reflexivity | exact Hb]. }
  destruct (bool_decide (n ∈ v));
    [apply simR_ret; split; [reflexivity | exact Ha]|].
  eapply simR_bind.
  { apply simR_sim. destruct (instanceofElement d n);
      [apply sim_isElementHidden; lia | apply sim_ret]. }
  intros isHidden ? <-.
  destruct (instanceofElement d n && negb isHidden).
  - eapply simR_bind; [apply Hy; exact Ha|].
    intros [b1|[]] [b2|e] Hr; cbn [loopRel] in Hr.
    + destruct (isHTMLSlotElement (d n) && _); [apply Hloop; exact Hr|].
      destruct (shadowdomMap w !! n); [apply IH; exact Hr|].
      destruct (isSelectorRoot d n && _);
        [apply Hloop; exact Hr
        | apply simR_ret; split; [reflexivity | exact Hr]].
    + assert (Hfin : forall r : Loop (gset node * A1) Empty_set,
                loopPost (fun s => Q (snd s) e) (fun _ => False) r ->
                loopRel
                  (fun s1 s2 => fst s1 = fst s2 /\ Inv (snd s1) (snd s2))
                  (fun s1 e => Q (snd s1) e) r
                  (Return (S := gset node * A2) e)).
      { intros [s|[]] Hs; exact Hs. }
      destruct (isHTMLSlotElement (d n) && _);
        [eapply simR_left; [apply HrestLoop; exact Hr | exact Hfin]|].
      destruct (shadowdomMap w !! n);
        [eapply simR_left; [apply Hrest; exact Hr | exact Hfin]|].
      destruct (isSelectorRoot d n && _);
        [eapply simR_left; [apply HrestLoop; exact Hr | exact Hfin]|].
      apply (simR_left _ _
               (loopPost (fun s => Q (snd s) e) (fun _ => False)));
        [apply triple_ret; exact Hr | exact Hfin].
  - destruct (isSelectorRoot d n && _);
      [apply Hloop; exact Ha
      | apply simR_ret; split; [reflexivity | exact Ha]].
Qed.

Lemma triple_matches_any (d : Dom) (w : WeakMaps) (fuel : nat) (r : string)
    (name : option string) (exact : option bool) (x : node) :
  triple (matches d w fuel r name exact x) (fun _ => True).
Proof. apply triple_sim. apply sim_matches. lia. Qed.

Lemma head_snoc {A} (l : list A) (x e : A) :
  head l = Some e -> head (l ++ [x]) = Some e.
Proof. destruct l; [discriminate | auto]. Qed.

Lemma simR_queryAll_query (d : Dom) (w : WeakMaps)
    (parse : string -> option ParsedOptions.t) (document : node) (fuel : nat)
    (root : node) (selector : string) :
  simR (queryAll d w parse document fuel root selector)
       (query d w parse document fuel root selector)
       (fun rs r => r = head rs).
Proof.
  unfold queryAll, query.
  destruct (parse selector) as [p|]; [|apply simR_throw].
  destruct (negb _); [apply simR_ret; reflexivity|].
  eapply simR_bind.
  - apply (simR_getElements d w (fun rs (_ : unit) => rs = [])
             (fun rs e => head rs = Some e)); [| |reflexivity].
    + intros x rs [] ->. eapply simR_bind;
        [apply simR_sim; apply sim_matches; lia|].
      intros ok ? <-. destruct ok; apply simR_ret; reflexivity.
    + intros x rs e Hrs. eapply triple_bind; [apply triple_matches_any|].
      intros [|] _; apply triple_ret; cbn [loopPost];
        [apply head_snoc|]; exact Hrs.
  - intros [[v rs]|[]] [[v' []]|e] Hr; cbn [loopRel fst snd] in Hr;
      apply simR_ret.
    + destruct Hr as [_ ->]. reflexivity.
    + symmetry. exact Hr.
Qed.

(** X8. [query] returns the first element of what [queryAll] returns, and
    nothing when that is empty: whenever [queryAll] returns, so does
    [query], with that much fuel or more and from whatever style cache an
    engine holds. *)
Theorem query_is_first_of_queryAll (d : Dom) (w : WeakMaps)
    (parse : string -> option ParsedOptions.t) (document : node) (fuel : nat)
    (root : node) (selector : string) (c0 c0' : StyleCache)
    (rs : list node) :
  cache_ok c0 ->
  queryAll d w parse document fuel root selector c0 = Ok (rs, c0') ->
  forall fuel' c,
    fuel <= fuel' -> cache_ok c ->
    exists c',
      query d w parse document fuel' root selector c = Ok (head rs, c').
Proof.
  intros Hc0 Hall fuel' c Hle Hc.
  destruct (simR_queryAll_query d w parse document fuel root selector
              c0 c rs c0' Hc0 Hc Hall) as (_ & r & c1 & Hq & Hc1 & ->).
  destruct (sim_query d w parse document fuel fuel' root selector Hle
              c c (head rs) c1 Hc Hc Hq) as (_ & c' & Hq' & _).
  exists c'. exact Hq'.
Qed.

Lemma query_is_first_of_queryAll_witness :
  exists c',
    query buttonsDoc scriptForInit buttonsParse 0 12 0 "button" {[ 3 := 3 ]}
    = Ok (head [2; 3], c').
Proof.
  eapply (query_is_first_of_queryAll buttonsDoc scriptForInit buttonsParse 0
            9 0 "button" ∅ _ [2; 3]).
  - apply cache_ok_empty.
  - vm_compute. reflexivity.
  - lia.
  - apply cache_ok_insert. apply cache_ok_empty.
Defined.

(** ** Narrower filters *)

Lemma prefix_refl (s : string) : String.prefix s s = true.
Proof.
  induction s as [|a s IH]; [reflexivity|].
  cbn [String.prefix]. destruct (ascii_dec a a); [exact IH | contradiction].
Qed.

Lemma includes_refl (s : string) : includes s s = true.
Proof. destruct s; cbn [includes]; rewrite prefix_refl; reflexivity. Qed.

Lemma simR_matchesNameFilter_exact (d : Dom) (w : WeakMaps) (fuel : nat)
    (x : node) (name : option string) (exact : option bool) :
  simR (matchesNameFilter d w fuel x name (Some true))
       (matchesNameFilter d w fuel x name exact)
       (fun ok1 ok2 => ok1 = true -> ok2 = true).
Proof.
  unfold matchesNameFilter.
  destruct (truthyOpt name); [|apply simR_ret; auto].
  eapply simR_bind; [apply simR_sim; apply sim_computeElementRole; lia|].
  intros accessibleRole ? <-.
  eapply simR_bind; [apply simR_sim; apply sim_computeAccessibleName; lia|].
  intros [accessibleName st] ? <-.
  destruct (truthy accessibleName); [|apply simR_ret; auto].
  rewrite (bool_decide_eq_true_2 (Some true = Some true)) by reflexivity.
  destruct (bool_decide (exact = Some true)); apply simR_ret; [auto|].
  intros H. apply bool_decide_eq_true in H. rewrite H. apply includes_refl.
Qed.

Lemma simR_matches_narrower (d : Dom) (w : WeakMaps) (fuel : nat)
    (p1 p2 : ParsedOptions.t) (x : node) :
  narrower p1 p2 ->
  simR (matches d w fuel (default "" (ParsedOptions.role p1))
          (ParsedOptions.name p1) (ParsedOptions.exact p1) x)
       (matches d w fuel (default "" (ParsedOptions.role p2))
          (ParsedOptions.name p2) (ParsedOptions.exact p2) x)
       (fun ok1 ok2 => ok1 = true -> ok2 = true).
Proof.
  intros [Hrole Hname]. rewrite Hrole. unfold matches.
  eapply simR_bind; [apply simR_sim; apply sim_computeElementRole; lia|].
  intros elementRole ? <-.
  destruct (negb _); [apply simR_ret; auto|].
  destruct Hname as [Hnone|[Hsame Hexact]].
  - rewrite Hnone. destruct (truthyOpt (ParsedOptions.name p1)).
    + apply (simR_left _ _ (fun _ => True)); [|auto].
      apply triple_sim. apply sim_matchesNameFilter. lia.
    + apply simR_ret. auto.
  - rewrite Hsame, Hexact. destruct (truthyOpt (ParsedOptions.name p2)).
    + apply simR_matchesNameFilter_exact.
    + apply simR_ret. auto.
Qed.

Lemma simR_queryAll_narrower (d : Dom) (w : WeakMaps)
    (parse : string -> option ParsedOptions.t) (document : node) (fuel : nat)
    (root : node) (s1 s2 : string) (p1 p2 : ParsedOptions.t) :
  parse s1 = Some p1 -> parse s2 = Some p2 -> narrower p1 p2 ->
  simR (queryAll d w parse document fuel root s1)
       (queryAll d w parse document fuel root s2)
       sublist.
Proof.
  intros H1 H2 Hn. unfold queryAll. rewrite H1, H2.
  pose proof (proj1 Hn) as Hrole. rewrite <- Hrole.
  destruct (negb _); [apply simR_ret; constructor|].
  eapply simR_bind.
  - apply (simR_getElements d w sublist (fun _ (e : Empty_set) => False));
      [| |constructor].
    + intros x rs1 rs2 Hrs.
      eapply simR_bind.
      { rewrite Hrole at 2. apply (simR_matches_narrower d w fuel p1 p2 x Hn). }
      intros [|] ok2 Hok.
      * rewrite (Hok eq_refl). apply simR_ret. cbn [loopRel].
        apply sublist_app; [exact Hrs | reflexivity].
      * destruct ok2; apply simR_ret; cbn [loopRel];
          [apply sublist_inserts_r|]; exact Hrs.
    + intros x rs1 [].
  - intros [[v1 rs1]|[]] [[v2 rs2]|[]] [_ Hr]. apply simR_ret. exact Hr.
Qed.

(** X9. Asking for more never gives more: with the same role, the elements
    [queryAll] returns for a payload with a name are among those it returns
    without one, and the elements it returns for a name taken exactly are
    among those it returns for the same name taken loosely, in the same
    order.  The wider query returns whenever the narrower one does. *)
Theorem narrower_filter_narrows (d : Dom) (w : WeakMaps)
    (parse : string -> option ParsedOptions.t) (document : node) (fuel : nat)
    (root : node) (s1 s2 : string) (p1 p2 : ParsedOptions.t)
    (c1 c1' : StyleCache) (rs1 : list node) :
  parse s1 = Some p1 -> parse s2 = Some p2 -> narrower p1 p2 ->
  cache_ok c1 ->
  queryAll d w parse document fuel root s1 c1 = Ok (rs1, c1') ->
  forall c2,
    cache_ok c2 ->
    exists rs2 c2',
      queryAll d w parse document fuel root s2 c2 = Ok (rs2, c2')
      /\ sublist rs1 rs2.
Proof.
  intros H1 H2 Hn Hc1 Hrun c2 Hc2.
  destruct (simR_queryAll_narrower d w parse document fuel root s1 s2 p1 p2
              H1 H2 Hn c1 c2 rs1 c1' Hc1 Hc2 Hrun)
    as (_ & rs2 & c2' & Hrun2 & _ & Hsub).
  exists rs2, c2'. auto.
Qed.

Lemma narrower_filter_narrows_witness :
  (exists rs2 c2',
      queryAll buttonsDoc scriptForInit buttonsParse 0 9 0 "button" ∅
      = Ok (rs2, c2')
      /\ sublist [3] rs2)
  /\ (exists rs2 c2',
      queryAll spacedDoc scriptForInit spacedParse 0 9 0 "named" ∅
      = Ok (rs2, c2')
      /\ sublist [2] rs2).
Proof.
  split.
  - eapply (narrower_filter_narrows buttonsDoc scriptForInit buttonsParse 0 9
              0 "go" "button" (payload (Some "button") (Some "go") None)
              (payload (Some "button") None None) ∅ _ [3]).
    + reflexivity.
    + reflexivity.
    + split; [reflexivity | left; reflexivity].
    + apply cache_ok_empty.
    + vm_compute. reflexivity.
    + apply cache_ok_empty.
  - eapply (narrower_filter_narrows spacedDoc scriptForInit spacedParse 0 9
              0 "exact" "named"
              (payload (Some "button") (Some "Save the file") (Some true))
              (payload (Some "button") (Some "Save the file") None) ∅ _ [2]).
    + reflexivity.
    + reflexivity.
    + split; [reflexivity | right; split; reflexivity].
    + apply cache_ok_empty.
    + vm_compute. reflexivity.
    + apply cache_ok_empty.
Defined.

(** ** The name does not depend on the role *)

Lemma agree_sim {A} (m : M A) : sim m m -> agree m m.
Proof.
  intros Hs c1 c2 a1 a2 c1' c2' H1 H2 E1 E2.
  destruct (Hs c1 c2 a1 c1' H1 H2 E1) as (Hc1' & c & E & Hc).
  rewrite E in E2. injection E2 as <- <-. auto.
Qed.

Lemma agree_ret {A} (a : A) : agree (ret a) (ret a).
Proof. apply agree_sim. apply sim_ret. Qed.

Lemma agree_outOfFuel {A} (m1 m2 : M A) : agree outOfFuel m2.
Proof. intros c1 c2 a1 a2 c1' c2' _ _ H. discriminate. Qed.

Lemma agree_bind {A B} (m1 m2 : M A) (k1 k2 : A -> M B) :
  agree m1 m2 -> (forall a, agree (k1 a) (k2 a)) ->
  agree (bind m1 k1) (bind m2 k2).
Proof.
  intros Hm Hk c1 c2 b1 b2 c1' c2' H1 H2 E1 E2. unfold bind in *.
  destruct (m1 c1) as [[a1 ca]| |] eqn:Ea; try discriminate.
  destruct (m2 c2) as [[a2 cb]| |] eqn:Eb; try discriminate.
  destruct (Hm _ _ _ _ _ _ H1 H2 Ea Eb) as (Hca & Hcb & <-).
  exact (Hk a1 _ _ _ _ _ _ Hca Hcb E1 E2).
Qed.

Lemma agree_mapRefs (f g : node -> NameState -> M (string * NameState))
    (refs : list node) :
  (forall x s, agree (f x s) (g x s)) ->
  forall s, agree (mapRefs f refs s) (mapRefs g refs s).
Proof.
  intros Hfg. induction refs as [|x l IH]; intros s; cbn [mapRefs].
  - apply agree_ret.
  - apply agree_bind; [apply Hfg|]. intros [text st'].
    apply agree_bind; [apply IH|]. intros [texts st'']. apply agree_ret.
Qed.

Lemma sim_nameFromText (d : Dom) (w : WeakMaps) (fuel : nat) (el : node)
    (cache1 : gmap node string) (visited2 : gset node) :
  sim (nameFromText d w fuel el cache1 visited2)
      (nameFromText d w fuel el cache1 visited2).
Proof.
  unfold nameFromText, cacheAndReturn. apply sim_bind.
  - apply sim_asText. lia.
  - intros text. apply sim_ret.
Qed.

(** Steps 4 and 5 together give what step 5 alone gives, whatever role
    step 4 finds and whether or not it takes the name from content. *)
Lemma steps_4_5_nameFromText (d : Dom) (w : WeakMaps) (fuel : nat)
    (el : node) (cache1 : gmap node string) (visited2 : gset node)
    (pre : M (option string)) (cond : option string -> bool) :
  sim pre pre ->
  forall c r c',
    cache_ok c ->
    (let* role := pre in
     if cond role
     then let* text := asText d w fuel el in
          if truthy text then cacheAndReturn cache1 visited2 el text
          else nameFromText d w fuel el cache1 visited2
     else nameFromText d w fuel el cache1 visited2) c = Ok (r, c') ->
    cache_ok c'
    /\ exists c0 c0',
        cache_ok c0
        /\ nameFromText d w fuel el cache1 visited2 c0 = Ok (r, c0').
Proof.
  intros Hpre c r c' Hc Hrun. unfold bind in Hrun at 1.
  destruct (pre c) as [[role c1]| |] eqn:Epre; try discriminate.
  pose proof (sim_preserves pre c role c1 Hpre Hc Epre) as Hc1.
  pose proof (sim_nameFromText d w fuel el cache1 visited2) as HF.
  destruct (cond role).
  - unfold bind in Hrun at 1.
    destruct (asText d w fuel el c1) as [[text c2]| |] eqn:Etext;
      try discriminate.
    assert (Hc2 : cache_ok c2).
    { eapply sim_preserves; [apply (sim_asText d w fuel fuel); lia|..];
        eassumption. }
    destruct (truthy text) eqn:Ht.
    + unfold cacheAndReturn in Hrun. injection Hrun as <- <-.
      split; [assumption|]. exists c1, c2. split; [assumption|].
      unfold nameFromText, bind, cacheAndReturn. rewrite Etext, Ht.
      reflexivity.
    + split; [exact (sim_preserves _ _ _ _ HF Hc2 Hrun)|].
      exists c2, c'. auto.
  - split; [exact (sim_preserves _ _ _ _ HF Hc1 Hrun)|].
    exists c1, c'. auto.
Qed.

Lemma agree_steps_4_5 (d : Dom) (w : WeakMaps) (fuel : nat)
    (el : node) (cache1 : gmap node string) (visited2 : gset node)
    (pre1 pre2 : M (option string)) (cond1 cond2 : option string -> bool) :
  sim pre1 pre1 -> sim pre2 pre2 ->
  agree
    (let* role := pre1 in
     if cond1 role
     then let* text := asText d w fuel el in
          if truthy text then cacheAndReturn cache1 visited2 el text
          else nameFromText d w fuel el cache1 visited2
     else nameFromText d w fuel el cache1 visited2)
    (let* role := pre2 in
     if cond2 role
     then let* text := asText d w fuel el in
          if truthy text then cacheAndReturn cache1 visited2 el text
          else nameFromText d w fuel el cache1 visited2
     else nameFromText d w fuel el cache1 visited2).
Proof.
  intros H1 H2 c1 c2 r1 r2 c1' c2' Hc1 Hc2 E1 E2.
  destruct (steps_4_5_nameFromText d w fuel el cache1 visited2 pre1 cond1 H1
              c1 r1 c1' Hc1 E1) as (Hc1' & a & a' & Ha & Ea).
  destruct (steps_4_5_nameFromText d w fuel el cache1 visited2 pre2 cond2 H2
              c2 r2 c2' Hc2 E2) as (Hc2' & b & b' & Hb & Eb).
  split; [assumption|]. split; [assumption|].
  exact (proj2 (proj2 (agree_sim _ (sim_nameFromText d w fuel el cache1
                                      visited2)
                         a b r1 r2 a' b' Ha Hb Ea Eb))).
Qed.

Lemma sim_knownRole (d : Dom) (w : WeakMaps) (fuel : nat) (el : node)
    (known : option string) :
  sim match known with
      | Some r => ret (Some r)
      | None => computeElementRole_with d w (computeAccessibleName d w fuel) el
      end
      match known with
      | Some r => ret (Some r)
      | None => computeElementRole_with d w (computeAccessibleName d w fuel) el
      end.
Proof.
  destruct known; [apply sim_ret|].
  apply sim_computeElementRole_with. intros x o.
  apply sim_computeAccessibleName. lia.
Qed.

Lemma agree_computeAccessibleName (d : Dom) (w : WeakMaps) (fuel : nat) :
  forall el known1 known2 allow1 allow2 cache0 visited0,
    agree (computeAccessibleName d w fuel el
             {| knownRole := known1; cache := cache0; visited := visited0;
                allowNameFromContent := allow1 |})
          (computeAccessibleName d w fuel el
             {| knownRole := known2; cache := cache0; visited := visited0;
                allowNameFromContent := allow2 |}).
Proof.
  induction fuel as [|fuel IH];
    intros el known1 known2 allow1 allow2 cache0 visited0;
    cbn [computeAccessibleName]; [apply agree_outOfFuel; exact outOfFuel|].
  cbn [knownRole cache visited allowNameFromContent].
  destruct (default ∅ cache0 !! el); [apply agree_ret|].
  destruct (bool_decide _); [apply agree_ret|].
  apply agree_bind; [apply agree_mapRefs; intros x s; apply IH|].
  intros [texts [cache1 visited2]].
  destruct (_ && truthy (normalize texts)); [apply agree_ret|].
  destruct (truthy (trim _)); [apply agree_ret|].
  apply agree_bind;
    [apply agree_sim; apply sim_associatedLabelText; lia|].
  intros assoc.
  destruct (truthyOpt assoc); [apply agree_ret|].
  destruct (String.eqb (tagName (d el)) "IMG" && _); [apply agree_ret|].
  destruct (String.eqb (tagName (d el)) "INPUT" && _ && _);
    [apply agree_ret|].
  destruct (String.eqb (tagName (d el)) "INPUT" && _ && _ && _);
    [apply agree_ret|].
  destruct (isHTMLElement (d el) && _); [apply agree_ret|].
  apply (agree_steps_4_5 d w fuel el cache1 visited2 _ _
           (fun role => negb (bool_decide (allow1 = Some false))
                        && truthyOpt role
                        && has rolesAllowingNameFromContent (default "" role))
           (fun role => negb (bool_decide (allow2 = Some false))
                        && truthyOpt role
                        && has rolesAllowingNameFromContent (default "" role)));
    apply sim_knownRole.
Qed.

Lemma name_agrees (d : Dom) (w : WeakMaps) (fuel1 fuel2 : nat)
    (el : node) (opts1 opts2 : ComputeAccessibleNamesOptions)
    (c1 c2 c1' c2' : StyleCache) (r1 r2 : string * NameState) :
  cache opts1 = cache opts2 ->
  visited opts1 = visited opts2 ->
  cache_ok c1 -> cache_ok c2 ->
  computeAccessibleName d w fuel1 el opts1 c1 = Ok (r1, c1') ->
  computeAccessibleName d w fuel2 el opts2 c2 = Ok (r2, c2') ->
  r1 = r2.
Proof.
  intros Hcache Hvisited Hc1 Hc2 E1 E2.
  destruct (sim_computeAccessibleName d w fuel1 (max fuel1 fuel2) el opts1
              (Nat.le_max_l _ _) c1 c1 r1 c1' Hc1 Hc1 E1) as (_ & a & Ea & _).
  destruct (sim_computeAccessibleName d w fuel2 (max fuel1 fuel2) el opts2
              (Nat.le_max_r _ _) c2 c2 r2 c2' Hc2 Hc2 E2) as (_ & b & Eb & _).
  destruct opts1 as [k1 ca1 v1 a1], opts2 as [k2 ca2 v2 a2].
  cbn [cache visited] in Hcache, Hvisited. subst ca2 v2.
  exact (proj2 (proj2 (agree_computeAccessibleName d w (max fuel1 fuel2) el
                         k1 k2 a1 a2 ca1 v1 c1 c2 r1 r2 a b Hc1 Hc2 Ea Eb))).
Qed.

(** X10. The role never decides the accessible name: computed with any
    [knownRole] and any [allowNameFromContent], from the same name cache and
    visited set, the name and the cache and visited set left behind are the
    same.  Step 4 and step 5 both return the element's text, so the roles
    that allow a name from content are not told from the others. *)
Theorem name_ignores_role_options (d : Dom) (w : WeakMaps) (fuel1 fuel2 : nat)
    (el : node) (opts1 opts2 : ComputeAccessibleNamesOptions)
    (c1 c2 c1' c2' : StyleCache) (r1 r2 : string * NameState) :
  cache opts1 = cache opts2 ->
  visited opts1 = visited opts2 ->
  cache_ok c1 -> cache_ok c2 ->
  computeAccessibleName d w fuel1 el opts1 c1 = Ok (r1, c1') ->
  computeAccessibleName d w fuel2 el opts2 c2 = Ok (r2, c2') ->
  r1 = r2.
Proof.
  intros Hcache Hvisited Hc1 Hc2 E1 E2.
  exact (name_agrees d w fuel1 fuel2 el opts1 opts2 c1 c2 c1' c2' r1 r2
           Hcache Hvisited Hc1 Hc2 E1 E2).
Qed.

Lemma name_ignores_role_options_witness :
  ("Intro", ({[ 2 := "Intro" ]}, {[ 2 ]}) : NameState)
  = ("Intro", ({[ 2 := "Intro" ]}, {[ 2 ]}) : NameState).
Proof.
  eapply (name_ignores_role_options sectionDoc scriptForInit 9 5 2
            noOptions sectionOptions ∅ {[ 2 := 2 ]}).
  - reflexivity.
  - reflexivity.
  - apply cache_ok_empty.
  - apply cache_ok_insert. apply cache_ok_empty.
  - vm_compute. reflexivity.
  - vm_compute. reflexivity.
Defined.

Lemma section_role_of_name (d : Dom) (w : WeakMaps) (fuel fuel0 : nat)
    (el : node) (c c' c0 c0' : StyleCache) (r : option string)
    (name : string) :
  truthyOpt (getAttribute d el "role") = false ->
  tagName (d el) = "SECTION" ->
  cache_ok c -> cache_ok c0 ->
  computeElementRole d w fuel el c = Ok (r, c') ->
  accessibleNameOf d w fuel0 el c0 = Ok (name, c0') ->
  r = Some (if truthy name then "region" else "generic").
Proof.
  intros Hrole Htag Hc Hc0 Er En.
  unfold computeElementRole, computeElementRole_with in Er.
  rewrite Hrole, Htag in Er. cbn [assoc tagRoles] in Er.
  change (assoc "SECTION" tagRoles) with (@None string) in Er.
  cbn [String.eqb Ascii.eqb Bool.eqb andb] in Er.
  unfold bind in Er.
  destruct (computeAccessibleName d w fuel el _ c) as [[[nm st] c1]| |] eqn:E1;
    try discriminate.
  injection Er as <- <-.
  unfold accessibleNameOf, bind in En.
  destruct (computeElementRole d w fuel0 el c0) as [[r0 c2]| |] eqn:E2;
    try discriminate.
  destruct (computeAccessibleName d w fuel0 el _ c2) as [[[nm' st'] c3]| |]
    eqn:E3; try discriminate.
  injection En as <- <-.
  assert (Hc2 : cache_ok c2).
  { eapply sim_preserves;
      [apply (sim_computeElementRole d w fuel0 fuel0); lia|..]; eassumption. }
  pose proof (name_agrees d w fuel fuel0 el sectionOptions
                {| knownRole := r0; cache := None; visited := None;
                   allowNameFromContent := None |}
                c c2 c1 c3 (nm, st) (nm', st')
                eq_refl eq_refl Hc Hc2 E1 E3) as H.
  injection H as -> _. reflexivity.
Qed.

(** On a well-formed document the role and the name of an element are
    computed once there is enough fuel. *)
Lemma role_and_name_return (d : Dom) (w : WeakMaps) (el : node) :
  wellFormed d w ->
  exists fuel0, forall fuel c,
    fuel0 <= fuel ->
    (exists r c', computeElementRole d w fuel el c = Ok (r, c'))
    /\ (exists name c', accessibleNameOf d w fuel el c = Ok (name, c')).
Proof.
  intros (depth & rank & D & R & N & Hdepth & HD & Hrank & HR & Hrefs).
  set (N' := max N (S el)).
  assert (Hrefs' : forall x ref,
             In ref (labelledByElementsOf d w x) -> ref < N').
  { intros x ref Hin. apply Hrefs in Hin. unfold N'. lia. }
  assert (Hel : el < N') by (unfold N'; lia).
  exists (N' + (N' + (R + D + 2) + 1) + (R + D + 2) + 1).
  intros fuel c Hfuel.
  assert (Hrole : returns (computeElementRole d w fuel el) (fun _ => True)).
  { apply (returns_computeElementRole_N d w depth rank D R N'
             Hdepth HD Hrank HR Hrefs'); [assumption | lia]. }
  split.
  - destruct (Hrole c) as (r & c' & E & _). eauto.
  - assert (Hname : returns (accessibleNameOf d w fuel el) (fun _ => True)).
    { unfold accessibleNameOf.
      eapply returns_bind; [exact Hrole|]. intros accessibleRole _.
      eapply returns_bind.
      - apply (returns_computeAccessibleName d w depth rank D R N'
                 Hdepth HD Hrank HR Hrefs'); [assumption | lia].
      - intros [accessibleName st] _. apply returns_ret. exact I. }
    destruct (Hname c) as (name & c' & E & _). eauto.
Qed.

(** X11. A [SECTION] without a [role] attribute has the role [region]
    exactly when its accessible name, as [matchesNameFilter] computes it, is
    not empty, and [generic] otherwise: no run of [computeElementRole]
    returns anything else, and on a well-formed document the name and that
    role are returned once there is enough fuel, whatever the style cache
    holds.  The name may come from the section's text:
    [allowNameFromContent: false] does not keep it out. *)
Theorem section_region_iff_named (d : Dom) (w : WeakMaps) (el : node) :
  truthyOpt (getAttribute d el "role") = false ->
  tagName (d el) = "SECTION" ->
  (forall fuel fuel0 c c' c0 c0' r name,
      cache_ok c -> cache_ok c0 ->
      computeElementRole d w fuel el c = Ok (r, c') ->
      accessibleNameOf d w fuel0 el c0 = Ok (name, c0') ->
      r = Some (if truthy name then "region" else "generic"))
  /\ (wellFormed d w ->
      exists fuel0 name, forall fuel c,
        fuel0 <= fuel -> cache_ok c ->
        (exists c', accessibleNameOf d w fuel el c = Ok (name, c'))
        /\ (exists c',
              computeElementRole d w fuel el c
              = Ok (Some (if truthy name then "region" else "generic"),
                    c'))).
Proof.
  intros Hrole Htag. split.
  - intros fuel fuel0 c c' c0 c0' r name Hc Hc0 Er En.
    exact (section_role_of_name d w fuel fuel0 el c c' c0 c0' r name
             Hrole Htag Hc Hc0 Er En).
  - intros Hwf.
    destruct (role_and_name_return d w el Hwf) as [fuel0 H].
    destruct (H fuel0 ∅ (le_n _)) as [_ (name & c0 & E0)].
    exists fuel0, name. intros fuel c Hle Hc.
    destruct (sim_accessibleNameOf d w fuel0 fuel el Hle ∅ c name c0
                cache_ok_empty Hc E0) as (_ & c1 & E1 & _).
    split; [exists c1; exact E1|].
    destruct (H fuel c Hle) as [(r & c2 & E2) _].
    exists c2. rewrite E2.
    rewrite (section_role_of_name d w fuel fuel el c c2 c c1 r name
               Hrole Htag Hc Hc E2 E1).
    reflexivity.
Qed.

Lemma sectionDoc_wellFormed : wellFormed sectionDoc scriptForInit.
Proof.
  exists (fun n => match n with 2 => 1 | 4 => 1 | _ => 0 end),
         (fun n => match n with 0 => 3 | 1 => 2 | 2 => 1 | _ => 0 end),
         1, 3, 0.
  split; [|split; [|split; [|split]]].
  - intros [|[|[|[|[|[|n]]]]]] p H; vm_compute in H; inversion H; cbn; lia.
  - intros [|[|[|[|[|n]]]]]; cbn; lia.
  - intros n x. unfold textChildren. cbn [shadowdomMap scriptForInit].
    rewrite lookup_empty.
    destruct n as [|[|[|[|[|[|n]]]]]]; vm_compute;
      intros H; repeat (destruct H as [<-|H]; [cbn; lia|]); destruct H.
  - intros [|[|[|[|[|n]]]]]; cbn; lia.
  - intros el ref. unfold labelledByElementsOf.
    cbn [internalsMap scriptForInit]. rewrite lookup_empty.
    destruct el as [|[|[|[|[|[|el]]]]]]; vm_compute; intros H; destruct H.
Qed.

Lemma section_region_iff_named_witness :
  (Some "region" = Some (if truthy "Intro" then "region" else "generic")
   /\ exists fuel0 name, forall fuel c,
        fuel0 <= fuel -> cache_ok c ->
        (exists c',
            accessibleNameOf sectionDoc scriptForInit fuel 2 c
            = Ok (name, c'))
        /\ (exists c',
              computeElementRole sectionDoc scriptForInit fuel 2 c
              = Ok (Some (if truthy name then "region" else "generic"),
                    c')))
  /\ (Some "generic" = Some (if truthy "" then "region" else "generic")
      /\ exists fuel0 name, forall fuel c,
           fuel0 <= fuel -> cache_ok c ->
           (exists c',
               accessibleNameOf sectionDoc scriptForInit fuel 4 c
               = Ok (name, c'))
           /\ (exists c',
                 computeElementRole sectionDoc scriptForInit fuel 4 c
                 = Ok (Some (if truthy name then "region" else "generic"),
                       c'))).
Proof.
  split.
  - destruct (section_region_iff_named sectionDoc scriptForInit 2)
      as [H1 H2]; [reflexivity | reflexivity |].
    split.
    + eapply (H1 9 9 ∅ _ ∅ _);
        [apply cache_ok_empty | apply cache_ok_empty
        | vm_compute; reflexivity | vm_compute; reflexivity].
    + apply H2. apply sectionDoc_wellFormed.
  - destruct (section_region_iff_named sectionDoc scriptForInit 4)
      as [H1 H2]; [reflexivity | reflexivity |].
    split.
    + eapply (H1 9 9 ∅ _ ∅ _);
        [apply cache_ok_empty | apply cache_ok_empty
        | vm_compute; reflexivity | vm_compute; reflexivity].
    + apply H2. apply sectionDoc_wellFormed.
Defined.

Example section_with_text_is_region :
  returned (queryAll sectionDoc scriptForInit sectionParse 0 9 0 "region" ∅)
  = Some [2]
  /\ returned (queryAll sectionDoc scriptForInit sectionParse 0 9 0
                 "generic" ∅) = Some [4].
Proof. vm_compute. split; reflexivity. Qed.

(** ** The results are a function of the document *)

(** X12. On a well-formed document, and for a payload that [JSON.parse]
    accepts, that is not [null] and whose role, name and exact flag are of
    the declared types (strings and a boolean, each optional), the two
    functions are well defined: there is one list of elements that
    [queryAll] returns with any sufficient fuel and from any style cache an
    engine can hold, and [query] returns its first element, or nothing when
    the list is empty. *)
Theorem queries_well_defined (d : Dom) (w : WeakMaps)
    (jsonParse : string -> option JsonPayload) (document : node)
    (root : node) (selector : string) :
  wellFormed d w -> traversable d w ->
  (exists p, jsonParse selector = Some (JsonObject p)) ->
  let parse := destructured jsonParse in
  exists fuel0 rs, forall fuel c,
    fuel0 <= fuel -> cache_ok c ->
    (exists c',
        queryAll d w parse document fuel root selector c = Ok (rs, c'))
    /\ (exists c',
          query d w parse document fuel root selector c = Ok (head rs, c')).
Proof.
  intros Hwf Htr Hj parse.
  assert (Hp : is_Some (parse selector)).
  { destruct Hj as [p Hj]. exists p. unfold parse, destructured.
    rewrite Hj. reflexivity. }
  destruct (query_returns d w parse document root selector Hwf Htr Hp)
    as [fuel0 H].
  destruct (H fuel0 ∅ (le_n _)) as [_ (rs & c0 & E0)].
  exists fuel0, rs. intros fuel c Hle Hc.
  destruct (sim_queryAll d w parse document fuel0 fuel root selector Hle
              ∅ c rs c0 cache_ok_empty Hc E0) as (_ & c1 & E1 & _).
  split; [exists c1; exact E1|].
  destruct (simR_queryAll_query d w parse document fuel root selector
              c c rs c1 Hc Hc E1) as (_ & r & c2 & E2 & _ & ->).
  exists c2. exact E2.
Qed.

Lemma queries_well_defined_witness :
  exists fuel0 rs, forall fuel c,
    fuel0 <= fuel -> cache_ok c ->
    (exists c',
        queryAll buttonsDoc scriptForInit (destructured buttonsJson) 0 fuel
          0 "button" c
        = Ok (rs, c'))
    /\ (exists c',
          query buttonsDoc scriptForInit (destructured buttonsJson) 0 fuel
            0 "button" c
          = Ok (head rs, c')).
Proof.
  apply (queries_well_defined buttonsDoc scriptForInit buttonsJson 0 0
           "button").
  - apply buttonsDoc_wellFormed.
  - apply buttonsDoc_traversable.
  - eexists. reflexivity.
Defined.

(** ** The methods of a prototype chain *)

Module UtilsFacts.
Import Utils.

Section Entries.

Variable Method : Type.
Variable h : Heap Method.

Lemma descriptorOf_app (key : string) (K K' : list (string * option Method)) :
  descriptorOf key (K ++ K')
  = match descriptorOf key K with
    | Some v => Some v
    | None => descriptorOf key K'
    end.
Proof.
  induction K as [|[k v] K IH]; [reflexivity|].
  cbn [app descriptorOf]. destruct (String.eqb k key); [reflexivity | exact IH].
Qed.

Lemma descriptorOf_In (key : string) (K : list (string * option Method)) :
  is_Some (descriptorOf key K) <-> In key (map fst K).
Proof.
  induction K as [|[k v] K IH]; cbn [descriptorOf map fst In].
  - split; [intros [x Hx]; discriminate | contradiction].
  - destruct (String.eqb k key) eqn:E.
    + apply String.eqb_eq in E. split; [auto | eexists; reflexivity].
    + apply String.eqb_neq in E. rewrite IH. split; [auto|].
      intros [H|H]; [contradiction | assumption].
Qed.

Lemma entriesInv_ext (K K' : list (string * option Method))
    (st : gset string * list (string * Method)) :
  (forall key, descriptorOf key K = descriptorOf key K') ->
  entriesInv K st -> entriesInv K' st.
Proof.
  intros HK (H1 & H2 & H3). split; [|split].
  - intros key. rewrite <- HK. apply H1.
  - intros key value. rewrite <- HK. apply H2.
  - exact H3.
Qed.

Lemma entriesInv_step (K descriptors : list (string * option Method))
    (key : string) (v : option Method)
    (st : gset string * list (string * Method)) :
  descriptorOf key descriptors = Some v ->
  entriesInv K st ->
  entriesInv (K ++ [(key, v)]) (entries_key descriptors st key).
Proof.
  intros Hv (H1 & H2 & H3). destruct st as [seen es].
  cbn [fst snd] in H1, H2, H3. unfold entries_key.
  assert (Hother : forall key', key' <> key ->
            descriptorOf key' (K ++ [(key, v)]) = descriptorOf key' K).
  { intros key' Hne. rewrite descriptorOf_app. cbn [descriptorOf].
    destruct (String.eqb key key') eqn:E;
      [apply String.eqb_eq in E; congruence|].
    destruct (descriptorOf key' K); reflexivity. }
  destruct (String.eqb key "constructor") eqn:Ec.
  { apply String.eqb_eq in Ec. subst key. split; [|split]; cbn [fst snd].
    - intros key. rewrite H1. split; intros [Hne Hs]; split; try assumption.
      + rewrite Hother by assumption. assumption.
      + rewrite Hother in Hs by assumption. assumption.
    - intros key value. rewrite H2.
      split; intros [Hne Hs]; split; try assumption.
      + rewrite Hother by assumption. assumption.
      + rewrite Hother in Hs by assumption. assumption.
    - exact H3. }
  apply String.eqb_neq in Ec.
  destruct (bool_decide (key ∈ seen)) eqn:Hseen.
  { apply bool_decide_eq_true in Hseen. apply H1 in Hseen as [_ [x Hx]].
    apply (entriesInv_ext K);
      [|split; [exact H1 | split; [exact H2 | exact H3]]].
    intros key'. rewrite descriptorOf_app.
    destruct (descriptorOf key' K) eqn:E; [reflexivity|].
    cbn [descriptorOf]. destruct (String.eqb key key') eqn:E';
      [apply String.eqb_eq in E'; congruence | reflexivity]. }
  apply bool_decide_eq_false in Hseen.
  assert (Hnew : descriptorOf key K = None).
  { destruct (descriptorOf key K) eqn:E; [|reflexivity].
    exfalso. apply Hseen. apply H1. split; [assumption | eexists; exact E]. }
  assert (Hkey : descriptorOf key (K ++ [(key, v)]) = Some v).
  { rewrite descriptorOf_app, Hnew. cbn [descriptorOf].
    rewrite String.eqb_refl. reflexivity. }
  assert (Hseen' : forall key' : string,
            key' ∈ ({[key]} ∪ seen : gset string)
            <-> key' <> "constructor"
                /\ is_Some (descriptorOf key' (K ++ [(key, v)]))).
  { intros key'. rewrite elem_of_union, elem_of_singleton.
    destruct (String.eqb key key') eqn:E.
    - apply String.eqb_eq in E. subst key'. rewrite Hkey.
      split; [intros _; split; [assumption | eexists; reflexivity] | auto].
    - apply String.eqb_neq in E. rewrite Hother by congruence. rewrite H1.
      split; [intros [H|H]; [congruence | assumption] | auto]. }
  assert (Hkeep : forall key' value,
            key' <> key ->
            (In (key', value) es
             <-> key' <> "constructor"
                 /\ descriptorOf key' (K ++ [(key, v)]) = Some (Some value))).
  { intros key' value Hne. rewrite Hother by assumption. apply H2. }
  assert (Hfresh : forall value, ~ In (key, value) es).
  { intros value Hin. apply H2 in Hin as [_ Hin]. congruence. }
  rewrite Hv. destruct v as [value|]; (split; [|split]); cbn [fst snd].
  - exact Hseen'.
  - intros key' value'. rewrite in_app_iff. cbn [In].
    destruct (String.eqb key key') eqn:E.
    + apply String.eqb_eq in E. subst key'. rewrite Hkey. split.
      * intros [Hin|[[= <-]|[]]]; [destruct (Hfresh _ Hin) | auto].
      * intros [_ [= <-]]. auto.
    + apply String.eqb_neq in E. rewrite <- Hkeep by congruence. split.
      * intros [Hin|[[= Hk _]|[]]]; [assumption | congruence].
      * auto.
  - rewrite map_app. apply NoDup_app. split; [assumption|]. split.
    + intros x Hx Hx'. cbn [map fst] in Hx'.
      apply list_elem_of_singleton in Hx'. subst x.
      apply list_elem_of_In, List.in_map_iff in Hx as [[k value'] [Hk Hin]].
      cbn [fst] in Hk. subst k. exact (Hfresh _ Hin).
    + apply NoDup_singleton.
  - exact Hseen'.
  - intros key' value'.
    destruct (String.eqb key key') eqn:E.
    + apply String.eqb_eq in E. subst key'. rewrite Hkey. split.
      * intros Hin. destruct (Hfresh _ Hin).
      * intros [_ [=]].
    + apply String.eqb_neq in E. apply Hkeep. congruence.
  - exact H3.
Qed.

Lemma entriesInv_fold (descriptors : list (string * option Method))
    (keys : list string) :
  (forall key, In key keys -> is_Some (descriptorOf key descriptors)) ->
  forall K st,
    entriesInv K st ->
    entriesInv
      (K ++ map (fun key =>
                   (key, default None (descriptorOf key descriptors))) keys)
      (fold_left (entries_key descriptors) keys st).
Proof.
  induction keys as [|key keys IH]; intros Hkeys K st Hst; cbn [fold_left map].
  - rewrite app_nil_r. exact Hst.
  - destruct (Hkeys key (or_introl eq_refl)) as [v Hv].
    rewrite Hv.
    lazymatch goal with
    | |- entriesInv (K ++ ?x :: ?l) _ =>
        replace (K ++ x :: l) with ((K ++ [(key, v)]) ++ l)
          by (rewrite <- app_assoc; reflexivity)
    end.
    apply IH.
    + intros k Hk. apply Hkeys. right. exact Hk.
    + apply entriesInv_step; assumption.
Qed.

Lemma descriptorOf_keys (key : string) (g : string -> option Method)
    (keys : list string) :
  descriptorOf key (map (fun k => (k, g k)) keys)
  = if bool_decide (key ∈ keys) then Some (g key) else None.
Proof.
  induction keys as [|k keys IH]; cbn [map descriptorOf].
  - rewrite bool_decide_eq_false_2; [reflexivity | apply not_elem_of_nil].
  - destruct (String.eqb k key) eqn:E.
    + apply String.eqb_eq in E. subst k.
      rewrite bool_decide_eq_true_2; [reflexivity | apply list_elem_of_here].
    + apply String.eqb_neq in E. rewrite IH.
      destruct (bool_decide (key ∈ keys)) eqn:Hin.
      * apply bool_decide_eq_true in Hin.
        rewrite bool_decide_eq_true_2;
          [reflexivity | apply list_elem_of_further; exact Hin].
      * apply bool_decide_eq_false in Hin.
        rewrite bool_decide_eq_false_2; [reflexivity|].
        intros H. apply elem_of_cons in H as [H|H]; [congruence | contradiction].
Qed.

Lemma descriptorOf_own (key : string)
    (descriptors : list (string * option Method)) :
  descriptorOf key
    (map (fun k => (k, default None (descriptorOf k descriptors)))
       (map fst descriptors))
  = descriptorOf key descriptors.
Proof.
  rewrite (descriptorOf_keys key
             (fun k => default None (descriptorOf k descriptors))).
  destruct (bool_decide (key ∈ map fst descriptors)) eqn:Hin.
  - apply bool_decide_eq_true in Hin. apply list_elem_of_In in Hin.
    apply descriptorOf_In in Hin as [v Hv]. rewrite Hv. reflexivity.
  - apply bool_decide_eq_false in Hin.
    destruct (descriptorOf key descriptors) eqn:E; [|reflexivity].
    exfalso. apply Hin. apply list_elem_of_In. apply descriptorOf_In.
    eexists. exact E.
Qed.

Lemma entriesInv_object (descriptors K : list (string * option Method))
    (st : gset string * list (string * Method)) :
  entriesInv K st ->
  entriesInv (K ++ descriptors)
    (fold_left (entries_key descriptors) (map fst descriptors) st).
Proof.
  intros Hst.
  eapply entriesInv_ext;
    [|apply (entriesInv_fold descriptors (map fst descriptors));
      [|exact Hst]].
  - intros key. rewrite !descriptorOf_app, descriptorOf_own. reflexivity.
  - intros key Hkey. apply descriptorOf_In. exact Hkey.
Qed.

Lemma entries_from_chain (fuel : nat) :
  forall proto chain K st,
    chainFrom h fuel proto = Some chain ->
    entriesInv K st ->
    exists seen es,
      entries_from h fuel proto st = Some es
      /\ entriesInv
           (K ++ flat_map (fun l => getOwnPropertyDescriptors (h l)) chain)
           (seen, es).
Proof.
  induction fuel as [|fuel IH]; intros proto chain K [seen es] Hchain Hst.
  - destruct proto as [l|]; cbn [chainFrom entries_from] in *.
    + destruct (l =? ObjectPrototype h); [|discriminate].
      injection Hchain as <-. exists seen, es. cbn [flat_map].
      rewrite app_nil_r. auto.
    + injection Hchain as <-. exists seen, es. cbn [flat_map].
      rewrite app_nil_r. auto.
  - destruct proto as [l|]; cbn [chainFrom entries_from] in *.
    + destruct (l =? ObjectPrototype h).
      { injection Hchain as <-. exists seen, es. cbn [flat_map].
        rewrite app_nil_r. auto. }
      destruct (chainFrom h fuel (getPrototypeOf (h l))) as [rest|] eqn:E;
        [|discriminate].
      injection Hchain as <-.
      destruct (IH _ rest _ _ E
                  (entriesInv_object (getOwnPropertyDescriptors (h l)) K
                     (seen, es) Hst)) as (seen' & es' & Hrun & Hinv).
      exists seen', es'. split; [exact Hrun|].
      cbn [flat_map]. rewrite app_assoc. exact Hinv.
    + injection Hchain as <-. exists seen, es. cbn [flat_map].
      rewrite app_nil_r. auto.
Qed.

Lemma entriesInv_empty : entriesInv (Method := Method) [] (∅, []).
Proof.
  split; [|split]; cbn [fst snd descriptorOf map].
  - intros key. split; [intros H; apply elem_of_empty in H; destruct H|].
    intros [_ [x Hx]]. discriminate.
  - intros key value. split; [contradiction | intros [_ H]; discriminate].
  - constructor.
Qed.

Lemma entries_spec (fuel : nat) (object : loc) (chain : list loc) :
  chainFrom h fuel (Some object) = Some chain ->
  exists es,
    entries h fuel object = Some es
    /\ NoDup (map fst es)
    /\ forall key value, In (key, value) es <-> methodOf h chain key value.
Proof.
  intros Hchain.
  destruct (entries_from_chain fuel (Some object) chain [] (∅, []) Hchain
              entriesInv_empty) as (seen & es & Hrun & _ & H2 & H3).
  exists es. split; [exact Hrun|]. split; [exact H3|]. exact H2.
Qed.

(** X13. [entries] lists the methods of an object: a pair for every
    property name other than [constructor] that property lookup along the
    prototype chain, up to [Object.prototype], finds with a function as its
    value, with that function, and nothing else; no name is listed twice.
    A property that is not a function hides a method of the same name
    further up the chain. *)
Theorem entries_are_the_methods (fuel : nat) (object : loc)
    (chain : list loc) :
  chainFrom h fuel (Some object) = Some chain ->
  exists es,
    entries h fuel object = Some es
    /\ NoDup (map fst es)
    /\ forall key value, In (key, value) es <-> methodOf h chain key value.
Proof. exact (entries_spec fuel object chain). Qed.

End Entries.

Lemma entries_are_the_methods_witness :
  exists es,
    entries locatorHeap 5 2 = Some es
    /\ NoDup (map fst es)
    /\ forall key value, In (key, value) es <-> methodOf locatorHeap [2; 1] key value.
Proof.
  apply (entries_are_the_methods nat locatorHeap 5 2 [2; 1]). reflexivity.
Defined.

Example locator_methods :
  entries locatorHeap 5 2 = Some [("click", 7); ("fill", 10)].
Proof. vm_compute. reflexivity. Qed.

End UtilsFacts.

(** ** What the traversal reaches *)

Lemma triple_isElementHidden_iff (d : Dom) (fuel : nat) (n : node) :
  triple (isElementHidden d fuel n)
         (fun b => if b then hiddenElement d n else ~ hiddenElement d n).
Proof.
  intros c b c' Hc Hrun. split.
  - eapply sim_preserves; [apply (sim_isElementHidden d fuel fuel n); lia|..];
      eassumption.
  - destruct b.
    + eapply isElementHidden_true_inv; eassumption.
    + intros (a & Hanc & Hel & Hhid).
      eapply isElementHidden_false_inv; eassumption.
Qed.

Section Traversed.

Variable d : Dom.
Variable w : WeakMaps.
Variable Good : node -> Prop.

Lemma traversed_nil (v : gset node) (acc : list node) :
  traversed d w Good [] v acc (Continue (v, acc)).
Proof.
  cbn [traversed]. repeat split; try contradiction; auto.
Qed.

Lemma traversed_cons (x : node) (l : list node) (v v1 v' : gset node)
    (acc acc1 acc' : list node) :
  traversed d w Good [x] v acc (Continue (v1, acc1)) ->
  traversed d w Good l v1 acc1 (Continue (v', acc')) ->
  traversed d w Good (x :: l) v acc (Continue (v', acc')).
Proof.
  cbn [traversed].
  intros (A1 & A2 & A3 & A4 & A5 & A6 & A7) (B1 & B2 & B3 & B4 & B5 & B6 & B7).
  split; [|split; [|split; [|split; [|split; [|split]]]]].
  - intros m Hm. apply B1. apply A1. exact Hm.
  - intros y [<-|Hy]; [apply B1; apply A2; left; reflexivity | auto].
  - intros m y Hm Hnv Hstep. destruct (decide (m ∈ v1)) as [Hv1|Hv1].
    + apply B1. exact (A3 m y Hv1 Hnv Hstep).
    + exact (B3 m y Hm Hv1 Hstep).
  - intros m Hm Hnv. destruct (decide (m ∈ v1)) as [Hv1|Hv1].
    + destruct (A4 m Hv1 Hnv) as (y & [<-|[]] & Hr).
      exists x. split; [left; reflexivity | exact Hr].
    + destruct (B4 m Hm Hv1) as (y & Hy & Hr).
      exists y. split; [right; exact Hy | exact Hr].
  - auto.
  - intros m Hm Hnv Hel Hvis Hg. destruct (decide (m ∈ v1)) as [Hv1|Hv1].
    + apply B5. exact (A6 m Hv1 Hnv Hel Hvis Hg).
    + exact (B6 m Hm Hv1 Hel Hvis Hg).
  - intros z Hz. destruct (B7 z Hz) as [Hz1|(Hz1 & Hz2 & Hz3)].
    + destruct (A7 z Hz1) as [Hz0|(Hz0 & Hz0' & Hz0'')]; [left; exact Hz0|].
      right. split; [apply B1; exact Hz0 | auto].
    + right. split; [exact Hz1|]. split; [|exact Hz3].
      intros Hzv. apply Hz2. apply A1. exact Hzv.
Qed.

Lemma triple_forEach_traversed
    (f : node -> gset node * list node
         -> M (Loop (gset node * list node) Empty_set)) :
  (forall x v acc, triple (f x (v, acc)) (traversed d w Good [x] v acc)) ->
  forall l v acc,
    triple (forEach f l (v, acc)) (traversed d w Good l v acc).
Proof.
  intros Hf. induction l as [|x l IH]; intros v acc; cbn [forEach].
  - apply triple_ret. apply traversed_nil.
  - eapply triple_bind; [apply Hf|].
    intros [[v1 acc1]|[]] H1.
    eapply triple_weaken; [apply IH|].
    intros [[v' acc']|[]] H2.
    exact (traversed_cons x l v v1 v' acc acc1 acc' H1 H2).
Qed.

(** The node [n] itself, new in the visited set, with the nodes it steps to
    traversed after it. *)
Lemma traversed_node (n : node) (v v' : gset node) (acc acc1 acc' : list node)
    (l : list node) :
  n ∉ v ->
  (forall x, flatStep d w n x -> In x l) ->
  (forall x, In x l -> flatStep d w n x) ->
  collects
    (fun x => instanceofElement d x = true /\ ~ hiddenElement d x /\ Good x)
    n acc (Continue acc1) ->
  traversed d w Good l ({[n]} ∪ v) acc1 (Continue (v', acc')) ->
  traversed d w Good [n] v acc (Continue (v', acc')).
Proof.
  cbn [traversed collects].
  intros Hnv Hsteps Hl (C1 & C2 & C3) (B1 & B2 & B3 & B4 & B5 & B6 & B7).
  assert (Hn : n ∈ v').
  { apply B1. apply elem_of_union_l. apply elem_of_singleton. reflexivity. }
  assert (Hcases : forall m, m ∉ v -> m = n \/ m ∉ ({[n]} ∪ v : gset node)).
  { intros m Hm. destruct (decide (m = n)) as [->|Hne]; [left; reflexivity|].
    right. intros H. apply elem_of_union in H as [H|H]; [|contradiction].
    apply elem_of_singleton in H. contradiction. }
  split; [|split; [|split; [|split; [|split; [|split]]]]].
  - intros m Hm. apply B1. apply elem_of_union_r. exact Hm.
  - intros y [<-|[]]. exact Hn.
  - intros m y Hm Hmv Hstep. destruct (Hcases m Hmv) as [->|Hm1].
    + apply B2. apply Hsteps. exact Hstep.
    + exact (B3 m y Hm Hm1 Hstep).
  - intros m Hm Hmv. exists n. split; [left; reflexivity|].
    destruct (Hcases m Hmv) as [->|Hm1]; [apply rtc_refl|].
    destruct (B4 m Hm Hm1) as (y & Hy & Hr).
    eapply rtc_l; [apply Hl; exact Hy | exact Hr].
  - auto.
  - intros m Hm Hmv Hel Hvis Hg. destruct (Hcases m Hmv) as [->|Hm1].
    + apply B5. apply C2. auto.
    + exact (B6 m Hm Hm1 Hel Hvis Hg).
  - intros z Hz. destruct (B7 z Hz) as [Hz1|(Hz1 & Hz2 & Hz3)].
    + destruct (C3 z Hz1) as [Hz0|[-> Hz0]]; [left; exact Hz0|].
      right. auto.
    + right. split; [exact Hz1|]. split; [|exact Hz3].
      intros Hzv. apply Hz2. apply elem_of_union_r. exact Hzv.
Qed.

Variable yield : node -> list node -> M (Loop (list node) Empty_set).

Hypothesis yield_collects :
  forall x acc,
    instanceofElement d x = true -> ~ hiddenElement d x ->
    triple (yield x acc)
      (collects
         (fun x => instanceofElement d x = true /\ ~ hiddenElement d x
                   /\ Good x)
         x acc).

Lemma collects_none (n : node) (acc : list node) :
  (instanceofElement d n = true -> ~ hiddenElement d n -> False) ->
  collects
    (fun x => instanceofElement d x = true /\ ~ hiddenElement d x /\ Good x)
    n acc (Continue acc).
Proof.
  intros H. cbn [collects]. split; [auto|]. split.
  - intros (Hel & Hvis & _). destruct (H Hel Hvis).
  - intros z Hz. left. exact Hz.
Qed.

Lemma triple_getElements_traversed (fuel : nat) :
  forall (n : node) doc (v : gset node) acc,
    triple (getElements d w fuel yield n doc (v, acc))
           (traversed d w Good [n] v acc).
Proof.
  induction fuel as [|fuel IH]; intros n doc v acc;
    cbn [getElements]; [intros c a c' _ H; discriminate|].
  assert (Hloop : forall l v' acc',
            triple (forEach (fun x => getElements d w fuel yield x doc) l
                            (v', acc'))
                   (traversed d w Good l v' acc')).
  { intros l v' acc'. apply triple_forEach_traversed.
    intros x v'' acc''. apply IH. }
  destruct (decide (n ∈ v)) as [Hv|Hv].
  { rewrite (bool_decide_eq_true_2 _ Hv). apply triple_ret.
    cbn [traversed]. split; [intros m Hm; exact Hm|].
    split; [intros x [<-|[]]; exact Hv|].
    repeat split; try contradiction; auto. }
  rewrite (bool_decide_eq_false_2 _ Hv).
  assert (Hstop : forall acc1,
            (forall x, ~ flatStep d w n x) ->
            collects
              (fun x => instanceofElement d x = true /\ ~ hiddenElement d x
                        /\ Good x)
              n acc (Continue acc1) ->
            traversed d w Good [n] v acc (Continue ({[n]} ∪ v, acc1))).
  { intros acc1 Hno Hc.
    apply (traversed_node n v _ acc acc1 acc1 []); [exact Hv| | |exact Hc|].
    - intros x Hx. destruct (Hno x Hx).
    - intros x [].
    - apply traversed_nil. }
  destruct (instanceofElement d n) eqn:Hel.
  - eapply triple_bind; [apply triple_isElementHidden_iff|].
    intros [|] Hhid; cbn [negb andb orb].
    + rewrite andb_false_r. apply triple_ret. apply Hstop.
      * intros x [Hx _]. apply Hx. auto.
      * apply collects_none. intros _ Hvis. exact (Hvis Hhid).
    + eapply triple_bind; [apply yield_collects; assumption|].
      intros [acc1|[]] Hc.
      assert (Hchildren : forall l,
                flatChildren d w n = l ->
                triple (forEach (fun x => getElements d w fuel yield x doc) l
                                ({[n]} ∪ v, acc1))
                       (traversed d w Good [n] v acc)).
      { intros l Hl. eapply triple_weaken; [apply Hloop|].
        intros [[v' acc']|[]] H.
        apply (traversed_node n v v' acc acc1 acc' l); try assumption.
        - intros x [_ Hx]. rewrite Hl in Hx. exact Hx.
        - intros x Hx. split; [|rewrite Hl; exact Hx].
          intros [_ Hh]. exact (Hhid Hh). }
      destruct (isHTMLSlotElement (d n) && (0 <? length (assignedElements (d n))))
        eqn:Hslot.
      { apply Hchildren. unfold flatChildren. rewrite Hel, Hslot. reflexivity. }
      destruct (shadowdomMap w !! n) as [shadowRoot|] eqn:Hroot.
      { eapply triple_weaken; [apply IH|].
        intros [[v' acc']|[]] H.
        apply (traversed_node n v v' acc acc1 acc' [shadowRoot]);
          try assumption.
        - intros x [_ Hx]. unfold flatChildren in Hx.
          rewrite Hel, Hslot, Hroot in Hx. exact Hx.
        - intros x Hx. split; [intros [_ Hh]; exact (Hhid Hh)|].
          unfold flatChildren. rewrite Hel, Hslot, Hroot. exact Hx. }
      destruct (isSelectorRoot d n) eqn:Hsel; cbn [andb].
      * apply Hchildren. unfold flatChildren.
        rewrite Hel, Hslot, Hroot, Hsel. reflexivity.
      * apply triple_ret. apply Hstop; [|exact Hc].
        intros x [_ Hx]. unfold flatChildren in Hx.
        rewrite Hel, Hslot, Hroot, Hsel in Hx. exact Hx.
  - eapply triple_bind; [apply (triple_ret false (fun _ => True)); exact I|].
    intros b _. cbn [negb andb orb]. rewrite andb_true_r.
    destruct (isSelectorRoot d n) eqn:Hsel.
    + eapply triple_weaken; [apply Hloop|].
      intros [[v' acc']|[]] H.
      apply (traversed_node n v v' acc acc acc' (childNodes (d n)));
        try assumption.
      * intros x [_ Hx]. unfold flatChildren in Hx.
        rewrite Hel, Hsel in Hx. exact Hx.
      * intros x Hx. split; [intros [He _]; congruence|].
        unfold flatChildren. rewrite Hel, Hsel. exact Hx.
      * apply collects_none. intros He. congruence.
    + apply triple_ret. apply Hstop.
      * intros x [_ Hx]. unfold flatChildren in Hx.
        rewrite Hel, Hsel in Hx. exact Hx.
      * apply collects_none. intros He. congruence.
Qed.

End Traversed.

Lemma triple_queryAll_body (d : Dom) (w : WeakMaps) (fuel : nat)
    (p : ParsedOptions.t) (x : node) (acc : list node) :
  instanceofElement d x = true -> ~ hiddenElement d x ->
  triple
    (let* ok := matches d w fuel (default "" (ParsedOptions.role p))
                  (ParsedOptions.name p) (ParsedOptions.exact p) x in
     if ok then ret (Continue (R := Empty_set) (acc ++ [x]))
     else ret (Continue acc))
    (collects
       (fun x => instanceofElement d x = true /\ ~ hiddenElement d x
                 /\ matchAccepts d w fuel p x)
       x acc).
Proof.
  intros Hel Hvis c r c' Hc Hrun. unfold bind in Hrun.
  destruct (matches d w fuel _ _ _ x c) as [[ok c1]| |] eqn:Em;
    try discriminate.
  assert (Hc1 : cache_ok c1).
  { eapply sim_preserves; [apply (sim_matches d w fuel fuel); lia|..];
      eassumption. }
  destruct ok; injection Hrun as <- <-; (split; [exact Hc1|]);
    cbn [collects].
  - split; [intros z Hz; apply in_or_app; left; exact Hz|]. split.
    + intros _. apply in_or_app. right. left. reflexivity.
    + intros z Hz. apply in_app_or in Hz as [Hz|[<-|[]]]; [left; exact Hz|].
      right. split; [reflexivity|]. split; [exact Hel|]. split; [exact Hvis|].
      exists c, c1. auto.
  - split; [auto|]. split; [|intros z Hz; left; exact Hz].
    intros (_ & _ & c0 & c0' & Hc0 & E0).
    destruct (sim_matches d w fuel fuel _ _ _ x (le_n _) c0 c true c0'
                Hc0 Hc E0) as (_ & c2 & E2 & _).
    rewrite Em in E2. discriminate.
Qed.

Lemma queryAll_spec (d : Dom) (w : WeakMaps)
    (parse : string -> option ParsedOptions.t) (document : node) (fuel : nat)
    (root : node) (selector : string) (p : ParsedOptions.t)
    (c c' : StyleCache) (rs : list node) (x : node) :
  parse selector = Some p ->
  truthyOpt (ParsedOptions.role p) = true ->
  cache_ok c ->
  queryAll d w parse document fuel root selector c = Ok (rs, c') ->
  (In x rs
   <-> flatReach d w root x
       /\ instanceofElement d x = true
       /\ ~ hiddenElement d x
       /\ matchAccepts d w fuel p x).
Proof.
  intros Hp Hrole Hc Hrun. unfold queryAll in Hrun.
  rewrite Hp, Hrole in Hrun. cbn [negb] in Hrun. unfold bind in Hrun.
  destruct (getElements d w fuel _ root _ (∅, []) c) as [[r c1]| |] eqn:Eg;
    try discriminate.
  destruct (triple_getElements_traversed d w (matchAccepts d w fuel p) _
              (fun x acc Hel Hvis =>
                 triple_queryAll_body d w fuel p x acc Hel Hvis)
              fuel root (getOwnerDocument d document root) ∅ [] c r c1 Hc Eg)
    as [_ Ht].
  destruct r as [[v rs']|[]]. injection Hrun as <- <-.
  cbn [traversed] in Ht.
  destruct Ht as (_ & T2 & T3 & T4 & _ & T6 & T7).
  assert (Hne : forall m : node, m ∉ (∅ : gset node)).
  { intros m. apply not_elem_of_empty. }
  split.
  - intros Hin. destruct (T7 x Hin) as [[]|(Hv & _ & Hel & Hvis & Hg)].
    split; [|auto]. destruct (T4 x Hv (Hne x)) as (y & [<-|[]] & Hr).
    exact Hr.
  - intros (Hreach & Hel & Hvis & Hg).
    apply (T6 x); try assumption; [|apply Hne].
    unfold flatReach in Hreach.
    assert (Hroot : root ∈ v) by (apply T2; left; reflexivity).
    clear - Hreach Hroot T3 Hne.
    induction Hreach as [|n m z Hstep _ IH]; [exact Hroot|].
    apply IH. exact (T3 n m Hroot (Hne n) Hstep).
Qed.

(** X14. [queryAll] returns exactly the visible elements with the requested
    role and name that the traversal reaches from the root, going from a
    slot to its assigned elements, from a shadow host to its recorded shadow
    root, from any other element, document or fragment to its child nodes,
    and never through a hidden element: every list it returns holds these
    elements and no others, and on a well-formed document it does return
    one such list once it has enough fuel, whatever the style cache
    holds. *)
Theorem queryAll_exactly (d : Dom) (w : WeakMaps)
    (parse : string -> option ParsedOptions.t) (document : node)
    (root : node) (selector : string) (p : ParsedOptions.t) :
  parse selector = Some p ->
  truthyOpt (ParsedOptions.role p) = true ->
  (forall fuel c c' rs x,
      cache_ok c ->
      queryAll d w parse document fuel root selector c = Ok (rs, c') ->
      (In x rs
       <-> flatReach d w root x
           /\ instanceofElement d x = true
           /\ ~ hiddenElement d x
           /\ matchAccepts d w fuel p x))
  /\ (wellFormed d w -> traversable d w ->
      exists fuel0 rs, forall fuel c,
        fuel0 <= fuel -> cache_ok c ->
        (exists c',
            queryAll d w parse document fuel root selector c = Ok (rs, c'))
        /\ (forall x,
              In x rs
              <-> flatReach d w root x
                  /\ instanceofElement d x = true
                  /\ ~ hiddenElement d x
                  /\ matchAccepts d w fuel p x)).
Proof.
  intros Hp Hrole. split.
  - intros fuel c c' rs x Hc Hrun.
    exact (queryAll_spec d w parse document fuel root selector p c c' rs x
             Hp Hrole Hc Hrun).
  - intros Hwf Htr.
    destruct (query_returns d w parse document root selector Hwf Htr
                (ex_intro _ p Hp)) as [fuel0 H].
    destruct (H fuel0 ∅ (le_n _)) as [_ (rs & c0 & E0)].
    exists fuel0, rs. intros fuel c Hle Hc.
    destruct (sim_queryAll d w parse document fuel0 fuel root selector Hle
                ∅ c rs c0 cache_ok_empty Hc E0) as (_ & c1 & E1 & _).
    split; [exists c1; exact E1|].
    intros x.
    exact (queryAll_spec d w parse document fuel root selector p c c1 rs x
             Hp Hrole Hc E1).
Qed.

Lemma queryAll_exactly_witness :
  (In 3 [2; 3]
   <-> flatReach buttonsDoc scriptForInit 0 3
       /\ instanceofElement buttonsDoc 3 = true
       /\ ~ hiddenElement buttonsDoc 3
       /\ matchAccepts buttonsDoc scriptForInit 9
            (payload (Some "button") None None) 3)
  /\ (exists fuel0 rs, forall fuel c,
        fuel0 <= fuel -> cache_ok c ->
        (exists c',
            queryAll buttonsDoc scriptForInit buttonsParse 0 fuel 0
              "button" c = Ok (rs, c'))
        /\ (forall x,
              In x rs
              <-> flatReach buttonsDoc scriptForInit 0 x
                  /\ instanceofElement buttonsDoc x = true
                  /\ ~ hiddenElement buttonsDoc x
                  /\ matchAccepts buttonsDoc scriptForInit fuel
                       (payload (Some "button") None None) x)).
Proof.
  destruct (queryAll_exactly buttonsDoc scriptForInit buttonsParse 0 0
              "button" (payload (Some "button") None None))
    as [H1 H2]; [reflexivity | reflexivity |].
  split.
  - eapply (H1 9 ∅ _ [2; 3] 3); [apply cache_ok_empty|].
    vm_compute. reflexivity.
  - apply H2; [apply buttonsDoc_wellFormed | apply buttonsDoc_traversable].
Defined.

(** In [slottedDoc] the traversal goes from the host to its shadow root and
    from the slot to the assigned button. *)
Example slottedDoc_buttons :
  returned (queryAll slottedDoc slottedMaps buttonsParse 0 9 0 "button" ∅)
  = Some [5].
Proof. vm_compute. reflexivity. Qed.

(** X20. Scoping narrows: when the traversal from [root] reaches [inner],
    whatever [queryAll] returns from [inner] it returns from [root] too. *)
Theorem scoped_results_included (d : Dom) (w : WeakMaps)
    (parse : string -> option ParsedOptions.t) (document : node) (fuel : nat)
    (root inner : node) (selector : string) (p : ParsedOptions.t)
    (c c' c0 c0' : StyleCache) (rs rs0 : list node) (x : node) :
  parse selector = Some p ->
  cache_ok c -> cache_ok c0 ->
  flatReach d w root inner ->
  queryAll d w parse document fuel root selector c = Ok (rs, c') ->
  queryAll d w parse document fuel inner selector c0 = Ok (rs0, c0') ->
  In x rs0 -> In x rs.
Proof.
  intros Hp Hc Hc0 Hreach Hrun Hrun0 Hin.
  destruct (truthyOpt (ParsedOptions.role p)) eqn:Hrole.
  - apply (queryAll_spec d w parse document fuel inner selector p c0 c0' rs0 x
             Hp Hrole Hc0 Hrun0) in Hin as (Hr & Hrest).
    apply (queryAll_spec d w parse document fuel root selector p c c' rs x
             Hp Hrole Hc Hrun).
    split; [|exact Hrest]. unfold flatReach in *.
    transitivity inner; assumption.
  - unfold queryAll in Hrun0. rewrite Hp, Hrole in Hrun0.
    cbn [negb] in Hrun0. injection Hrun0 as <- <-. destruct Hin.
Qed.

Lemma scoped_results_included_witness : In 5 [5].
Proof.
  eapply (scoped_results_included slottedDoc slottedMaps buttonsParse 0 9 0 2
            "button" (payload (Some "button") None None) ∅ _ ∅ _ [5] [5] 5).
  - reflexivity.
  - apply cache_ok_empty.
  - apply cache_ok_empty.
  - unfold flatReach. eapply rtc_l; [|eapply rtc_l; [|apply rtc_refl]].
    + split; [intros [H _]; discriminate H | left; reflexivity].
    + split; [|left; reflexivity].
      intros [_ Hh]. apply (visible_not_hidden slottedDoc 1); [|exact Hh].
      exists 9, ∅. eexists. split; [apply cache_ok_empty|].
      vm_compute. reflexivity.
  - vm_compute. reflexivity.
  - vm_compute. reflexivity.
  - left. reflexivity.
Defined.

(** ** Loose names *)

Lemma eqM_getElements_yield {A R} (d : Dom) (w : WeakMaps)
    (yield1 yield2 : node -> A -> M (Loop A R)) :
  (forall x a, eqM (yield1 x a) (yield2 x a)) ->
  forall fuel n doc st,
    eqM (getElements d w fuel yield1 n doc st)
        (getElements d w fuel yield2 n doc st).
Proof.
  intros Hy. induction fuel as [|fuel IH]; intros n doc [v acc];
    cbn [getElements]; [apply eqM_refl|].
  destruct (bool_decide (n ∈ v)); [apply eqM_refl|].
  apply eqM_bind; [apply eqM_refl|]. intros isHidden.
  destruct (instanceofElement d n && negb isHidden).
  - apply eqM_bind; [apply Hy|]. intros [acc1|r]; [|apply eqM_refl].
    destruct (isHTMLSlotElement (d n) && _);
      [apply eqM_forEach; intros ? ?; apply IH|].
    destruct (shadowdomMap w !! n); [apply IH|].
    destruct (isSelectorRoot d n && _); [|apply eqM_refl].
    apply eqM_forEach; intros ? ?; apply IH.
  - destruct (isSelectorRoot d n && _); [|apply eqM_refl].
    apply eqM_forEach; intros ? ?; apply IH.
Qed.

Lemma toLowerCase_truthy (s : string) :
  truthy (toLowerCase s) = truthy s.
Proof. destruct s; reflexivity. Qed.

Lemma eqM_matches_case (d : Dom) (w : WeakMaps) (fuel : nat) (r : string)
    (n1 n2 : string) (exact1 exact2 : option bool) (x : node) :
  toLowerCase n1 = toLowerCase n2 ->
  exact1 <> Some true -> exact2 <> Some true ->
  eqM (matches d w fuel r (Some n1) exact1 x)
      (matches d w fuel r (Some n2) exact2 x).
Proof.
  intros Hlow H1 H2. unfold matches, matchesNameFilter.
  cbn [truthyOpt].
  change (default "" (Some n1)) with n1.
  change (default "" (Some n2)) with n2.
  rewrite <- (toLowerCase_truthy n1), <- (toLowerCase_truthy n2), Hlow.
  rewrite (bool_decide_eq_false_2 _ H1), (bool_decide_eq_false_2 _ H2).
  apply eqM_refl.
Qed.

(** X15. A name that is not taken exactly is matched without regard to
    case: two payloads with the same role whose names are the same up to
    case give the same results of [query] and of [queryAll], with the same
    fuel and the same style cache left behind. *)
Theorem loose_name_ignores_case (d : Dom) (w : WeakMaps)
    (parse : string -> option ParsedOptions.t) (document : node) (fuel : nat)
    (root : node) (s1 s2 : string) (p1 p2 : ParsedOptions.t)
    (n1 n2 : string) (c : StyleCache) :
  parse s1 = Some p1 -> parse s2 = Some p2 ->
  ParsedOptions.role p1 = ParsedOptions.role p2 ->
  ParsedOptions.name p1 = Some n1 -> ParsedOptions.name p2 = Some n2 ->
  toLowerCase n1 = toLowerCase n2 ->
  ParsedOptions.exact p1 <> Some true ->
  ParsedOptions.exact p2 <> Some true ->
  query d w parse document fuel root s1 c
  = query d w parse document fuel root s2 c
  /\ queryAll d w parse document fuel root s1 c
     = queryAll d w parse document fuel root s2 c.
Proof.
  intros Hp1 Hp2 Hrole Hn1 Hn2 Hlow He1 He2.
  pose proof (fun x => eqM_matches_case d w fuel
                         (default "" (ParsedOptions.role p2)) n1 n2
                         (ParsedOptions.exact p1) (ParsedOptions.exact p2) x
                         Hlow He1 He2) as Hm.
  unfold query, queryAll. rewrite Hp1, Hp2, Hrole, Hn1, Hn2.
  destruct (negb _); [split; reflexivity|].
  split.
  - apply eqM_bind; [|intros r; apply eqM_refl].
    apply eqM_getElements_yield. intros x [].
    apply eqM_bind; [apply Hm | intros ok; apply eqM_refl].
  - apply eqM_bind; [|intros r; apply eqM_refl].
    apply eqM_getElements_yield. intros x rs.
    apply eqM_bind; [apply Hm | intros ok; apply eqM_refl].
Qed.

Lemma loose_name_ignores_case_witness :
  query spacedDoc scriptForInit spacedParse 0 9 0 "loose" ∅
  = query spacedDoc scriptForInit spacedParse 0 9 0 "loose-lower" ∅
  /\ queryAll spacedDoc scriptForInit spacedParse 0 9 0 "loose" ∅
     = queryAll spacedDoc scriptForInit spacedParse 0 9 0 "loose-lower" ∅.
Proof.
  apply (loose_name_ignores_case spacedDoc scriptForInit spacedParse 0 9 0
           "loose" "loose-lower"
           (payload (Some "button") (Some "THE file") None)
           (payload (Some "button") (Some "the file") (Some false))
           "THE file" "the file" ∅).
  - reflexivity.
  - reflexivity.
  - reflexivity.
  - reflexivity.
  - reflexivity.
  - reflexivity.
  - discriminate.
  - discriminate.
Defined.

(** ** Roles from the tracker *)

(** X16. The role of a custom element is the one of the internals object
    the patched [attachInternals] recorded for it: for an element without a
    [role] attribute whose tag has no role of its own, [computeElementRole]
    returns the role of the internals recorded last, and nothing when that
    role is absent or empty; what is recorded for other elements does not
    matter. *)
Theorem internals_role_of_custom_element (d : Dom) (w : WeakMaps)
    (fuel : nat) (el other : node) (internals internals' : ElementInternals)
    (c : StyleCache) :
  truthyOpt (getAttribute d el "role") = false ->
  customTag (tagName (d el)) = true ->
  other <> el ->
  computeElementRole d
    (attachInternals other internals' (attachInternals el internals w))
    fuel el c
  = Ok (internalsRole internals, c).
Proof.
  intros Hrole Htag Hother. unfold customTag in Htag.
  apply andb_true_iff in Htag as [Htable Hcases].
  apply negb_true_iff, bool_decide_eq_false in Htable.
  apply negb_true_iff in Hcases. unfold has in Hcases.
  cbn [existsb] in Hcases.
  repeat (apply orb_false_iff in Hcases as [? Hcases]).
  unfold computeElementRole, computeElementRole_with. rewrite Hrole.
  destruct (assoc (tagName (d el)) tagRoles) as [r|] eqn:E.
  { exfalso. apply Htable. eexists. reflexivity. }
  repeat match goal with H : String.eqb _ _ = false |- _ => rewrite H; clear H end.
  cbn [attachInternals internalsMap].
  rewrite lookup_insert_ne by exact Hother. rewrite lookup_insert_eq.
  unfold internalsRole. cbn [mbind option_bind].
  destruct (role internals) as [r|]; [|reflexivity].
  destruct (truthy r); reflexivity.
Qed.

Lemma internals_role_of_custom_element_witness :
  computeElementRole labelDoc
    (attachInternals 1
       {| role := Some "main"; ariaLabel := None;
          ariaLabelledByElements := None |}
       labelMaps)
    3 2 ∅
  = Ok (internalsRole
          {| role := Some "textbox"; ariaLabel := Some "From internals";
             ariaLabelledByElements := None |}, ∅).
Proof.
  apply (internals_role_of_custom_element labelDoc scriptForInit 3 2 1).
  - reflexivity.
  - reflexivity.
  - discriminate.
Defined.

(** ** The selector tells the payload *)

Module JsonReadFacts.

Import Json JsonRead.

Lemma unquoteBody_quoteChar (a : ascii) (t : string) :
  unquoteBody (quoteChar a +:+ t)
  = match unquoteBody t with
    | Some (s, rest) => Some (String a s, rest)
    | None => None
    end.
Proof.
  destruct a as [b0 b1 b2 b3 b4 b5 b6 b7].
  destruct b0, b1, b2, b3, b4, b5, b6, b7; reflexivity.
Qed.

Lemma unquoteBody_quoteBody (s rest : string) :
  unquoteBody (quoteBody s +:+ String dquote rest) = Some (s, rest).
Proof.
  induction s as [|a s IH].
  - reflexivity.
  - cbn [quoteBody]. rewrite append_assoc, unquoteBody_quoteChar, IH.
    reflexivity.
Qed.

Lemma quote_append (s rest : string) :
  quote s +:+ rest = String dquote (quoteBody s +:+ String dquote rest).
Proof.
  unfold quote. rewrite append_cons, append_assoc. reflexivity.
Qed.

Lemma readValue_stringifyValue (v : value) (rest : string) :
  readValue (stringifyValue v +:+ rest) = Some (v, rest).
Proof.
  destruct v as [s|[|]].
  - cbn [stringifyValue]. rewrite quote_append. cbn [readValue].
    rewrite Ascii.eqb_refl, unquoteBody_quoteBody. reflexivity.
  - reflexivity.
  - reflexivity.
Qed.

Lemma readField_writeField (kv : string * value) (rest : string) :
  readField (writeField kv +:+ rest) = Some (kv, rest).
Proof.
  destruct kv as [key v]. unfold writeField. cbn [fst snd].
  rewrite !append_assoc, quote_append. cbn [readField].
  rewrite Ascii.eqb_refl, unquoteBody_quoteBody.
  change (":" +:+ ?x) with (String ":" x). cbv beta iota.
  rewrite readValue_stringifyValue. reflexivity.
Qed.

Lemma readFields_concat (fields : list (string * value)) :
  forall kv fuel rest,
    length fields < fuel ->
    readFields fuel
      (String.concat "," (map writeField (kv :: fields)) +:+ String "}" rest)
    = Some (kv :: fields, String "}" rest).
Proof.
  induction fields as [|kv' fields IH]; intros kv [|fuel] rest Hfuel;
    try (cbn [length] in Hfuel; lia).
  - cbn [map String.concat readFields]. rewrite readField_writeField.
    reflexivity.
  - cbn [length] in Hfuel.
    change (String.concat "," (map writeField (kv :: kv' :: fields)))
      with (writeField kv +:+ "," +:+
            String.concat "," (map writeField (kv' :: fields))).
    rewrite !append_assoc. cbn [readFields].
    rewrite readField_writeField.
    change ("," +:+ ?x) with (String "," x). cbv beta iota.
    rewrite (IH kv' fuel rest) by lia. reflexivity.
Qed.

Lemma stringify_present (props : list (string * option value)) :
  stringify props
  = "{" +:+ String.concat "," (map writeField (present props)) +:+ "}".
Proof.
  unfold stringify, present. do 3 f_equal.
  induction props as [|[k [v|]] props IH]; cbn [omap map]; [reflexivity|..].
  - cbn [fst snd fmap option_fmap option_map]. simpl. f_equal. exact IH.
  - simpl. exact IH.
Qed.

Lemma append_cancel (p x y : string) : p +:+ x = p +:+ y -> x = y.
Proof.
  induction p as [|a p IH]; [auto|].
  rewrite !append_cons. intros [= H]. auto.
Qed.

Lemma stringify_injective (props1 props2 : list (string * option value)) :
  stringify props1 = stringify props2 -> present props1 = present props2.
Proof.
  rewrite !stringify_present. intros H. apply append_cancel in H.
  destruct (present props1) as [|kv1 f1], (present props2) as [|kv2 f2].
  - reflexivity.
  - exfalso. destruct kv2 as [k v]. destruct f2; discriminate H.
  - exfalso. destruct kv1 as [k v]. destruct f1; discriminate H.
  - pose proof (readFields_concat f1 kv1 (S (max (length f1) (length f2))) ""
                  ltac:(lia)) as H1.
    pose proof (readFields_concat f2 kv2 (S (max (length f1) (length f2))) ""
                  ltac:(lia)) as H2.
    rewrite H in H1. rewrite H1 in H2. injection H2 as -> ->. reflexivity.
Qed.

End JsonReadFacts.

(** X17. The selector tells the query apart: two calls of
    [getByComputedRole] give the same selector only when they have the same
    role and, after what is falsy is left out, the same name, description
    and exactness.  Quotes, braces or commas in a name cannot make one
    payload read as another. *)
Theorem getByComputedRole_injective (role1 role2 : string)
    (options1 options2 : option Options.t) :
  getByComputedRole role1 options1 = getByComputedRole role2 options2 ->
  role1 = role2 /\ effectiveOptions options1 = effectiveOptions options2.
Proof.
  unfold getByComputedRole, effectiveOptions. intros H.
  apply JsonReadFacts.append_cancel in H.
  apply JsonReadFacts.stringify_injective in H.
  destruct (options1 ≫= Options.name) as [n1|],
           (options2 ≫= Options.name) as [n2|];
    cbn [truthyOpt] in *;
    destruct (options1 ≫= Options.description) as [d1|],
             (options2 ≫= Options.description) as [d2|];
    cbn [truthyOpt] in *;
    destruct (options1 ≫= Options.exact) as [[|]|],
             (options2 ≫= Options.exact) as [[|]|];
    repeat match goal with
           | H : context [truthy ?s] |- _ => destruct (truthy s)
           | |- context [truthy ?s] => destruct (truthy s)
           end;
    vm_compute in H; try discriminate H;
    injection H as <-; subst; split; reflexivity.
Qed.

Lemma getByComputedRole_injective_witness :
  "button" = "button"
  /\ effectiveOptions None
     = effectiveOptions
         (Some {| Options.name := Some ""; Options.description := None;
                  Options.exact := Some false |}).
Proof.
  apply (getByComputedRole_injective "button" "button" None
           (Some {| Options.name := Some ""; Options.description := None;
                    Options.exact := Some false |})).
  reflexivity.
Defined.

(** ** Patched prototypes *)

Module PatchFacts.

Import Utils Patch UtilsFacts.

Lemma descriptorOf_setDescriptor (key name : string) (value : Fn)
    (descriptors : list (string * option Fn)) :
  descriptorOf key (setDescriptor name value descriptors)
  = if String.eqb name key then Some (Some value)
    else descriptorOf key descriptors.
Proof.
  induction descriptors as [|[k x] rest IH]; cbn [setDescriptor descriptorOf].
  - reflexivity.
  - destruct (String.eqb k name) eqn:Ekn; cbn [descriptorOf].
    + apply String.eqb_eq in Ekn. subst k.
      destruct (String.eqb name key); reflexivity.
    + rewrite IH. destruct (String.eqb k key) eqn:Ekk; [|reflexivity].
      apply String.eqb_eq in Ekk. subst k. rewrite String.eqb_sym, Ekn.
      reflexivity.
Qed.

Lemma chainFrom_ext (h h' : Heap Fn) (fuel : nat) :
  (forall l, getPrototypeOf (h' l) = getPrototypeOf (h l)) ->
  ObjectPrototype h' = ObjectPrototype h ->
  forall proto, chainFrom h' fuel proto = chainFrom h fuel proto.
Proof.
  intros Hp Ho. induction fuel as [|fuel IH]; intros [l|];
    cbn [chainFrom]; rewrite ?Ho; try reflexivity.
  rewrite Hp, IH. reflexivity.
Qed.

Lemma lookupChain_ext (h h' : Heap Fn) (key : string) (chain : list loc) :
  (forall l, In l chain ->
             descriptorOf key (getOwnPropertyDescriptors (h' l))
             = descriptorOf key (getOwnPropertyDescriptors (h l))) ->
  lookupChain h' chain key = lookupChain h chain key.
Proof.
  unfold lookupChain. induction chain as [|l chain IH]; intros H;
    [reflexivity|].
  cbn [flat_map]. rewrite !descriptorOf_app, (H l (or_introl eq_refl)), IH;
    [reflexivity|].
  intros l' Hl'. apply H. right. exact Hl'.
Qed.

Lemma entries_chain (h : Heap Fn) (fuel : nat) :
  forall proto st es,
    entries_from h fuel proto st = Some es ->
    exists chain, chainFrom h fuel proto = Some chain.
Proof.
  induction fuel as [|fuel IH]; intros [l|] st es H;
    cbn [entries_from chainFrom] in *; try (eexists; reflexivity).
  - destruct (l =? ObjectPrototype h); [eexists; reflexivity | discriminate].
  - destruct (l =? ObjectPrototype h); [eexists; reflexivity|].
    destruct (IH _ _ _ H) as [chain Hc]. rewrite Hc. eexists. reflexivity.
Qed.

Section OneLoop.

Variable prototype : loc.
Variable patchedLocatorPrototype : loc.
Variable initialLocatorPrototype : option loc.

Local Abbreviation wrap func :=
  (Patched func initialLocatorPrototype patchedLocatorPrototype).

Lemma patchEntries_frame (es : list (string * Fn)) :
  forall h,
    ObjectPrototype
      (patchEntries prototype patchedLocatorPrototype initialLocatorPrototype
         es h) = ObjectPrototype h
    /\ (forall l,
          getPrototypeOf
            (patchEntries prototype patchedLocatorPrototype
               initialLocatorPrototype es h l) = getPrototypeOf (h l))
    /\ (forall l,
          l <> prototype ->
          patchEntries prototype patchedLocatorPrototype
            initialLocatorPrototype es h l = h l).
Proof.
  unfold patchEntries.
  induction es as [|[name func] es IH]; intros h; cbn [fold_left];
    [auto|].
  destruct (IH (Reflect_set h prototype name (wrap func))) as (I1 & I2 & I3).
  split; [|split].
  - rewrite I1. reflexivity.
  - intros l. rewrite I2. unfold Reflect_set, updateObject. cbn [obj].
    destruct (l =? prototype) eqn:E; [|reflexivity].
    apply Nat.eqb_eq in E. subst l. reflexivity.
  - intros l Hl. rewrite (I3 l Hl). unfold Reflect_set, updateObject.
    cbn [obj]. apply Nat.eqb_neq in Hl. rewrite Hl. reflexivity.
Qed.

Lemma patchEntries_own (es : list (string * Fn)) (key : string) :
  NoDup (map fst es) ->
  forall h,
    (forall func,
        In (key, func) es ->
        descriptorOf key
          (getOwnPropertyDescriptors
             (patchEntries prototype patchedLocatorPrototype
                initialLocatorPrototype es h prototype))
        = Some (Some (wrap func)))
    /\ (~ In key (map fst es) ->
        descriptorOf key
          (getOwnPropertyDescriptors
             (patchEntries prototype patchedLocatorPrototype
                initialLocatorPrototype es h prototype))
        = descriptorOf key (getOwnPropertyDescriptors (h prototype))).
Proof.
  unfold patchEntries.
  induction es as [|[name func] es IH]; intros Hnd h; cbn [fold_left].
  - split; [contradiction | reflexivity].
  - cbn [map fst] in Hnd. apply NoDup_cons in Hnd as [Hname Hnd].
    destruct (IH Hnd (Reflect_set h prototype name (wrap func))) as [I1 I2].
    assert (Hset : forall k,
              descriptorOf k
                (getOwnPropertyDescriptors
                   (Reflect_set h prototype name (wrap func) prototype))
              = if String.eqb name k then Some (Some (wrap func))
                else descriptorOf k (getOwnPropertyDescriptors (h prototype))).
    { intros k. unfold Reflect_set, updateObject. cbn [obj].
      rewrite Nat.eqb_refl. cbn [getOwnPropertyDescriptors].
      apply descriptorOf_setDescriptor. }
    split.
    + intros f [[= <- <-]|Hin]; [|exact (I1 f Hin)].
      rewrite I2, Hset, String.eqb_refl; [reflexivity|].
      intros Hin. apply Hname. apply list_elem_of_In. exact Hin.
    + intros Hnot. cbn [map fst In] in Hnot.
      rewrite I2, Hset by tauto.
      destruct (String.eqb name key) eqn:E; [|reflexivity].
      apply String.eqb_eq in E. tauto.
Qed.

(** The methods of the prototype after one loop over the methods [es] of
    some object. *)
Lemma patchEntries_methods (h : Heap Fn) (es : list (string * Fn))
    (rest : list loc) (key : string) (value : Fn) :
  NoDup (map fst es) ->
  (forall k func, In (k, func) es -> k <> "constructor") ->
  let h' := patchEntries prototype patchedLocatorPrototype
              initialLocatorPrototype es h in
  methodOf h' (prototype :: rest) key value
  <-> (exists func, In (key, func) es /\ value = wrap func)
      \/ (~ In key (map fst es) /\ methodOf h (prototype :: rest) key value).
Proof.
  intros Hnd Hcons h'.
  destruct (patchEntries_own es key Hnd h) as [Hin Hout]. fold h' in Hin, Hout.
  destruct (patchEntries_frame es h) as (_ & _ & Hframe). fold h' in Hframe.
  destruct (decide (key ∈ map fst es)) as [Hk|Hk].
  - apply list_elem_of_In, List.in_map_iff in Hk as [[k func] [Hk Hes]].
    cbn [fst] in Hk. subst k.
    assert (Hl : lookupChain h' (prototype :: rest) key
                 = Some (Some (wrap func))).
    { unfold lookupChain. cbn [flat_map].
      rewrite descriptorOf_app, (Hin func Hes). reflexivity. }
    unfold methodOf. rewrite Hl. split.
    + intros [_ [= <-]]. left. exists func. auto.
    + intros [(f & Hf & ->)|[Hno _]].
      * split; [exact (Hcons key f Hf)|].
        assert (f = func) as ->; [|reflexivity].
        pose proof (Hin f Hf) as E. rewrite (Hin func Hes) in E.
        injection E as E. congruence.
      * exfalso. apply Hno. apply List.in_map_iff.
        exists (key, func). auto.
  - assert (Hk' : ~ In key (map fst es)).
    { intros H. apply Hk. apply list_elem_of_In. exact H. }
    assert (Hl : lookupChain h' (prototype :: rest) key
                 = lookupChain h (prototype :: rest) key).
    { apply lookupChain_ext. intros l _.
      destruct (decide (l = prototype)) as [->|Hne];
        [exact (Hout Hk') | rewrite (Hframe l Hne); reflexivity]. }
    unfold methodOf. rewrite Hl. split.
    + intros H. right. auto.
    + intros [(f & Hf & _)|[_ H]]; [|exact H].
      exfalso. apply Hk'. apply List.in_map_iff. exists (key, f). auto.
Qed.

End OneLoop.

Lemma patchPrototypeMethods_spec (fuel : nat) (h h' : Heap Fn) (prototype : loc)
    (patchedLocatorPrototype : loc) (initialLocatorPrototype : option loc)
    (additionalMethods : option loc) (rest : list loc) :
  patchPrototypeMethods fuel h prototype patchedLocatorPrototype
    initialLocatorPrototype additionalMethods = Some h' ->
  chainFrom h fuel (Some prototype) = Some (prototype :: rest) ->
  chainFrom h' fuel (Some prototype) = Some (prototype :: rest)
  /\ (forall key value,
        methodOf h' (prototype :: rest) key value ->
        exists func,
          patchedFor initialLocatorPrototype patchedLocatorPrototype
            value func)
  /\ (forall key func,
        methodOf h (prototype :: rest) key func ->
        exists value, methodOf h' (prototype :: rest) key value)
  /\ (additionalMethods = None ->
      forall key func,
        methodOf h (prototype :: rest) key func ->
        methodOf h' (prototype :: rest) key
          (Patched func initialLocatorPrototype patchedLocatorPrototype))
  /\ (forall additional chain key func,
        additionalMethods = Some additional ->
        chainFrom h fuel (Some additional) = Some chain ->
        ~ In prototype chain ->
        methodOf h chain key func ->
        methodOf h' (prototype :: rest) key
          (Patched func initialLocatorPrototype patchedLocatorPrototype)).
Proof.
  intros Hrun Hchain. unfold patchPrototypeMethods in Hrun.
  destruct (entries_spec Fn h fuel prototype _ Hchain)
    as (es & Hes & Hnd & Hspec).
  rewrite Hes in Hrun.
  set (h1 := patchEntries prototype patchedLocatorPrototype
               initialLocatorPrototype es h) in *.
  destruct (patchEntries_frame prototype patchedLocatorPrototype
              initialLocatorPrototype es h) as (F1 & F2 & F3).
  fold h1 in F1, F2, F3.
  assert (Hcons : forall k func, In (k, func) es -> k <> "constructor").
  { intros k func Hin. apply Hspec in Hin. exact (proj1 Hin). }
  assert (H1 : forall key value,
             methodOf h1 (prototype :: rest) key value
             <-> exists func,
                   methodOf h (prototype :: rest) key func
                   /\ value = Patched func initialLocatorPrototype
                                patchedLocatorPrototype).
  { intros key value.
    pose proof (patchEntries_methods prototype patchedLocatorPrototype
                  initialLocatorPrototype h es rest key value Hnd Hcons)
      as Hpm.
    cbv zeta in Hpm. fold h1 in Hpm. rewrite Hpm. clear Hpm.
    split.
    - intros [(func & Hin & ->)|[Hno Hm]].
      + exists func. split; [apply Hspec; exact Hin | reflexivity].
      + exfalso. apply Hno. apply List.in_map_iff.
        exists (key, value). split; [reflexivity | apply Hspec; exact Hm].
    - intros (func & Hm & ->). left. exists func.
      split; [apply Hspec; exact Hm | reflexivity]. }
  assert (Hchain1 : forall proto,
             chainFrom h1 fuel proto = chainFrom h fuel proto).
  { apply chainFrom_ext; assumption. }
  destruct additionalMethods as [additional|].
  - destruct (entries h1 fuel additional) as [es'|] eqn:Hes';
      [|discriminate].
    injection Hrun as <-.
    destruct (entries_chain h1 fuel (Some additional) (∅, []) es' Hes')
      as [chain' Hchain'].
    destruct (entries_spec Fn h1 fuel additional _ Hchain')
      as (es'' & Hes'' & Hnd' & Hspec').
    rewrite Hes' in Hes''. injection Hes'' as <-.
    assert (Hcons' : forall k func, In (k, func) es' -> k <> "constructor").
    { intros k func Hin. apply Hspec' in Hin. exact (proj1 Hin). }
    pose proof (fun key value =>
                  patchEntries_methods prototype patchedLocatorPrototype
                    initialLocatorPrototype h1 es' rest key value Hnd' Hcons')
      as H2.
    cbv zeta in H2.
    destruct (patchEntries_frame prototype patchedLocatorPrototype
                initialLocatorPrototype es' h1) as (G1 & G2 & G3).
    split; [|split; [|split; [|split]]].
    + rewrite (chainFrom_ext h1 _ fuel G2 G1), Hchain1. exact Hchain.
    + intros key value Hm. apply H2 in Hm as [(func & _ & ->)|[_ Hm]].
      * eexists. reflexivity.
      * apply H1 in Hm as (func & _ & ->). eexists. reflexivity.
    + intros key func Hm.
      destruct (decide (key ∈ map fst es')) as [Hk|Hk].
      * apply list_elem_of_In, List.in_map_iff in Hk as [[k f] [Hk Hin]].
        cbn [fst] in Hk. subst k. eexists. apply H2. left.
        exists f. split; [exact Hin | reflexivity].
      * eexists. apply H2. right. split.
        -- intros Hin. apply Hk. apply list_elem_of_In. exact Hin.
        -- apply H1. exists func. split; [exact Hm | reflexivity].
    + discriminate.
    + intros a chain key func [= <-] Hca Hnot Hm. apply H2. left.
      exists func. split; [|reflexivity]. apply Hspec'.
      rewrite Hchain1, Hca in Hchain'. injection Hchain' as <-.
      destruct Hm as [Hne Hl]. split; [exact Hne|].
      rewrite <- Hl. apply lookupChain_ext. intros l Hl'.
      rewrite F3; [reflexivity|]. intros ->. exact (Hnot Hl').
  - injection Hrun as <-.
    split; [|split; [|split; [|split]]].
    + rewrite Hchain1. exact Hchain.
    + intros key value Hm. apply H1 in Hm as (func & _ & ->).
      eexists. reflexivity.
    + intros key func Hm. eexists. apply H1. exists func. auto.
    + intros _ key func Hm. apply H1. exists func. auto.
    + discriminate.
Qed.

(** X18. After [patchPrototypeMethods] every method found from the
    prototype (own or inherited, [constructor] apart) is one of the
    patching functions, made for the two locator prototypes; no method is
    lost; without additional methods each is the patch of the method found
    before; and the additional methods are found from the prototype,
    patched too. *)
Theorem patched_methods (fuel : nat) (h h' : Heap Fn) (prototype : loc)
    (patchedLocatorPrototype : loc) (initialLocatorPrototype : option loc)
    (additionalMethods : option loc) (rest : list loc) :
  patchPrototypeMethods fuel h prototype patchedLocatorPrototype
    initialLocatorPrototype additionalMethods = Some h' ->
  chainFrom h fuel (Some prototype) = Some (prototype :: rest) ->
  chainFrom h' fuel (Some prototype) = Some (prototype :: rest)
  /\ (forall key value,
        methodOf h' (prototype :: rest) key value ->
        exists func,
          patchedFor initialLocatorPrototype patchedLocatorPrototype
            value func)
  /\ (forall key func,
        methodOf h (prototype :: rest) key func ->
        exists value, methodOf h' (prototype :: rest) key value)
  /\ (additionalMethods = None ->
      forall key func,
        methodOf h (prototype :: rest) key func ->
        methodOf h' (prototype :: rest) key
          (Patched func initialLocatorPrototype patchedLocatorPrototype))
  /\ (forall additional chain key func,
        additionalMethods = Some additional ->
        chainFrom h fuel (Some additional) = Some chain ->
        ~ In prototype chain ->
        methodOf h chain key func ->
        methodOf h' (prototype :: rest) key
          (Patched func initialLocatorPrototype patchedLocatorPrototype)).
Proof.
  intros Hrun Hchain.
  exact (patchPrototypeMethods_spec fuel h h' prototype
           patchedLocatorPrototype initialLocatorPrototype additionalMethods
           rest Hrun Hchain).
Qed.

Lemma patched_methods_witness :
  exists h',
    patchPrototypeMethods 5 pageHeap 1 1 (Some 1) (Some 3) = Some h'
    /\ chainFrom h' 5 (Some 1) = Some [1]
    /\ (forall key value,
          methodOf h' [1] key value ->
          exists func, patchedFor (Some 1) 1 value func)
    /\ (forall key func,
          methodOf pageHeap [1] key func ->
          exists value, methodOf h' [1] key value)
    /\ (Some 3 = None ->
        forall key func,
          methodOf pageHeap [1] key func ->
          methodOf h' [1] key (Patched func (Some 1) 1))
    /\ (forall additional chain key func,
          Some 3 = Some additional ->
          chainFrom pageHeap 5 (Some additional) = Some chain ->
          ~ In 1 chain ->
          methodOf pageHeap chain key func ->
          methodOf h' [1] key (Patched func (Some 1) 1)).
Proof.
  eexists. split; [reflexivity|].
  apply (patched_methods 5 pageHeap _ 1 1 (Some 1) (Some 3) []);
    reflexivity.
Defined.

Example patched_locator_class :
  match patchPrototypeMethods 5 pageHeap 1 1 (Some 1) (Some 3) with
  | Some h' =>
      entries h' 5 2
      = Some [("locator", Patched (Native 11) (Some 1) 1);
              ("click", Patched (Native 12) (Some 1) 1);
              ("getByComputedRole", Patched (Native 30) (Some 1) 1)]
  | None => False
  end.
Proof. vm_compute. reflexivity. Qed.

End PatchFacts.

(** ** Registering a locator *)

Module RegisterFacts.

Import Utils Patch UtilsFacts PatchFacts.

Lemma chain_avoids (h : Heap Fn) (x : loc) :
  notAPrototype h x ->
  forall fuel start chain,
    chainFrom h fuel start = Some chain -> start <> Some x -> ~ In x chain.
Proof.
  intros Hx. induction fuel as [|fuel IH]; intros [l|] chain Hc Hstart;
    cbn [chainFrom] in Hc.
  - destruct (l =? ObjectPrototype h); [|discriminate].
    injection Hc as <-. intros [].
  - injection Hc as <-. intros [].
  - destruct (l =? ObjectPrototype h); [injection Hc as <-; intros []|].
    destruct (chainFrom h fuel (getPrototypeOf (h l))) as [rest|] eqn:E;
      [|discriminate].
    injection Hc as <-. intros [->|Hin]; [congruence|].
    exact (IH _ rest E (Hx l) Hin).
  - injection Hc as <-. intros [].
Qed.

Lemma chain_head (h : Heap Fn) (fuel : nat) (l : loc) (chain : list loc) :
  chainFrom h fuel (Some l) = Some chain ->
  l <> ObjectPrototype h ->
  exists fuel' rest,
    fuel = S fuel' /\ chain = l :: rest
    /\ chainFrom h fuel' (getPrototypeOf (h l)) = Some rest.
Proof.
  intros Hc Hl. apply Nat.eqb_neq in Hl.
  destruct fuel as [|fuel]; cbn [chainFrom] in Hc; rewrite Hl in Hc;
    [discriminate|].
  destruct (chainFrom h fuel (getPrototypeOf (h l))) as [rest|] eqn:E;
    [|discriminate].
  injection Hc as <-. exists fuel, rest. auto.
Qed.

Lemma chainFrom_step (h : Heap Fn) (fuel : nat) (l : loc) :
  chainFrom h (S fuel) (Some l)
  = if l =? ObjectPrototype h then Some []
    else match chainFrom h fuel (getPrototypeOf (h l)) with
         | Some chain => Some (l :: chain)
         | None => None
         end.
Proof. reflexivity. Qed.

Lemma chainFrom_mono (h : Heap Fn) (fuel : nat) :
  forall start chain,
    chainFrom h fuel start = Some chain ->
    chainFrom h (S fuel) start = Some chain.
Proof.
  induction fuel as [|fuel IH]; intros [l|] chain Hc;
    try exact Hc.
  - rewrite chainFrom_step. cbn [chainFrom] in Hc.
    destruct (l =? ObjectPrototype h); [exact Hc | discriminate].
  - rewrite chainFrom_step in Hc. rewrite chainFrom_step.
    destruct (l =? ObjectPrototype h); [exact Hc|].
    destruct (chainFrom h fuel (getPrototypeOf (h l))) as [rest|] eqn:E;
      [|discriminate].
    rewrite (IH _ rest E). exact Hc.
Qed.

(** Two heaps that hold the same objects along a chain give the same chain
    and find the same properties from it. *)
Lemma chain_frame (h h' : Heap Fn) :
  ObjectPrototype h' = ObjectPrototype h ->
  forall fuel start chain,
    chainFrom h fuel start = Some chain ->
    (forall l, In l chain -> h' l = h l) ->
    chainFrom h' fuel start = Some chain
    /\ forall key, lookupChain h' chain key = lookupChain h chain key.
Proof.
  intros Ho fuel start chain Hc Hsame. split.
  - revert start chain Hc Hsame.
    induction fuel as [|fuel IH]; intros [l|] chain Hc Hsame;
      cbn [chainFrom] in Hc |- *; rewrite ?Ho; try exact Hc.
    destruct (l =? ObjectPrototype h); [exact Hc|].
    destruct (chainFrom h fuel (getPrototypeOf (h l))) as [rest|] eqn:E;
      [|discriminate].
    injection Hc as <-. rewrite (Hsame l (or_introl eq_refl)).
    rewrite (IH _ rest E); [reflexivity|].
    intros l' Hl'. apply Hsame. right. exact Hl'.
  - intros key. apply lookupChain_ext. intros l Hl.
    rewrite (Hsame l Hl). reflexivity.
Qed.

Lemma patchPrototypeMethods_frame (fuel : nat) (h h' : Heap Fn)
    (prototype pl : loc) (il additional : option loc) :
  patchPrototypeMethods fuel h prototype pl il additional = Some h' ->
  ObjectPrototype h' = ObjectPrototype h
  /\ (forall l, getPrototypeOf (h' l) = getPrototypeOf (h l))
  /\ (forall l, l <> prototype -> h' l = h l).
Proof.
  unfold patchPrototypeMethods. intros Hrun.
  destruct (entries h fuel prototype) as [es|]; [|discriminate].
  destruct (patchEntries_frame prototype pl il es h) as (F1 & F2 & F3).
  destruct additional as [a|]; [|injection Hrun as <-; auto].
  destruct (entries _ fuel a) as [es'|]; [|discriminate].
  injection Hrun as <-.
  destruct (patchEntries_frame prototype pl il es'
              (patchEntries prototype pl il es h)) as (G1 & G2 & G3).
  split; [congruence|]. split.
  - intros l. rewrite G2. apply F2.
  - intros l Hl. rewrite (G3 l Hl). apply F3. exact Hl.
Qed.

Lemma patchPrototypeMethods_chain (fuel : nat) (h h' : Heap Fn)
    (prototype pl : loc) (il additional : option loc) :
  patchPrototypeMethods fuel h prototype pl il additional = Some h' ->
  prototype <> ObjectPrototype h ->
  exists fuel' rest,
    fuel = S fuel'
    /\ chainFrom h fuel (Some prototype) = Some (prototype :: rest)
    /\ chainFrom h fuel' (getPrototypeOf (h prototype)) = Some rest.
Proof.
  unfold patchPrototypeMethods. intros Hrun Hne.
  destruct (entries h fuel prototype) as [es|] eqn:E; [|discriminate].
  destruct (entries_chain h fuel (Some prototype) (∅, []) es E)
    as [chain Hc].
  destruct (chain_head h fuel prototype chain Hc Hne)
    as (fuel' & rest & -> & -> & Hrest).
  exists fuel', rest. auto.
Qed.

Lemma methodOf_nil_own (h : Heap Fn) (P : loc) (rest : list loc)
    (key : string) (value : Fn) :
  getOwnPropertyDescriptors (h P) = [] ->
  methodOf h (P :: rest) key value <-> methodOf h rest key value.
Proof.
  intros Hown. unfold methodOf, lookupChain. cbn [flat_map].
  rewrite Hown. reflexivity.
Qed.

Section Register.

Variable fuel : nat.
Variable h h' : Heap Fn.
Variable page locator : loc.
Variable patchedLocatorPrototype patchedPagePrototype : loc.
Variable additionalMethods : option loc.

Hypothesis run :
  registerLocator fuel h page locator patchedLocatorPrototype
    patchedPagePrototype additionalMethods = Some h'.

(** The two objects [Object.create] makes are new, and the page is an
    instance. *)
Hypothesis new_distinct : patchedLocatorPrototype <> patchedPagePrototype.
Hypothesis new_locator : patchedLocatorPrototype <> ObjectPrototype h.
Hypothesis new_page : patchedPagePrototype <> ObjectPrototype h.
Hypothesis page_locator : page <> patchedLocatorPrototype.
Hypothesis page_page : page <> patchedPagePrototype.
Hypothesis fresh_locator : notAPrototype h patchedLocatorPrototype.
Hypothesis fresh_page : notAPrototype h patchedPagePrototype.
Hypothesis page_instance : notAPrototype h page.
Hypothesis additional_old :
  forall a, additionalMethods = Some a ->
            a <> patchedLocatorPrototype /\ a <> patchedPagePrototype.

Local Abbreviation pl := patchedLocatorPrototype.
Local Abbreviation pp := patchedPagePrototype.
Local Abbreviation il := (getPrototypeOf (h locator)).
Local Abbreviation h1 := (Object_create h pl il).
Local Abbreviation h2 := (Object_create h1 pp (getPrototypeOf (h1 page))).

Lemma h2_object (l : loc) : l <> pl -> l <> pp -> h2 l = h l.
Proof.
  intros H1 H2. unfold Object_create, updateObject. cbn [obj].
  apply Nat.eqb_neq in H1, H2. rewrite H1, H2. reflexivity.
Qed.

Lemma h2_pl :
  getPrototypeOf (h2 pl) = il /\ getOwnPropertyDescriptors (h2 pl) = [].
Proof.
  unfold Object_create, updateObject. cbn [obj].
  pose proof new_distinct as Hd. apply Nat.eqb_neq in Hd. rewrite Hd.
  rewrite Nat.eqb_refl. auto.
Qed.

Lemma h2_pp :
  getPrototypeOf (h2 pp) = getPrototypeOf (h page)
  /\ getOwnPropertyDescriptors (h2 pp) = [].
Proof.
  unfold Object_create, updateObject. cbn [obj].
  rewrite Nat.eqb_refl. cbn [getPrototypeOf getOwnPropertyDescriptors].
  pose proof page_locator as Hd. apply Nat.eqb_neq in Hd. rewrite Hd. auto.
Qed.

Lemma h2_notAPrototype (x : loc) : notAPrototype h x -> notAPrototype h2 x.
Proof.
  intros Hx l.
  destruct (decide (l = pp)) as [->|Hpp]; [rewrite (proj1 h2_pp); apply Hx|].
  destruct (decide (l = pl)) as [->|Hpl]; [rewrite (proj1 h2_pl); apply Hx|].
  rewrite (h2_object l Hpl Hpp). apply Hx.
Qed.

(** A chain of the old heap that starts at an old object holds neither of
    the new objects, and is the same chain in the heap with them. *)
Lemma old_chain (f : nat) (start : option loc) (chain : list loc) :
  start <> Some pl -> start <> Some pp ->
  chainFrom h2 f start = Some chain \/ chainFrom h f start = Some chain ->
  ~ In pl chain /\ ~ In pp chain
  /\ chainFrom h f start = Some chain
  /\ chainFrom h2 f start = Some chain
  /\ forall key, lookupChain h2 chain key = lookupChain h chain key.
Proof.
  intros Hs1 Hs2 [Hc|Hc].
  - pose proof (chain_avoids h2 pl (h2_notAPrototype pl fresh_locator)
                  f start chain Hc Hs1) as A1.
    pose proof (chain_avoids h2 pp (h2_notAPrototype pp fresh_page)
                  f start chain Hc Hs2) as A2.
    assert (Hsame : forall l, In l chain -> h l = h2 l).
    { intros l Hl. symmetry. apply h2_object; intros ->; auto. }
    destruct (chain_frame h2 h eq_refl f start chain Hc Hsame) as [B1 B2].
    repeat split; auto.
  - pose proof (chain_avoids h pl fresh_locator f start chain Hc Hs1) as A1.
    pose proof (chain_avoids h pp fresh_page f start chain Hc Hs2) as A2.
    assert (Hsame : forall l, In l chain -> h2 l = h l).
    { intros l Hl. apply h2_object; intros ->; auto. }
    destruct (chain_frame h h2 eq_refl f start chain Hc Hsame) as [B1 B2].
    repeat split; auto.
Qed.

Lemma registerLocator_patches_both :
  getPrototypeOf (h' page) = Some pp
  /\ patchedPrototype fuel h h' pl il il pl additionalMethods
  /\ patchedPrototype fuel h h' pp (getPrototypeOf (h page)) il pl
       additionalMethods.
Proof.
  pose proof run as Hrun. unfold registerLocator in Hrun.
  destruct (patchPrototypeMethods fuel h2 pl pl il additionalMethods)
    as [h3|] eqn:E3; [|discriminate].
  destruct (patchPrototypeMethods fuel h3 pp pl il additionalMethods)
    as [h4|] eqn:E4; [|discriminate].
  injection Hrun as Hh'.
  destruct (patchPrototypeMethods_frame _ _ _ _ _ _ _ E3) as (F1 & F2 & F3).
  destruct (patchPrototypeMethods_frame _ _ _ _ _ _ _ E4) as (G1 & G2 & G3).
  assert (Hil1 : il <> Some pl) by apply fresh_locator.
  assert (Hil2 : il <> Some pp) by apply fresh_page.
  assert (Hpg1 : getPrototypeOf (h page) <> Some pl) by apply fresh_locator.
  assert (Hpg2 : getPrototypeOf (h page) <> Some pp) by apply fresh_page.
  (* the chains of the two new prototypes *)
  destruct (patchPrototypeMethods_chain _ _ _ _ _ _ _ E3 new_locator)
    as (f & restL & Hf & HcL & HrL).
  rewrite (proj1 h2_pl) in HrL.
  destruct (old_chain f il restL Hil1 Hil2 (or_introl HrL))
    as (AL1 & AL2 & HL & _ & LL).
  assert (Hpp3 : pp <> ObjectPrototype h3) by (rewrite F1; exact new_page).
  destruct (patchPrototypeMethods_chain _ _ _ _ _ _ _ E4 Hpp3)
    as (f' & restP & Hf' & HcP & HrP).
  assert (f' = f) as -> by lia.
  rewrite F2, (proj1 h2_pp) in HrP.
  rewrite (chainFrom_ext h2 h3 f F2 F1) in HrP.
  destruct (old_chain f (getPrototypeOf (h page)) restP Hpg1 Hpg2
              (or_introl HrP)) as (AP1 & AP2 & HP & HP2 & LP).
  assert (HpageL : ~ In page restL).
  { apply (chain_avoids h page page_instance f il restL HL).
    apply page_instance. }
  assert (HpageP : ~ In page restP).
  { apply (chain_avoids h page page_instance f _ restP HP).
    apply page_instance. }
  (* what the last step keeps *)
  assert (Hlast : forall l, l <> page -> h' l = h4 l).
  { intros l Hl. rewrite <- Hh'. unfold Object_setPrototypeOf, updateObject.
    cbn [obj]. apply Nat.eqb_neq in Hl. rewrite Hl. reflexivity. }
  assert (Hlast0 : ObjectPrototype h' = ObjectPrototype h4).
  { rewrite <- Hh'. reflexivity. }
  (* the additional methods, in the heap with the new objects *)
  assert (Hadd : forall a chain,
             additionalMethods = Some a ->
             chainFrom h fuel (Some a) = Some chain ->
             ~ In pl chain /\ ~ In pp chain
             /\ chainFrom h2 fuel (Some a) = Some chain
             /\ forall key, lookupChain h2 chain key = lookupChain h chain key).
  { intros a chain Ha Hc. destruct (additional_old a Ha) as [Ha1 Ha2].
    destruct (old_chain fuel (Some a) chain ltac:(congruence)
                ltac:(congruence) (or_intror Hc)) as (B1 & B2 & _ & B4 & B5).
    auto. }
  destruct (patchPrototypeMethods_spec fuel h2 h3 pl pl il additionalMethods restL E3 HcL)
    as (L1 & L2 & L3 & _ & L5).
  destruct (patchPrototypeMethods_spec fuel h3 h4 pp pl il additionalMethods restP E4 HcP)
    as (P1 & P2 & P3 & _ & P5).
  split; [|split].
  - rewrite <- Hh'. unfold Object_setPrototypeOf, updateObject. cbn [obj].
    rewrite Nat.eqb_refl. reflexivity.
  - (* the patched locator prototype *)
    assert (Hsame4 : forall l, In l (pl :: restL) -> h4 l = h3 l).
    { intros l Hl. apply G3. intros ->. destruct Hl as [Hl|Hl];
        [exact (new_distinct Hl) | exact (AL2 Hl)]. }
    destruct (chain_frame h3 h4 G1 fuel (Some pl) _ L1 Hsame4) as [C1 C2].
    assert (Hsame' : forall l, In l (pl :: restL) -> h' l = h4 l).
    { intros l Hl. apply Hlast. intros ->. destruct Hl as [Hl|Hl];
        [exact (page_locator (eq_sym Hl)) | exact (HpageL Hl)]. }
    destruct (chain_frame h4 h' Hlast0 fuel (Some pl) _ C1 Hsame') as [D1 D2].
    assert (Hm : forall key value,
               methodOf h' (pl :: restL) key value
               <-> methodOf h3 (pl :: restL) key value).
    { intros key value. unfold methodOf. rewrite D2, C2. reflexivity. }
    exists restL. split; [subst fuel; apply chainFrom_mono; exact HL|].
    split; [exact D1|]. split; [|split].
    + intros key value Hv. apply Hm in Hv. exact (L2 key value Hv).
    + intros key func Hv.
      destruct (L3 key func) as [value Hvalue].
      { apply (methodOf_nil_own h2 pl restL key func (proj2 h2_pl)).
        unfold methodOf in *. rewrite LL. exact Hv. }
      exists value. apply Hm. exact Hvalue.
    + intros a chain key func Ha Hc Hv.
      destruct (Hadd a chain Ha Hc) as (B1 & _ & B3 & B4).
      apply Hm. apply (L5 a chain key func Ha B3 B1).
      unfold methodOf in *. rewrite B4. exact Hv.
  - (* the patched page prototype *)
    assert (Hsame' : forall l, In l (pp :: restP) -> h' l = h4 l).
    { intros l Hl. apply Hlast. intros ->. destruct Hl as [Hl|Hl];
        [exact (page_page (eq_sym Hl)) | exact (HpageP Hl)]. }
    destruct (chain_frame h4 h' Hlast0 fuel (Some pp) _ P1 Hsame') as [D1 D2].
    assert (Hm : forall key value,
               methodOf h' (pp :: restP) key value
               <-> methodOf h4 (pp :: restP) key value).
    { intros key value. unfold methodOf. rewrite D2. reflexivity. }
    assert (Hold3 : forall chain,
               ~ In pl chain -> 
               forall key, lookupChain h3 chain key = lookupChain h2 chain key).
    { intros chain Hno key. apply lookupChain_ext. intros l Hl.
      rewrite F3; [reflexivity|]. intros ->. exact (Hno Hl). }
    exists restP. split; [subst fuel; apply chainFrom_mono; exact HP|].
    split; [exact D1|]. split; [|split].
    + intros key value Hv. apply Hm in Hv. exact (P2 key value Hv).
    + intros key func Hv.
      destruct (P3 key func) as [value Hvalue].
      { assert (Hown : getOwnPropertyDescriptors (h3 pp) = []).
        { rewrite (F3 pp (fun E => new_distinct (eq_sym E))).
          exact (proj2 h2_pp). }
        apply (methodOf_nil_own h3 pp restP key func Hown).
        unfold methodOf in *. rewrite (Hold3 restP AP1), LP. exact Hv. }
      exists value. apply Hm. exact Hvalue.
    + intros a chain key func Ha Hc Hv.
      destruct (Hadd a chain Ha Hc) as (B1 & B2 & B3 & B4).
      apply Hm. apply (P5 a chain key func Ha); [|exact B2|].
      * rewrite (chainFrom_ext h2 h3 fuel F2 F1). exact B3.
      * unfold methodOf in *. rewrite (Hold3 chain B1), B4. exact Hv.
Qed.

End Register.

Lemma call_patched (native : nat -> Value -> list Value -> Heap Fn
                              -> Value * Heap Fn)
    (func : Fn) (il : option loc) (pl : loc) (this : Value)
    (args : list Value) (h0 h1 : Heap Fn) (v : Value) :
  call native (Patched func il pl) this args h0 = (v, h1) ->
  v = fst (call native func this (passedArguments args) h0)
  /\ forall l, v = Object l -> il <> Some pl -> getPrototypeOf (h1 l) <> il.
Proof.
  cbn [call].
  destruct (call native func this (passedArguments args) h0) as [rv h0'].
  destruct rv as [| | |l]; try (intros [= <- <-]; split; [reflexivity|];
                               intros l [=]).
  destruct (bool_decide (getPrototypeOf (h0' l) = il)) eqn:E;
    intros [= <- <-]; (split; [reflexivity|]); intros l' [= <-] Hne.
  - unfold Object_setPrototypeOf, updateObject. cbn [obj].
    rewrite Nat.eqb_refl. cbn [getPrototypeOf]. congruence.
  - apply bool_decide_eq_false in E. exact E.
Qed.

(** X19. After [registerLocator] the page has the patched page prototype;
    every method found from it and from the patched locator prototype is
    one of the patching functions, none of the methods of the page's and
    the locators' classes is lost, and the additional methods are found
    from both; and a patching function returns what the function it was
    made from returns for the arguments passed on (those of the call, and
    one [undefined] when there are none), but never an object that still
    has the initial locator prototype. *)
Theorem registerLocator_patches (fuel : nat) (h h' : Heap Fn)
    (page locator patchedLocatorPrototype patchedPagePrototype : loc)
    (additionalMethods : option loc) :
  registerLocator fuel h page locator patchedLocatorPrototype
    patchedPagePrototype additionalMethods = Some h' ->
  patchedLocatorPrototype <> patchedPagePrototype ->
  patchedLocatorPrototype <> ObjectPrototype h ->
  patchedPagePrototype <> ObjectPrototype h ->
  page <> patchedLocatorPrototype ->
  page <> patchedPagePrototype ->
  notAPrototype h patchedLocatorPrototype ->
  notAPrototype h patchedPagePrototype ->
  notAPrototype h page ->
  (forall a, additionalMethods = Some a ->
             a <> patchedLocatorPrototype /\ a <> patchedPagePrototype) ->
  getPrototypeOf (h' page) = Some patchedPagePrototype
  /\ patchedPrototype fuel h h' patchedLocatorPrototype
       (getPrototypeOf (h locator)) (getPrototypeOf (h locator))
       patchedLocatorPrototype additionalMethods
  /\ patchedPrototype fuel h h' patchedPagePrototype
       (getPrototypeOf (h page)) (getPrototypeOf (h locator))
       patchedLocatorPrototype additionalMethods
  /\ forall native func this args h0 h1 v,
       call native
         (Patched func (getPrototypeOf (h locator)) patchedLocatorPrototype)
         this args h0 = (v, h1) ->
       v = fst (call native func this (passedArguments args) h0)
       /\ forall l, v = Object l ->
                    getPrototypeOf (h1 l) <> getPrototypeOf (h locator).
Proof.
  intros Hrun H1 H2 H3 H4 H5 H6 H7 H8 H9.
  destruct (registerLocator_patches_both fuel h h' page locator
              patchedLocatorPrototype patchedPagePrototype additionalMethods
              Hrun H1 H2 H3 H4 H5 H6 H7 H8 H9) as (A & B & C).
  split; [exact A|]. split; [exact B|]. split; [exact C|].
  intros native func this args h0 h1 v Hcall.
  destruct (call_patched native func _ _ this args h0 h1 v Hcall) as [E Hl].
  split; [exact E|]. intros l Hv. apply (Hl l Hv). apply H6.
Qed.

Lemma pageHeap_notAPrototype (x : loc) : 4 < x -> notAPrototype pageHeap x.
Proof.
  intros Hx [|[|[|[|[|[|l]]]]]]; cbn; intros [= E]; lia.
Qed.

Lemma registerLocator_patches_witness :
  exists h',
    registerLocator 5 pageHeap 5 2 6 7 (Some 3) = Some h'
    /\ getPrototypeOf (h' 5) = Some 7
    /\ patchedPrototype 5 pageHeap h' 6 (getPrototypeOf (pageHeap 2))
         (getPrototypeOf (pageHeap 2)) 6 (Some 3)
    /\ patchedPrototype 5 pageHeap h' 7 (getPrototypeOf (pageHeap 5))
         (getPrototypeOf (pageHeap 2)) 6 (Some 3)
    /\ forall native func this args h0 h1 v,
         call native (Patched func (getPrototypeOf (pageHeap 2)) 6)
           this args h0 = (v, h1) ->
         v = fst (call native func this (passedArguments args) h0)
         /\ forall l, v = Object l ->
                      getPrototypeOf (h1 l) <> getPrototypeOf (pageHeap 2).
Proof.
  eexists. split; [reflexivity|].
  apply (registerLocator_patches 5 pageHeap _ 5 2 6 7 (Some 3)).
  - reflexivity.
  - discriminate.
  - discriminate.
  - discriminate.
  - discriminate.
  - discriminate.
  - apply pageHeap_notAPrototype. lia.
  - apply pageHeap_notAPrototype. lia.
  - apply pageHeap_notAPrototype. lia.
  - intros a [= <-]. split; discriminate.
Defined.

(** A patched method called with no argument calls its function with one
    [undefined]. *)
Example patched_call_without_arguments :
  fst (call (fun _ _ args h =>
               (match args with [Undefined] => Object 2 | _ => Falsy end, h))
         (Patched (Native 0) None 6) Falsy [] pageHeap)
  = Object 2.
Proof. reflexivity. Qed.

Example registered_page_methods :
  match registerLocator 5 pageHeap 5 2 6 7 (Some 3) with
  | Some h' =>
      entries h' 5 5
      = Some [("locator", Patched (Native 21) (Some 1) 6);
              ("goto", Patched (Native 22) (Some 1) 6);
              ("getByComputedRole", Patched (Native 30) (Some 1) 6)]
      /\ entries h' 5 6
         = Some [("locator", Patched (Native 11) (Some 1) 6);
                 ("click", Patched (Native 12) (Some 1) 6);
                 ("getByComputedRole", Patched (Native 30) (Some 1) 6)]
  | None => False
  end.
Proof. vm_compute. split; reflexivity. Qed.

End RegisterFacts.

(** ** Lists of ids *)

Lemma normalize_one (s : string) :
  normalize [s] = collapseWhiteSpace (trim s).
Proof.
  unfold normalize. cbn [map List.filter].
  destruct (truthy (collapseWhiteSpace (trim s))) eqn:E; [reflexivity|].
  apply truthy_false in E. rewrite E. reflexivity.
Qed.

Lemma split_go_replaceRuns (s : string) :
  forall cur inRun,
    (inRun = true -> cur = "") ->
    split_go cur inRun (replaceRuns inRun s) = split_go cur inRun s.
Proof.
  induction s as [|a s IH]; intros cur inRun Hcur; [reflexivity|].
  cbn [replaceRuns split_go]. destruct (isWhiteSpace a) eqn:Ea.
  - destruct inRun.
    + rewrite (Hcur eq_refl). apply IH. reflexivity.
    + cbn [split_go]. change (isWhiteSpace " ") with true. cbv iota.
      rewrite IH by reflexivity. reflexivity.
  - cbn [split_go]. rewrite Ea. apply IH. discriminate.
Qed.

Lemma splitWhiteSpace_collapse (s : string) :
  splitWhiteSpace (collapseWhiteSpace s) = splitWhiteSpace s.
Proof.
  unfold splitWhiteSpace, collapseWhiteSpace.
  apply split_go_replaceRuns. discriminate.
Qed.

(** X21. A list of ids is read by its words: [resolveIdRefs] gives the same
    elements for two attribute values that are the same once white space is
    normalized, so the kind and the amount of white space between the ids
    of [aria-labelledby], and around them, do not matter. *)
Theorem resolveIdRefs_normalized (d : Dom) (doc : node) (ids1 ids2 : string) :
  normalize [ids1] = normalize [ids2] ->
  resolveIdRefs d doc ids1 = resolveIdRefs d doc ids2.
Proof.
  rewrite !normalize_one. intros H. unfold resolveIdRefs.
  assert (Hsplit : forall s,
            splitWhiteSpace (trim s)
            = splitWhiteSpace (collapseWhiteSpace (trim s))).
  { intros s. symmetry. apply splitWhiteSpace_collapse. }
  rewrite (Hsplit ids1), (Hsplit ids2), H. reflexivity.
Qed.

Lemma resolveIdRefs_normalized_witness :
  resolveIdRefs mutualDoc 0 "  b   a "
  = resolveIdRefs mutualDoc 0 (String "b" (String "010" "a")).
Proof.
  apply (resolveIdRefs_normalized mutualDoc 0). reflexivity.
Defined.

Example resolveIdRefs_order :
  resolveIdRefs mutualDoc 0 "  b   a  missing b" = [4; 2; 4].
Proof. reflexivity. Qed.

(** * Names that are empty *)

Lemma eqM_matches_no_name (d : Dom) (w : WeakMaps) (fuel : nat) (r : string)
    (name name0 : option string) (exact exact0 : option bool) (x : node) :
  truthyOpt name = false -> truthyOpt name0 = false ->
  eqM (matches d w fuel r name exact x) (matches d w fuel r name0 exact0 x).
Proof.
  intros H H0. unfold matches. rewrite H, H0. apply eqM_refl.
Qed.

(** C6, as the code has it.  An element whose computed accessible name is
    empty is never returned by [query] or [queryAll] when the filter's name
    is a non-empty string, even when its role is the requested one.  A
    name that is the empty string is no filter: [query] and [queryAll]
    then behave as they do for the payload with the same role and no name,
    with the same result and the same style cache. *)
Theorem empty_name_never_matches (d : Dom) (w : WeakMaps) (el : node)
    (fuel0 : nat) (c0 c0' : StyleCache)
    (parse : string -> option ParsedOptions.t) (document : node)
    (fuel : nat) (root : node) (c : StyleCache) :
  cache_ok c0 ->
  accessibleNameOf d w fuel0 el c0 = Ok ("", c0') ->
  cache_ok c ->
  (forall selector p,
      parse selector = Some p ->
      truthyOpt (ParsedOptions.name p) = true ->
      (forall r c',
          query d w parse document fuel root selector c = Ok (r, c') ->
          r <> Some el)
      /\ (forall rs c',
          queryAll d w parse document fuel root selector c = Ok (rs, c') ->
          ~ In el rs))
  /\ (forall selector selector0 p p0,
      parse selector = Some p -> parse selector0 = Some p0 ->
      ParsedOptions.name p = Some "" ->
      ParsedOptions.name p0 = None ->
      ParsedOptions.role p = ParsedOptions.role p0 ->
      query d w parse document fuel root selector c
      = query d w parse document fuel root selector0 c
      /\ queryAll d w parse document fuel root selector c
         = queryAll d w parse document fuel root selector0 c).
Proof.
  intros Hc0 H0 Hc. split.
  - intros selector p Hp Hname.
    assert (Hm : forall p' x,
               parse selector = Some p' -> visible d x ->
               triple (matches d w fuel (default "" (ParsedOptions.role p'))
                         (ParsedOptions.name p') (ParsedOptions.exact p') x)
                      (fun ok => ok = true -> x <> el)).
    { intros p' x Hp' _. rewrite Hp in Hp'. injection Hp' as <-.
      destruct (Nat.eq_dec x el) as [->|Hne].
      - eapply triple_weaken;
          [apply (triple_matches_empty_name d w el fuel0 c0 c0'); assumption|].
        intros ok -> ?. discriminate.
      - eapply triple_weaken;
          [apply triple_sim; apply sim_matches; lia | auto]. }
    split.
    + intros r c' Hrun ->.
      destruct (triple_query d w parse document fuel root selector
                  (fun x => x <> el) Hm _ _ _ Hc Hrun) as [_ H].
      exact (H el eq_refl eq_refl).
    + intros rs c' Hrun Hin.
      destruct (triple_queryAll d w parse document fuel root selector
                  (fun x => x <> el) Hm _ _ _ Hc Hrun) as [_ H].
      rewrite List.Forall_forall in H. exact (H el Hin eq_refl).
  - intros selector selector0 p p0 Hp Hp0 Hname Hname0 Hrole.
    pose proof (fun x => eqM_matches_no_name d w fuel
                           (default "" (ParsedOptions.role p0))
                           (ParsedOptions.name p) (ParsedOptions.name p0)
                           (ParsedOptions.exact p) (ParsedOptions.exact p0) x
                           ltac:(rewrite Hname; reflexivity)
                           ltac:(rewrite Hname0; reflexivity)) as Hm.
    unfold query, queryAll. rewrite Hp, Hp0, Hrole.
    destruct (negb _); [split; reflexivity|].
    split.
    + apply eqM_bind; [|intros r; apply eqM_refl].
      apply eqM_getElements_yield. intros x [].
      apply eqM_bind; [apply Hm | intros ok; apply eqM_refl].
    + apply eqM_bind; [|intros r; apply eqM_refl].
      apply eqM_getElements_yield. intros x rs.
      apply eqM_bind; [apply Hm | intros ok; apply eqM_refl].
Qed.

Lemma empty_name_never_matches_witness :
  ((forall r c',
       query buttonsDoc scriptForInit buttonsParse 0 9 0 "go" ∅
       = Ok (r, c') ->
       r <> Some 2)
   /\ (forall rs c',
       queryAll buttonsDoc scriptForInit buttonsParse 0 9 0 "go" ∅
       = Ok (rs, c') ->
       ~ In 2 rs))
  /\ (query buttonsDoc scriptForInit buttonsParse 0 9 0 "empty-name" ∅
      = query buttonsDoc scriptForInit buttonsParse 0 9 0 "button" ∅
      /\ queryAll buttonsDoc scriptForInit buttonsParse 0 9 0 "empty-name" ∅
         = queryAll buttonsDoc scriptForInit buttonsParse 0 9 0 "button" ∅).
Proof.
  destruct (empty_name_never_matches buttonsDoc scriptForInit 2 9 ∅
              {[ 1 := 1; 2 := 2 ]} buttonsParse 0 9 0 ∅) as [H1 H2].
  - apply cache_ok_empty.
  - vm_compute. reflexivity.
  - apply cache_ok_empty.
  - split.
    + apply (H1 "go" (payload (Some "button") (Some "go") None));
        reflexivity.
    + apply (H2 "empty-name" "button"
               (payload (Some "button") (Some "") None)
               (payload (Some "button") None None)); reflexivity.
Defined.

Example queryAll_go :
  returned (queryAll buttonsDoc scriptForInit buttonsParse 0 9 0 "go" ∅)
  = Some [3].
Proof. vm_compute. reflexivity. Qed.

(** C6, as stated, fails when the filter's name is the empty string: the
    first button of [buttonsDoc] has the empty name and the requested role,
    and [query] returns it, [queryAll] lists it. *)
Lemma empty_name_filter_returns_unnamed :
  ParsedOptions.name <$> buttonsParse "empty-name" = Some (Some "")
  /\ returned (accessibleNameOf buttonsDoc scriptForInit 9 2 ∅) = Some ""
  /\ returned (query buttonsDoc scriptForInit buttonsParse 0 9 0
                 "empty-name" ∅) = Some (Some 2)
  /\ returned (queryAll buttonsDoc scriptForInit buttonsParse 0 9 0
                 "empty-name" ∅) = Some [2; 3].
Proof. vm_compute. repeat split; reflexivity. Qed.

(** * Shadow hosts *)






(** The name of a host is not always taken from its shadow root either:
    the host of [labelledHostDoc] is named by its light child through
    [aria-labelledby], while its text is that of the shadow root. *)
Example light_child_names_host :
  shadowdomMap labelledHostMaps !! 2 = Some 3
  /\ childNodes (labelledHostDoc 2) = [5]
  /\ labelledByElementsOf labelledHostDoc labelledHostMaps 2 = [5]
  /\ returned (accessibleNameOf labelledHostDoc labelledHostMaps 9 2 ∅)
     = Some "Title"
  /\ returned (asText labelledHostDoc labelledHostMaps 9 2 ∅)
     = Some "Shadow".
Proof. vm_compute. repeat split; reflexivity. Qed.
